(** * AffineTransform: the fully-connected layer of the NNUE evaluation

    A shallow embedding of [src/nnue/layers/affine_transform.h]: the layer
    chain's compile-time constants and hash, [ReadParameters], and
    [Propagate] with each of its conditionally compiled kernels.

    Conventions.
    - [std::int32_t], [std::int8_t] and [std::uint32_t] values are [Z]; every
      wrap-around is written out ([uint32], [int32], [swrap]).
    - Raw memory (the propagation buffer, the stream, SIMD registers) is
      [list byte]; a register of [w] bytes is a list of length [w], lane 0
      first (little-endian, as on the targets of the intrinsics).
    - [IndexType] / [std::size_t] dimensions and indices are [nat]; the
      theorems that depend on their products staying below 2^32 carry the
      bound [dims_ok] as a hypothesis. *)

From Stdlib Require Import ZArith List Lia Bool Arith PeanoNat.
From Stdlib Require Import Zdiv Morphisms Setoid.
From coqutil Require Import Byte Word.LittleEndianList Z.PushPullMod.
From coqutil Require Datatypes.List.
Import ListNotations.

(** ** Fixed-width integers *)

Module Int.
Local Open Scope Z_scope.

  (** Value of a [std::uint32_t] expression. *)
Definition uint32 (z : Z) : Z := z mod 2 ^ 32.

  (** Two's-complement reading of the low [bits] bits of [z]. *)
Definition swrap (bits : Z) (z : Z) : Z :=
    (z + 2 ^ (bits - 1)) mod 2 ^ bits - 2 ^ (bits - 1).

Definition int8 (z : Z) : Z := swrap 8 z.
Definition int16 (z : Z) : Z := swrap 16 z.
Definition int32 (z : Z) : Z := swrap 32 z.

Definition is_int8 (z : Z) : Prop := -128 <= z <= 127.
Definition is_int32 (z : Z) : Prop := - 2 ^ 31 <= z < 2 ^ 31.

  (** Signed saturation to 16 bits (the [SaturateS16] of [pmaddubsw]). *)
Definition saturate16 (z : Z) : Z := Z.max (-32768) (Z.min 32767 z).

  (** A byte read as [std::uint8_t] and as [std::int8_t]. *)
Definition u8 (b : byte) : Z := byte.unsigned b.
Definition s8 (b : byte) : Z := int8 (byte.unsigned b).
End Int.
Export Int.

(** ** nnue_common.h *)

(** Modelled from the spec: [kMaxSimdWidth] (nnue_common.h is not part of
    the sources at hand): "the widest vector width compiled in", which the
    padded input dimension is a multiple of. *)
Definition kMaxSimdWidth : nat := 32.

(** Modelled from the spec: [kCacheLineSize] (nnue_common.h): the cache-line
    size every layer's share of the buffer is rounded up to. *)
Definition kCacheLineSize : nat := 64.

(** Modelled from the spec: [CeilToMultiple] (nnue_common.h): "rounded up to
    the nearest multiple of" [base]. *)
Definition CeilToMultiple (n base : nat) : nat := (n + base - 1) / base * base.

(** sizeof(OutputType), OutputType = std::int32_t. *)
Definition sizeof_OutputType : nat := 4.

(** ** std::istream, as far as [read] uses it *)

Record istream := {
  pending : list byte;     (* characters not yet extracted *)
  eofbit : bool;
  failbit : bool;
  requests : list nat      (* ghost: the count asked for by each [read] so far *)
}.

Definition good (s : istream) : bool := negb (eofbit s) && negb (failbit s).
Definition fail (s : istream) : bool := failbit s.

(** [stream.read(u, n)]: when the stream is not good nothing is extracted and
    failbit is set; otherwise up to [n] characters are extracted, and reaching
    the end before the [n]-th sets eofbit and failbit.  The result is the
    contents of [u] afterwards; the cells of [u] the stream did not fill are
    indeterminate in C++ and read as 0 here. *)
Definition istream_read (n : nat) (s : istream) : list byte * istream :=
  if good s then
    let got := firstn n (pending s) in
    let short := Nat.ltb (length got) n in
    (got ++ repeat Byte.x00 (n - length got),
     {| pending := skipn n (pending s);
        eofbit := short;
        failbit := short;
        requests := requests s ++ [n] |})
  else
    (repeat Byte.x00 n,
     {| pending := pending s;
        eofbit := eofbit s;
        failbit := true;
        requests := requests s ++ [n] |}).

(** Modelled from the spec: [read_little_endian<IntType>] (nnue_common.h):
    reads sizeof(IntType) bytes and assembles them least significant byte
    first; [size] is sizeof(IntType), the result is the signed value. *)
Definition read_little_endian (size : nat) (s : istream) : Z * istream :=
  let '(u, s') := istream_read size s in
  (swrap (8 * Z.of_nat size) (le_combine u), s').

(** ** Build targets *)

(** The branch of the #if chain in [Propagate] a build compiles:
    USE_AVX512 (with or without USE_VNNI), else USE_AVX2 (likewise), else
    USE_SSSE3, else the "old implementation" under USE_SSE2, USE_MMX,
    USE_NEON, or none of them. *)
Inductive Arch : Type :=
| AVX512 (USE_VNNI : bool)
| AVX2 (USE_VNNI : bool)
| SSSE3
| SSE2
| MMX
| NEON
| Generic.

(** Modelled from the spec: [kSimdWidth] (nnue_common.h), the register width
    in bytes of the chunks each branch walks: 32 with AVX2 (and with AVX512,
    whose wide path takes [kSimdWidth * 2]), 16 with SSE2/SSSE3 and NEON, 8
    with MMX.  The portable branch does not use it. *)
Definition kSimdWidth (a : Arch) : nat :=
  match a with
  | AVX512 _ | AVX2 _ => 32
  | SSSE3 | SSE2 | NEON => 16
  | MMX => 8
  | Generic => 1
  end.

(** ** The layer interface

    What [AffineTransform] uses of its [PreviousLayer] template argument.
    [T] is the layer object's state. Memory is one flat byte array; pointers
    are offsets into it.  [Propagate] returns the memory afterwards and the
    pointer to the layer's output, or [None] when an assertion fails. *)
Class Layer (T : Type) := {
  kOutputDimensions : nat;
  kBufferSize : nat;
  GetHashValue : Z;
  ReadParameters : istream -> T -> bool * istream * T;
  Propagate : Arch -> T -> nat -> nat -> list byte -> option (list byte * nat)
}.
Arguments kOutputDimensions T {_}.
Arguments kBufferSize T {_}.
Arguments GetHashValue T {_}.

(** ** SIMD registers and the intrinsics [Propagate] uses

    An [__m64], [__m128i], [__m256i] or [__m512i] is its 8, 16, 32 or 64
    bytes.  Each intrinsic reads its operands through the lane view its
    documentation gives ([epu8], [epi8], [epi16], [epi32]) and packs its
    result lanes back into bytes. *)

Module Simd.
Local Open Scope Z_scope.

Definition reg := list byte.

Fixpoint lanes16 (r : reg) : list Z :=
    match r with
    | b0 :: b1 :: r' => le_combine [b0; b1] :: lanes16 r'
    | _ => []
    end.

Fixpoint lanes32 (r : reg) : list Z :=
    match r with
    | b0 :: b1 :: b2 :: b3 :: r' => le_combine [b0; b1; b2; b3] :: lanes32 r'
    | _ => []
    end.

Definition pack16 (l : list Z) : reg := flat_map (le_split 2) l.
Definition pack32 (l : list Z) : reg := flat_map (le_split 4) l.

Definition epu8 (r : reg) : list Z := map u8 r.
Definition epi8 (r : reg) : list Z := map s8 r.
Definition epi16 (r : reg) : list Z := map int16 (lanes16 r).
Definition epi32 (r : reg) : list Z := map int32 (lanes32 r).

Definition zipWith {A B C} (f : A -> B -> C) (a : list A) (b : list B) : list C :=
    map (fun p => f (fst p) (snd p)) (combine a b).

  (** Sums of adjacent pairs and of adjacent groups of four. *)
Fixpoint pairsum (l : list Z) : list Z :=
    match l with
    | x :: y :: l' => x + y :: pairsum l'
    | _ => []
    end.

Fixpoint quadsum (l : list Z) : list Z :=
    match l with
    | x :: y :: z :: t :: l' => x + y + z + t :: quadsum l'
    | _ => []
    end.

Fixpoint interleave (a b : reg) : reg :=
    match a, b with
    | x :: a', y :: b' => x :: y :: interleave a' b'
    | _, _ => []
    end.

  (** The [k]-th group of [w] bytes, and a register assembled from chosen groups. *)
Definition slice (w k : nat) (r : reg) : reg := firstn w (skipn (k * w) r).
Definition select (w : nat) (idx : list nat) (r : reg) : reg :=
    flat_map (fun k => slice w k r) idx.

  (** The [k]-th 2-bit field of a shuffle immediate. *)
Definition imm2 (imm : Z) (k : nat) : nat :=
    Z.to_nat (Z.land (Z.shiftr imm (2 * Z.of_nat k)) 3).

Definition _MM_PERM_BADC : Z := 78.   (* 0x4E *)
Definition _MM_PERM_CDAB : Z := 177.  (* 0xB1 *)
Definition _MM_SHUFFLE (z y x w : Z) : Z :=
    Z.lor (Z.lor (Z.lor (Z.shiftl z 6) (Z.shiftl y 4)) (Z.shiftl x 2)) w.

  (** An operation defined on each 128-bit lane of [n]-lane registers. *)
Fixpoint per_lane128 (n : nat) (f : reg -> reg -> reg) (a b : reg) : reg :=
    match n with
    | O => []
    | S n' => f (firstn 16 a) (firstn 16 b)
                ++ per_lane128 n' f (skipn 16 a) (skipn 16 b)
    end.

  (** *** Lane-wise arithmetic, any register width *)

Definition setzero (width : nat) : reg := repeat Byte.x00 width.
Definition set1_epi16 (width : nat) (v : Z) : reg := pack16 (repeat v (width / 2)).

Definition add_epi32 (a b : reg) : reg :=
    pack32 (zipWith Z.add (lanes32 a) (lanes32 b)).

  (** pmaddubsw: unsigned bytes of [a] times signed bytes of [b], adjacent
      products added with signed saturation to 16 bits. *)
Definition maddubs_epi16 (a b : reg) : reg :=
    pack16 (map saturate16 (pairsum (zipWith Z.mul (epu8 a) (epi8 b)))).

  (** pmaddwd: signed 16-bit lanes multiplied, adjacent products added. *)
Definition madd_epi16 (a b : reg) : reg :=
    pack32 (pairsum (zipWith Z.mul (epi16 a) (epi16 b))).

  (** vpdpbusd: four unsigned-by-signed byte products added to each dword of [src]. *)
Definition dpbusd_epi32 (src a b : reg) : reg :=
    pack32 (zipWith Z.add (lanes32 src)
                    (quadsum (zipWith Z.mul (epu8 a) (epi8 b)))).

  (** pcmpgtb: all-ones where the signed byte of [a] exceeds that of [b]. *)
Definition cmpgt_epi8 (a b : reg) : reg :=
    zipWith (fun x y => if s8 y <? s8 x then Byte.xff else Byte.x00) a b.

  (** *** 128-bit *)

Definition _mm_setzero_si128 : reg := setzero 16.
Definition _mm_cvtsi32_si128 (a : Z) : reg := pack32 [a; 0; 0; 0].
Definition _mm_cvtsi128_si32 (a : reg) : Z := int32 (nth 0%nat (lanes32 a) 0).
Definition _mm_shuffle_epi32 (a : reg) (imm : Z) : reg :=
    select 4 [imm2 imm 0; imm2 imm 1; imm2 imm 2; imm2 imm 3] a.
Definition _mm_shufflelo_epi16 (a : reg) (imm : Z) : reg :=
    select 2 [imm2 imm 0; imm2 imm 1; imm2 imm 2; imm2 imm 3] a ++ skipn 8 a.
Definition _mm_hadd_epi32 (a b : reg) : reg :=
    pack32 (pairsum (lanes32 a) ++ pairsum (lanes32 b)).
Definition _mm_unpacklo_epi8 (a b : reg) : reg := interleave (firstn 8 a) (firstn 8 b).
Definition _mm_unpackhi_epi8 (a b : reg) : reg := interleave (skipn 8 a) (skipn 8 b).
Definition _mm_unpacklo_epi32 (a b : reg) : reg :=
    slice 4 0 a ++ slice 4 0 b ++ slice 4 1 a ++ slice 4 1 b.
Definition _mm_unpackhi_epi32 (a b : reg) : reg :=
    slice 4 2 a ++ slice 4 2 b ++ slice 4 3 a ++ slice 4 3 b.
Definition _mm_unpacklo_epi64 (a b : reg) : reg := slice 8 0 a ++ slice 8 0 b.
Definition _mm_unpackhi_epi64 (a b : reg) : reg := slice 8 1 a ++ slice 8 1 b.

  (** *** 256-bit *)

Definition _mm256_setzero_si256 : reg := setzero 32.
Definition _mm256_castsi256_si128 (a : reg) : reg := firstn 16 a.
Definition _mm256_extracti128_si256 (a : reg) (imm : nat) : reg := slice 16 imm a.
Definition _mm256_hadd_epi32 (a b : reg) : reg := per_lane128 2 _mm_hadd_epi32 a b.

  (** *** 512-bit *)

Definition _mm512_setzero_si512 : reg := setzero 64.
Definition _mm512_castsi512_si256 (a : reg) : reg := firstn 32 a.
Definition _mm512_extracti64x4_epi64 (a : reg) (imm : nat) : reg := slice 32 imm a.
Definition _mm512_unpacklo_epi32 (a b : reg) : reg := per_lane128 4 _mm_unpacklo_epi32 a b.
Definition _mm512_unpackhi_epi32 (a b : reg) : reg := per_lane128 4 _mm_unpackhi_epi32 a b.
Definition _mm512_unpacklo_epi64 (a b : reg) : reg := per_lane128 4 _mm_unpacklo_epi64 a b.
Definition _mm512_unpackhi_epi64 (a b : reg) : reg := per_lane128 4 _mm_unpackhi_epi64 a b.
Definition _mm512_reduce_add_epi32 (a : reg) : Z :=
    int32 (fold_left Z.add (epi32 a) 0).

  (** *** 64-bit (MMX) *)

Definition _mm_setzero_si64 : reg := setzero 8.
Definition _mm_cvtsi32_si64 (a : Z) : reg := pack32 [a; 0].
Definition _mm_cvtsi64_si32 (a : reg) : Z := int32 (nth 0%nat (lanes32 a) 0).
Definition _mm_unpacklo_pi8 (a b : reg) : reg := interleave (firstn 4 a) (firstn 4 b).
Definition _mm_unpackhi_pi8 (a b : reg) : reg := interleave (skipn 4 a) (skipn 4 b).
Definition _mm_unpackhi_pi32 (a b : reg) : reg := slice 4 1 a ++ slice 4 1 b.

  (** *** NEON: typed vectors, a list of lane values *)

  (** An [int8x8_t] loaded from 8 bytes. *)
Definition int8x8 (r : reg) : list Z := epi8 r.
Definition vmull_s8 (a b : list Z) : list Z := map int16 (zipWith Z.mul a b).
Definition vmlal_s8 (acc a b : list Z) : list Z :=
    map int16 (zipWith Z.add acc (zipWith Z.mul a b)).
Definition vpadalq_s16 (acc p : list Z) : list Z :=
    map int32 (zipWith Z.add acc (pairsum p)).
End Simd.
Export Simd.

(** ** Loops and array access *)

(** [for (i = 0; i < n; ++i) st = body i st]. *)
Definition for_ {S : Type} (n : nat) (body : nat -> S -> S) (init : S) : S :=
  fold_left (fun st i => body i st) (seq 0 n) init.

(** [p[j]] for a pointer [p] to vectors of [width] bytes. *)
Definition vload (width : nat) (p : list byte) (j : nat) : reg := slice width j p.

(** ** The helper lambdas of [Propagate] *)

Module Helpers.
Local Open Scope Z_scope.

  (** USE_AVX512 *)
Definition kOnes512 : reg := set1_epi16 64 1.

Definition m512_hadd (sum : reg) (bias : Z) : Z :=
    int32 (_mm512_reduce_add_epi32 sum + bias).

Definition m512_haddx4 (sum0 sum1 sum2 sum3 bias : reg) : reg :=
    let sum01a := _mm512_unpacklo_epi32 sum0 sum1 in
    let sum01b := _mm512_unpackhi_epi32 sum0 sum1 in
    let sum23a := _mm512_unpacklo_epi32 sum2 sum3 in
    let sum23b := _mm512_unpackhi_epi32 sum2 sum3 in
    let sum01 := add_epi32 sum01a sum01b in
    let sum23 := add_epi32 sum23a sum23b in
    let sum0123a := _mm512_unpacklo_epi64 sum01 sum23 in
    let sum0123b := _mm512_unpackhi_epi64 sum01 sum23 in
    let sum := add_epi32 sum0123a sum0123b in
    let sum256lo := _mm512_castsi512_si256 sum in
    let sum256hi := _mm512_extracti64x4_epi64 sum 1 in
    let sum256lo := add_epi32 sum256lo sum256hi in
    let sum128lo := _mm256_castsi256_si128 sum256lo in
    let sum128hi := _mm256_extracti128_si256 sum256lo 1 in
    add_epi32 (add_epi32 sum128lo sum128hi) bias.

Definition m512_add_dpbusd_epi32 (USE_VNNI : bool) (acc a b : reg) : reg :=
    if USE_VNNI then dpbusd_epi32 acc a b
    else
      let product0 := maddubs_epi16 a b in
      let product0 := madd_epi16 product0 kOnes512 in
      add_epi32 acc product0.

  (** USE_AVX2 *)
Definition kOnes256 : reg := set1_epi16 32 1.

Definition m256_hadd (sum : reg) (bias : Z) : Z :=
    let sum128 := add_epi32 (_mm256_castsi256_si128 sum)
                            (_mm256_extracti128_si256 sum 1) in
    let sum128 := add_epi32 sum128 (_mm_shuffle_epi32 sum128 _MM_PERM_BADC) in
    let sum128 := add_epi32 sum128 (_mm_shuffle_epi32 sum128 _MM_PERM_CDAB) in
    int32 (_mm_cvtsi128_si32 sum128 + bias).

Definition m256_haddx4 (sum0 sum1 sum2 sum3 bias : reg) : reg :=
    let sum0 := _mm256_hadd_epi32 sum0 sum1 in
    let sum2 := _mm256_hadd_epi32 sum2 sum3 in
    let sum0 := _mm256_hadd_epi32 sum0 sum2 in
    let sum128lo := _mm256_castsi256_si128 sum0 in
    let sum128hi := _mm256_extracti128_si256 sum0 1 in
    add_epi32 (add_epi32 sum128lo sum128hi) bias.

Definition m256_add_dpbusd_epi32 (USE_VNNI : bool) (acc a b : reg) : reg :=
    if USE_VNNI then dpbusd_epi32 acc a b
    else
      let product0 := maddubs_epi16 a b in
      let product0 := madd_epi16 product0 kOnes256 in
      add_epi32 acc product0.

  (** USE_SSSE3 *)
Definition kOnes128 : reg := set1_epi16 16 1.

Definition m128_hadd (sum : reg) (bias : Z) : Z :=
    let sum := add_epi32 sum (_mm_shuffle_epi32 sum 78) in   (* 0x4E, _MM_PERM_BADC *)
    let sum := add_epi32 sum (_mm_shuffle_epi32 sum 177) in  (* 0xB1, _MM_PERM_CDAB *)
    int32 (_mm_cvtsi128_si32 sum + bias).

Definition m128_haddx4 (sum0 sum1 sum2 sum3 bias : reg) : reg :=
    let sum0 := _mm_hadd_epi32 sum0 sum1 in
    let sum2 := _mm_hadd_epi32 sum2 sum3 in
    let sum0 := _mm_hadd_epi32 sum0 sum2 in
    add_epi32 sum0 bias.

Definition m128_add_dpbusd_epi32 (acc a b : reg) : reg :=
    let product0 := maddubs_epi16 a b in
    let product0 := madd_epi16 product0 kOnes128 in
    add_epi32 acc product0.
End Helpers.
Export Helpers.

(** ** The kernels of [Propagate]

    Each branch of the #if chain, as the sequence of stores it performs on
    [output]: the index written and the values stored there, as a function of
    what [input] points to at that moment. *)

Section Kernels.
Variable kInputDimensions : nat.
Variable kOutputDimensions : nat.
Variable biases_ : list Z.     (* BiasType = std::int32_t *)
Variable weights_ : list Z.    (* WeightType = std::int8_t *)

Definition kPaddedInputDimensions : nat :=
    CeilToMultiple kInputDimensions kMaxSimdWidth.

  (** The [weights_] array as the bytes a vector load sees. *)
Definition weight_bytes : list byte := map byte.of_Z weights_.

  (** [*reinterpret_cast<const __m128i*>(&biases_[i])] *)
Definition bias128 (i : nat) : reg := pack32 (firstn 4 (skipn i biases_)).

  (** The chunk loop of the one-output paths:
      [sum0 = 0; for (j < n) add_dpbusd(sum0, input_vector[j], row0[j])]. *)
Definition dot_row (add_dpbusd : reg -> reg -> reg -> reg) (width n : nat)
             (input row0 : list byte) : reg :=
    for_ n (fun j sum0 => add_dpbusd sum0 (vload width input j) (vload width row0 j))
         (setzero width).

  (** The chunk loop of the four-output paths, with its four accumulators. *)
Definition dot_rows4 (add_dpbusd : reg -> reg -> reg -> reg) (width n : nat)
             (input row0 row1 row2 row3 : list byte) : reg * reg * reg * reg :=
    for_ n (fun j '(sum0, sum1, sum2, sum3) =>
              let in_ := vload width input j in
              (add_dpbusd sum0 in_ (vload width row0 j),
               add_dpbusd sum1 in_ (vload width row1 j),
               add_dpbusd sum2 in_ (vload width row2 j),
               add_dpbusd sum3 in_ (vload width row3 j)))
         (setzero width, setzero width, setzero width, setzero width).

  (** *** USE_AVX512 *)

Definition avx512_block (USE_VNNI : bool) (i : nat) (input : list byte) : list Z :=
    let kSimdWidth := kSimdWidth (AVX512 USE_VNNI) in
    let kNumChunks512 := kPaddedInputDimensions / (kSimdWidth * 2) in
    let kNumChunks256 := kPaddedInputDimensions / kSimdWidth in
    let offset0 := (i + 0) * kPaddedInputDimensions in
    let offset1 := (i + 1) * kPaddedInputDimensions in
    let offset2 := (i + 2) * kPaddedInputDimensions in
    let offset3 := (i + 3) * kPaddedInputDimensions in
    let bias := bias128 i in
    let row0 := skipn offset0 weight_bytes in
    let row1 := skipn offset1 weight_bytes in
    let row2 := skipn offset2 weight_bytes in
    let row3 := skipn offset3 weight_bytes in
    if kPaddedInputDimensions mod (kSimdWidth * 2) =? 0 then
      let '(sum0, sum1, sum2, sum3) :=
        dot_rows4 (m512_add_dpbusd_epi32 USE_VNNI) 64 kNumChunks512
                  input row0 row1 row2 row3 in
      epi32 (m512_haddx4 sum0 sum1 sum2 sum3 bias)
    else
      let '(sum0, sum1, sum2, sum3) :=
        dot_rows4 (m256_add_dpbusd_epi32 USE_VNNI) 32 kNumChunks256
                  input row0 row1 row2 row3 in
      epi32 (m256_haddx4 sum0 sum1 sum2 sum3 bias).

Definition avx512_single (USE_VNNI : bool) (input : list byte) : list Z :=
    let kSimdWidth := kSimdWidth (AVX512 USE_VNNI) in
    let kNumChunks512 := kPaddedInputDimensions / (kSimdWidth * 2) in
    let kNumChunks256 := kPaddedInputDimensions / kSimdWidth in
    let row0 := weight_bytes in
    if kPaddedInputDimensions mod (kSimdWidth * 2) =? 0 then
      let sum0 := dot_row (m512_add_dpbusd_epi32 USE_VNNI) 64 kNumChunks512 input row0 in
      [m512_hadd sum0 (nth 0 biases_ 0%Z)]
    else
      let sum0 := dot_row (m256_add_dpbusd_epi32 USE_VNNI) 32 kNumChunks256 input row0 in
      [m256_hadd sum0 (nth 0 biases_ 0%Z)].

  (** *** USE_AVX2 *)

Definition avx2_block (USE_VNNI : bool) (i : nat) (input : list byte) : list Z :=
    let kNumChunks := kPaddedInputDimensions / kSimdWidth (AVX2 USE_VNNI) in
    let offset0 := (i + 0) * kPaddedInputDimensions in
    let offset1 := (i + 1) * kPaddedInputDimensions in
    let offset2 := (i + 2) * kPaddedInputDimensions in
    let offset3 := (i + 3) * kPaddedInputDimensions in
    let bias := bias128 i in
    let row0 := skipn offset0 weight_bytes in
    let row1 := skipn offset1 weight_bytes in
    let row2 := skipn offset2 weight_bytes in
    let row3 := skipn offset3 weight_bytes in
    let '(sum0, sum1, sum2, sum3) :=
      dot_rows4 (m256_add_dpbusd_epi32 USE_VNNI) 32 kNumChunks
                input row0 row1 row2 row3 in
    epi32 (m256_haddx4 sum0 sum1 sum2 sum3 bias).

Definition avx2_single (USE_VNNI : bool) (input : list byte) : list Z :=
    let kNumChunks := kPaddedInputDimensions / kSimdWidth (AVX2 USE_VNNI) in
    let row0 := weight_bytes in
    let sum0 := dot_row (m256_add_dpbusd_epi32 USE_VNNI) 32 kNumChunks input row0 in
    [m256_hadd sum0 (nth 0 biases_ 0%Z)].

  (** *** USE_SSSE3 *)

Definition ssse3_block (i : nat) (input : list byte) : list Z :=
    let kNumChunks := kPaddedInputDimensions / kSimdWidth SSSE3 in
    let offset0 := (i + 0) * kPaddedInputDimensions in
    let offset1 := (i + 1) * kPaddedInputDimensions in
    let offset2 := (i + 2) * kPaddedInputDimensions in
    let offset3 := (i + 3) * kPaddedInputDimensions in
    let bias := bias128 i in
    let row0 := skipn offset0 weight_bytes in
    let row1 := skipn offset1 weight_bytes in
    let row2 := skipn offset2 weight_bytes in
    let row3 := skipn offset3 weight_bytes in
    let '(sum0, sum1, sum2, sum3) :=
      dot_rows4 m128_add_dpbusd_epi32 16 kNumChunks input row0 row1 row2 row3 in
    epi32 (m128_haddx4 sum0 sum1 sum2 sum3 bias).

Definition ssse3_single (input : list byte) : list Z :=
    let kNumChunks := kPaddedInputDimensions / kSimdWidth SSSE3 in
    let row0 := weight_bytes in
    let sum0 := dot_row m128_add_dpbusd_epi32 16 kNumChunks input row0 in
    [m128_hadd sum0 (nth 0 biases_ 0%Z)].

  (** *** The old implementation: one output per iteration *)

  (** USE_SSE2 (reached without USE_SSSE3, so [kZeros] is what is defined). *)
Definition sse2_row (i : nat) (input : list byte) : Z :=
    let kNumChunks := kPaddedInputDimensions / kSimdWidth SSE2 in
    let kZeros := _mm_setzero_si128 in
    let offset := i * kPaddedInputDimensions in
    let row := skipn offset weight_bytes in
    let '(sum_lo, sum_hi) :=
      for_ kNumChunks
        (fun j '(sum_lo, sum_hi) =>
           let row_j := vload 16 row j in
           let input_j := vload 16 input j in
           let row_signs := cmpgt_epi8 kZeros row_j in
           let extended_row_lo := _mm_unpacklo_epi8 row_j row_signs in
           let extended_row_hi := _mm_unpackhi_epi8 row_j row_signs in
           let extended_input_lo := _mm_unpacklo_epi8 input_j kZeros in
           let extended_input_hi := _mm_unpackhi_epi8 input_j kZeros in
           let product_lo := madd_epi16 extended_row_lo extended_input_lo in
           let product_hi := madd_epi16 extended_row_hi extended_input_hi in
           (add_epi32 sum_lo product_lo, add_epi32 sum_hi product_hi))
        (_mm_cvtsi32_si128 (nth i biases_ 0%Z), kZeros) in
    let sum := add_epi32 sum_lo sum_hi in
    let sum_high_64 := _mm_shuffle_epi32 sum (_MM_SHUFFLE 1 0 3 2) in
    let sum := add_epi32 sum sum_high_64 in
    let sum_second_32 := _mm_shufflelo_epi16 sum (_MM_SHUFFLE 1 0 3 2) in
    let sum := add_epi32 sum sum_second_32 in
    _mm_cvtsi128_si32 sum.

  (** USE_MMX *)
Definition mmx_row (i : nat) (input : list byte) : Z :=
    let kNumChunks := kPaddedInputDimensions / kSimdWidth MMX in
    let kZeros := _mm_setzero_si64 in
    let offset := i * kPaddedInputDimensions in
    let row := skipn offset weight_bytes in
    let '(sum_lo, sum_hi) :=
      for_ kNumChunks
        (fun j '(sum_lo, sum_hi) =>
           let row_j := vload 8 row j in
           let input_j := vload 8 input j in
           let row_signs := cmpgt_epi8 kZeros row_j in
           let extended_row_lo := _mm_unpacklo_pi8 row_j row_signs in
           let extended_row_hi := _mm_unpackhi_pi8 row_j row_signs in
           let extended_input_lo := _mm_unpacklo_pi8 input_j kZeros in
           let extended_input_hi := _mm_unpackhi_pi8 input_j kZeros in
           let product_lo := madd_epi16 extended_row_lo extended_input_lo in
           let product_hi := madd_epi16 extended_row_hi extended_input_hi in
           (add_epi32 sum_lo product_lo, add_epi32 sum_hi product_hi))
        (_mm_cvtsi32_si64 (nth i biases_ 0%Z), kZeros) in
    let sum := add_epi32 sum_lo sum_hi in
    let sum := add_epi32 sum (_mm_unpackhi_pi32 sum sum) in
    _mm_cvtsi64_si32 sum.

  (** USE_NEON: [input] and the weight row are both read as [int8x8_t]. *)
Definition neon_row (i : nat) (input : list byte) : Z :=
    let kNumChunks := kPaddedInputDimensions / kSimdWidth NEON in
    let offset := i * kPaddedInputDimensions in
    let row := skipn offset weight_bytes in
    let input_vector j := int8x8 (vload 8 input j) in
    let row_ j := int8x8 (vload 8 row j) in
    let sum :=
      for_ kNumChunks
        (fun j sum =>
           let product := vmull_s8 (input_vector (j * 2)) (row_ (j * 2)) in
           let product := vmlal_s8 product (input_vector (j * 2 + 1)) (row_ (j * 2 + 1)) in
           vpadalq_s16 sum product)
        [nth i biases_ 0%Z; 0%Z; 0%Z; 0%Z] in
    int32 (int32 (int32 (nth 0 sum 0 + nth 1 sum 0) + nth 2 sum 0) + nth 3 sum 0)%Z.

  (** No vector unit: the portable loop, over [kInputDimensions]. *)
Definition generic_row (i : nat) (input : list byte) : Z :=
    let offset := i * kPaddedInputDimensions in
    for_ kInputDimensions
      (fun j sum => int32 (sum + nth (offset + j) weights_ 0 * u8 (nth j input Byte.x00)))%Z
      (nth i biases_ 0%Z).

  (** *** The compile-time dispatch on [kOutputDimensions] *)

Definition store : Type := nat * (list byte -> list Z).

  (** The stores of a branch with the 4-way blocked and the single-output
      path; [None] is its [assert(false)]. *)
Definition dispatch (block : nat -> list byte -> list Z)
             (single : list byte -> list Z) : option (list store) :=
    if kOutputDimensions mod 4 =? 0 then
      Some (map (fun k => (4 * k, block (4 * k))) (seq 0 (kOutputDimensions / 4)))
    else if kOutputDimensions =? 1 then
      Some [(0, single)]
    else
      None.

  (** The stores of the old implementation: [output[i] = row i]. *)
Definition rowwise (row : nat -> list byte -> Z) : option (list store) :=
    Some (map (fun i => (i, fun input => [row i input])) (seq 0 kOutputDimensions)).

Definition kernel (a : Arch) : option (list store) :=
    match a with
    | AVX512 v => dispatch (avx512_block v) (avx512_single v)
    | AVX2 v => dispatch (avx2_block v) (avx2_single v)
    | SSSE3 => dispatch ssse3_block ssse3_single
    | SSE2 => rowwise sse2_row
    | MMX => rowwise mmx_row
    | NEON => rowwise neon_row
    | Generic => rowwise generic_row
    end.

  (** The output vector a kernel produces from one input vector. *)
Definition affine (a : Arch) (input : list byte) : option (list Z) :=
    option_map (flat_map (fun st : store => snd st input)) (kernel a).
End Kernels.

(** ** The layer *)

Record AffineTransform (PreviousLayer : Type) (OutputDimensions : nat) := {
  previous_layer_ : PreviousLayer;
  biases_ : list Z;      (* BiasType biases_[kOutputDimensions] *)
  weights_ : list Z      (* WeightType weights_[kOutputDimensions * kPaddedInputDimensions] *)
}.
Arguments previous_layer_ {_ _} _.
Arguments biases_ {_ _} _.
Arguments weights_ {_ _} _.

Section AffineTransform.
Context {PreviousLayer : Type} `{Layer PreviousLayer}.
Variable OutputDimensions : nat.

Local Abbreviation Self := (AffineTransform PreviousLayer OutputDimensions).

Definition kInputDimensions : nat := kOutputDimensions PreviousLayer.

Definition kPadded : nat := kPaddedInputDimensions kInputDimensions.

Definition kSelfBufferSize : nat :=
    CeilToMultiple (OutputDimensions * sizeof_OutputType) kCacheLineSize.

Definition AffineTransform_kBufferSize : nat :=
    kBufferSize PreviousLayer + kSelfBufferSize.

Definition AffineTransform_GetHashValue : Z :=
    let hash_value := 0xCC03DAE4%Z in
    let hash_value := uint32 (hash_value + Z.of_nat OutputDimensions) in
    let hash_value := Z.lxor hash_value (Z.shiftr (GetHashValue PreviousLayer) 1) in
    let hash_value := Z.lxor hash_value (uint32 (Z.shiftl (GetHashValue PreviousLayer) 31)) in
    hash_value.

  (** [for (i = 0; i < n; ++i) array[i] = read_little_endian<T>(stream)] *)
Definition read_array (size n : nat) (stream : istream) (array : list Z)
    : istream * list Z :=
    for_ n (fun i '(stream, array) =>
              let '(v, stream) := read_little_endian size stream in
              (stream, List.upd array i v))
         (stream, array).

Definition AffineTransform_ReadParameters (stream : istream) (l : Self)
    : bool * istream * Self :=
    let '(ok, stream, prev) := ReadParameters stream (previous_layer_ l) in
    if negb ok then
      (false, stream,
       {| previous_layer_ := prev; biases_ := biases_ l; weights_ := weights_ l |})
    else
      let '(stream, biases) := read_array 4 OutputDimensions stream (biases_ l) in
      let '(stream, weights) :=
        read_array 1 (OutputDimensions * kPadded) stream (weights_ l) in
      (negb (fail stream), stream,
       {| previous_layer_ := prev; biases_ := biases; weights_ := weights |}).

  (** [output[i] = v...]: the values of one store laid out from
      [buffer + i * sizeof(OutputType)]. *)
Definition write_output (buffer : nat) (mem : list byte) (i : nat) (v : list Z)
    : list byte :=
    List.upds mem (buffer + i * sizeof_OutputType) (pack32 v).

Definition AffineTransform_Propagate (a : Arch) (l : Self)
             (transformed_features buffer : nat) (mem : list byte)
    : option (list byte * nat) :=
    match Propagate a (previous_layer_ l) transformed_features
                    (buffer + kSelfBufferSize) mem with
    | None => None
    | Some (mem, input) =>
        let output := buffer in
        match kernel kInputDimensions OutputDimensions (biases_ l) (weights_ l) a with
        | None => None
        | Some stores =>
            Some (fold_left
                    (fun mem (st : store) =>
                       write_output output mem (fst st) (snd st (skipn input mem)))
                    stores mem,
                  output)
        end
    end.

(** The values [Propagate] stores in [output], as a function of the vector
    its predecessor hands over. *)
Definition Propagate_kernel (a : Arch) (l : Self) (input : list byte)
  : option (list Z) :=
  affine kInputDimensions OutputDimensions (biases_ l) (weights_ l) a input.

#[export] Instance AffineTransform_Layer : Layer Self := {
    kOutputDimensions := OutputDimensions;
    kBufferSize := AffineTransform_kBufferSize;
    GetHashValue := AffineTransform_GetHashValue;
    ReadParameters := AffineTransform_ReadParameters;
    Propagate := AffineTransform_Propagate
  }.
End AffineTransform.
Arguments Propagate_kernel {_ _ _} a l input.

(** ** What the theorems are stated with *)

(** The layer object as its C++ type has it: arrays of the declared sizes
    holding values of the element types. *)
Record well_formed {PreviousLayer : Type} `{Layer PreviousLayer} {O : nat}
       (l : AffineTransform PreviousLayer O) : Prop := {
  wf_biases_length : length (biases_ l) = O;
  wf_biases_int32 : Forall is_int32 (biases_ l);
  wf_weights_length : length (weights_ l) = O * kPadded;
  wf_weights_int8 : Forall is_int8 (weights_ l)
}.

(** The dimensions fit [IndexType] (std::uint32_t), so that none of the index
    products wraps. *)
Definition dims_ok (kInputDimensions kOutputDimensions : nat) : Prop :=
  (Z.of_nat kInputDimensions + Z.of_nat kMaxSimdWidth <= 2 ^ 32)%Z /\
  (Z.of_nat kOutputDimensions * Z.of_nat (kPaddedInputDimensions kInputDimensions)
   < 2 ^ 32)%Z.

(** The weights at the padded positions of every row are zero. *)
Definition padded_weights_zero (kInputDimensions kOutputDimensions : nat)
           (weights : list Z) : Prop :=
  forall i j,
    i < kOutputDimensions ->
    kInputDimensions <= j < kPaddedInputDimensions kInputDimensions ->
    nth (i * kPaddedInputDimensions kInputDimensions + j) weights 0%Z = 0%Z.

(** The products at the padded positions of every row are zero. *)
Definition padding_vanishes (kInputDimensions kOutputDimensions : nat)
           (weights : list Z) (input : list byte) : Prop :=
  forall i j,
    i < kOutputDimensions ->
    kInputDimensions <= j < kPaddedInputDimensions kInputDimensions ->
    (nth (i * kPaddedInputDimensions kInputDimensions + j) weights 0
     * u8 (nth j input Byte.x00) = 0)%Z.

(** The branches that dispatch on the output dimension. *)
Definition dispatched (a : Arch) : bool :=
  match a with
  | AVX512 _ | AVX2 _ | SSSE3 => true
  | _ => false
  end.

(** The branches whose products go through a signed 16-bit intermediate
    ([maddubs] pairs, NEON [vmull_s8]/[vmlal_s8]) and so rely on input bytes
    of at most 127. *)
Definition narrow_products (a : Arch) : bool :=
  match a with
  | AVX512 false | AVX2 false | SSSE3 | NEON => true
  | _ => false
  end.

Definition input_7bit (input : list byte) : Prop :=
  Forall (fun b => (u8 b <= 127)%Z) input.

Definition sumZ (l : list Z) : Z := fold_right Z.add 0%Z l.

(** [sum over j < n of weights[offset + j] * input[j]]. *)
Definition dot (n offset : nat) (weights : list Z) (input : list byte) : Z :=
  sumZ (zipWith Z.mul (firstn n (skipn offset weights)) (epu8 (firstn n input))).

(** [bias[i] + sum over j < n of weight[i][j] * input[j]] in signed 32-bit
    arithmetic, rows of [kPaddedInputDimensions] weights. *)
Definition affine_sum (kInputDimensions : nat) (biases weights : list Z)
           (n : nat) (input : list byte) (i : nat) : Z :=
  int32 (nth i biases 0%Z
         + dot n (i * kPaddedInputDimensions kInputDimensions) weights input).

(** The documented parameter layout: biases as little-endian 32-bit values,
    then the weights row by row as single bytes. *)
Definition serialize (biases weights : list Z) : list byte :=
  flat_map (le_split 4) biases ++ flat_map (le_split 1) weights.

(** What a layer contributes to the interface beyond its operations: the
    stores of [Propagate] stay inside the [kBufferSize] bytes at [buffer]. *)
Class LayerFrame (T : Type) `{Layer T} : Prop := {
  Propagate_frame :
    forall a (t : T) features buffer mem mem' out,
      Propagate a t features buffer mem = Some (mem', out) ->
      length mem' = length mem /\
      forall p, p < buffer \/ buffer + kBufferSize T <= p ->
                nth_error mem' p = nth_error mem p
}.

(** ** Stand-ins for the collaborating layers, for the examples

    [Source n] plays the feature source: no parameters, no share of the
    buffer, its output is the feature vector itself.  [Clip Prev] plays an
    activation between two affine layers: it passes [ReadParameters] through
    and writes one byte per predecessor output, clamped to [0, 127], into
    its own share of the buffer. *)

Inductive Source (Dimensions : nat) : Type := source.

#[export] Instance Source_Layer (n : nat) : Layer (Source n) := {
  kOutputDimensions := n;
  kBufferSize := 0;
  GetHashValue := Z.lxor 0xEC42E90D (Z.of_nat n);
  ReadParameters := fun stream t => (true, stream, t);
  Propagate := fun _ _ transformed_features _ mem => Some (mem, transformed_features)
}.

Record Clip (PreviousLayer : Type) := { clip_previous_layer_ : PreviousLayer }.
Arguments clip_previous_layer_ {_} _.

Definition Clip_kSelfBufferSize (PreviousLayer : Type) `{Layer PreviousLayer} : nat :=
  CeilToMultiple (kOutputDimensions PreviousLayer) kCacheLineSize.

Definition Clip_Propagate {PreviousLayer : Type} `{Layer PreviousLayer}
           (a : Arch) (l : Clip PreviousLayer)
           (transformed_features buffer : nat) (mem : list byte)
  : option (list byte * nat) :=
  match Propagate a (clip_previous_layer_ l) transformed_features
                  (buffer + Clip_kSelfBufferSize PreviousLayer) mem with
  | None => None
  | Some (mem, input) =>
      let n := kOutputDimensions PreviousLayer in
      let values := epi32 (firstn (n * 4) (skipn input mem)) in
      Some (List.upds mem buffer
              (map (fun v => byte.of_Z (Z.max 0 (Z.min 127 (Z.shiftr v 6)))) values),
            buffer)
  end.

#[export] Instance Clip_Layer (PreviousLayer : Type) `{Layer PreviousLayer}
  : Layer (Clip PreviousLayer) := {
  kOutputDimensions := kOutputDimensions PreviousLayer;
  kBufferSize := kBufferSize PreviousLayer + Clip_kSelfBufferSize PreviousLayer;
  GetHashValue := uint32 (0x538D24C7 + GetHashValue PreviousLayer);
  ReadParameters := fun stream l =>
    let '(ok, stream, prev) := ReadParameters stream (clip_previous_layer_ l) in
    (ok, stream, {| clip_previous_layer_ := prev |});
  Propagate := Clip_Propagate
}.


(** ** Example layers *)

(** The scenario of the specification: one output over eight inputs, weights
    1 (padding 0), bias 10, input 1..8. *)
Definition scenario_layer : AffineTransform (Source 8) 1 :=
  {| previous_layer_ := source 8;
     biases_ := [10%Z];
     weights_ := repeat 1%Z 8 ++ repeat 0%Z 24 |}.

Definition scenario_input : list byte :=
  map byte.of_Z [1; 2; 3; 4; 5; 6; 7; 8]%Z ++ repeat Byte.x00 24.

(** The same input with garbage in its padding. *)
Definition scenario_input_garbage : list byte :=
  map byte.of_Z [1; 2; 3; 4; 5; 6; 7; 8]%Z ++ repeat Byte.xff 24.

(** Memory for a run: 64 bytes of buffer, then the input as the features. *)
Definition scenario_memory : list byte := repeat Byte.x00 64 ++ scenario_input.

(** A layer and an input at the top of their ranges: 32 weights of 127
    against 32 bytes of 255. *)
Definition wide_layer : AffineTransform (Source 32) 1 :=
  {| previous_layer_ := source 32;
     biases_ := [0%Z];
     weights_ := repeat 127%Z 32 |}.

Definition wide_input : list byte := repeat Byte.xff 32.

Definition wide_memory : list byte := repeat Byte.x00 64 ++ wide_input.

(** A four-output layer over thirty-two inputs. *)
Definition block_layer : AffineTransform (Source 32) 4 :=
  {| previous_layer_ := source 32;
     biases_ := [10; -20; 30; 2147483647]%Z;
     weights_ := map (fun k => Z.of_nat (k mod 256) - 128)%Z (seq 0 128) |}.

Definition block_input : list byte :=
  map (fun k => byte.of_Z (Z.of_nat ((k * 7) mod 128))) (seq 0 32).

(** A chain with an activation stand-in between the features and the layer:
    four 32-bit features, clipped to bytes, one output. *)
Definition chain_layer : AffineTransform (Clip (Source 4)) 1 :=
  {| previous_layer_ := {| clip_previous_layer_ := source 4 |};
     biases_ := [5%Z];
     weights_ := [1; 2; 3; 4]%Z ++ repeat 0%Z 28 |}.

(** 64 bytes for the layer, 64 for the stand-in, then the features. *)
Definition chain_memory : list byte :=
  repeat Byte.x00 128 ++ pack32 [640; 1280; -64; 100000]%Z.

(** A stream holding the parameters of [scenario_layer]. *)
Definition scenario_stream : istream :=
  {| pending := serialize [10%Z] (repeat 1%Z 8 ++ repeat 0%Z 24);
     eofbit := false; failbit := false; requests := [] |}.

(** A layer object before its parameters are read. *)
Definition blank_layer : AffineTransform (Source 8) 1 :=
  {| previous_layer_ := source 8;
     biases_ := [0%Z];
     weights_ := repeat 0%Z 32 |}.

(** A two-layer chain and a stream that ends inside the inner layer's block. *)
Definition blank_chain : AffineTransform (Clip (AffineTransform (Source 8) 1)) 1 :=
  {| previous_layer_ := {| clip_previous_layer_ := blank_layer |};
     biases_ := [7%Z];
     weights_ := repeat 3%Z 32 |}.

Definition short_stream : istream :=
  {| pending := [Byte.x01; Byte.x02; Byte.x03];
     eofbit := false; failbit := false; requests := [] |}.

(** The scenario's layer with weights 1 at the padded positions too, and a
    memory whose features carry garbage in their padding. *)
Definition dense_layer : AffineTransform (Source 8) 1 :=
  {| previous_layer_ := source 8;
     biases_ := [10%Z];
     weights_ := repeat 1%Z 32 |}.

Definition garbage_memory : list byte :=
  repeat Byte.x00 64 ++ scenario_input_garbage.

(** Thirty-two outputs over thirty-two inputs: an output dimension that is a
    multiple of every vector width. *)
Definition square_layer : AffineTransform (Source 32) 32 :=
  {| previous_layer_ := source 32;
     biases_ := repeat 0%Z 32;
     weights_ := repeat 1%Z 1024 |}.

(** Two 16-byte chunks: input bytes of at most 127, and weight bytes of
    either sign. *)
Definition chunk_a : reg :=
  map byte.of_Z [1; 2; 3; 4; 5; 6; 7; 8; 9; 10; 11; 12; 13; 14; 15; 127]%Z.

Definition chunk_b : reg :=
  map byte.of_Z [255; 254; 3; 4; 128; 6; 7; 8; 9; 10; 11; 12; 13; 14; 15; 127]%Z.

(** [block_layer] with every weight row but row 1 zeroed and other biases. *)
Definition block_layer_row1 : AffineTransform (Source 32) 4 :=
  {| previous_layer_ := source 32;
     biases_ := [0; -20; 7; 0]%Z;
     weights_ := map (fun k => if (32 <=? k) && (k <? 64)
                               then (Z.of_nat (k mod 256) - 128)%Z else 0%Z)
                     (seq 0 128) |}.

(** A stream holding the parameters of [scenario_layer] followed by two more
    bytes. *)
Definition longer_stream : istream :=
  {| pending := serialize [10%Z] (repeat 1%Z 8 ++ repeat 0%Z 24) ++ [Byte.xaa; Byte.xbb];
     eofbit := false; failbit := false; requests := [] |}.

(** A layer that masks the odd input positions, and the scenario's input
    changed at one of them. *)
Definition masked_layer : AffineTransform (Source 8) 1 :=
  {| previous_layer_ := source 8;
     biases_ := [10%Z];
     weights_ := [1; 0; 1; 0; 1; 0; 1; 0]%Z ++ repeat 0%Z 24 |}.

Definition masked_input : list byte :=
  map byte.of_Z [1; 200; 3; 4; 5; 6; 7; 8]%Z ++ repeat Byte.x00 24.

(** A fully loaded layer with two outputs, a dimension the dispatching
    branches do not serve. *)
Definition pair_layer : AffineTransform (Source 8) 2 :=
  {| previous_layer_ := source 8;
     biases_ := [1; 2]%Z;
     weights_ := repeat 1%Z 64 |}.

(** A stream that ends after the bias and the first weight. *)
Definition cut_stream : istream :=
  {| pending := [Byte.x0a; Byte.x00; Byte.x00; Byte.x00; Byte.xff];
     eofbit := false; failbit := false; requests := [] |}.
(** ** Auxiliary definitions of the proofs *)

(** The dot product of an input chunk with a weight chunk, both as bytes. *)
Definition dotb (a b : list byte) : Z := sumZ (zipWith Z.mul (epu8 a) (epi8 b)).

(** A multiply-accumulate step on registers of [width] bytes: the lanes of the
    accumulator grow, in total and modulo 2^32, by the dot product of the two
    chunks, for the chunks [cond] admits. *)
Definition accumulates (cond : list byte -> Prop) (width : nat)
           (step : reg -> reg -> reg -> reg) : Prop :=
  forall acc a b,
    length acc = width -> length a = width -> length b = width -> cond a ->
    length (step acc a b) = width /\
    uint32 (sumZ (lanes32 (step acc a b))) = uint32 (sumZ (lanes32 acc) + dotb a b).

(** The four sums of a blocked path, each with its bias lane. *)
Definition sums4 (sum0 sum1 sum2 sum3 bias : reg) : list Z :=
  zipWith (fun s b => int32 (s + b))
          [sumZ (lanes32 sum0); sumZ (lanes32 sum1);
           sumZ (lanes32 sum2); sumZ (lanes32 sum3)]
          (lanes32 bias).

(** The 512-bit shuffles read lane by lane. *)
Module Lane.
Definition add (xs ys : list Z) : list Z := zipWith Z.add (map uint32 xs) (map uint32 ys).
Definition pick (w k : nat) (xs : list Z) : list Z := firstn w (skipn (k * w) xs).
Definition unpacklo_epi32 (xs ys : list Z) : list Z :=
  pick 1 0 xs ++ pick 1 0 ys ++ pick 1 1 xs ++ pick 1 1 ys.
Definition unpackhi_epi32 (xs ys : list Z) : list Z :=
  pick 1 2 xs ++ pick 1 2 ys ++ pick 1 3 xs ++ pick 1 3 ys.
Definition unpacklo_epi64 (xs ys : list Z) : list Z := pick 2 0 xs ++ pick 2 0 ys.
Definition unpackhi_epi64 (xs ys : list Z) : list Z := pick 2 1 xs ++ pick 2 1 ys.
Fixpoint per_lane128 (n : nat) (f : list Z -> list Z -> list Z) (xs ys : list Z) : list Z :=
  match n with
  | O => []
  | S n' => f (firstn 4 xs) (firstn 4 ys) ++ per_lane128 n' f (skipn 4 xs) (skipn 4 ys)
  end.
Definition m512_haddx4 (sum0 sum1 sum2 sum3 bias : list Z) : list Z :=
  let sum01a := per_lane128 4 unpacklo_epi32 sum0 sum1 in
  let sum01b := per_lane128 4 unpackhi_epi32 sum0 sum1 in
  let sum23a := per_lane128 4 unpacklo_epi32 sum2 sum3 in
  let sum23b := per_lane128 4 unpackhi_epi32 sum2 sum3 in
  let sum01 := add sum01a sum01b in
  let sum23 := add sum23a sum23b in
  let sum0123a := per_lane128 4 unpacklo_epi64 sum01 sum23 in
  let sum0123b := per_lane128 4 unpackhi_epi64 sum01 sum23 in
  let sum := add sum0123a sum0123b in
  let sum256lo := firstn 8 sum in
  let sum256hi := pick 8 1 sum in
  let sum256lo := add sum256lo sum256hi in
  let sum128lo := firstn 4 sum256lo in
  let sum128hi := pick 4 1 sum256lo in
  add (add sum128lo sum128hi) bias.
End Lane.


(** The result of [pcmpgtb] against zero: the sign of each byte, spread. *)
Definition sign_bytes (r : reg) : reg :=
  map (fun y => if (s8 y <? 0)%Z then Byte.xff else Byte.x00) r.


(** The sum a row loop over the padded width stands for, on bytes. *)
Definition row_target (I : nat) (biases weights : list Z) (input : list byte)
           (i : nat) : Z :=
  int32 (nth i biases 0%Z
         + dotb (firstn (kPaddedInputDimensions I) input)
                (firstn (kPaddedInputDimensions I)
                        (skipn (i * kPaddedInputDimensions I) (weight_bytes weights)))).

(** The number of leading inputs a kernel's loops cover. *)
Definition summed_inputs (a : Arch) (kInputDimensions : nat) : nat :=
  match a with
  | Generic => kInputDimensions
  | _ => kPaddedInputDimensions kInputDimensions
  end.


(** A step that sees its chunks only through their products. *)
Definition products_only (step : reg -> reg -> reg -> reg) : Prop :=
  forall acc a a' b,
    zipWith Z.mul (epu8 a) (epi8 b) = zipWith Z.mul (epu8 a') (epi8 b) ->
    step acc a b = step acc a' b.


(** The stores of a kernel stay inside [output[0 .. O)]. *)
Definition stores_within (O : nat) (stores : list store) : Prop :=
  Forall (fun st : store => forall x, fst st + length (snd st x) <= O) stores.


(** An input a kernel is specified on: the padded width is there, and for the
    kernels with narrow products its bytes are at most 127. *)
Definition good_input (a : Arch) (I : nat) (x : list byte) : Prop :=
  kPaddedInputDimensions I <= length x /\
  (narrow_products a = true -> input_7bit (firstn (kPaddedInputDimensions I) x)).

(** [tiles good target start stores stop]: the stores write the outputs
    [start .. stop) in order, and on a good input the output [i] is
    [target input i]. *)
Inductive tiles (good : list byte -> Prop) (target : list byte -> nat -> Z)
  : nat -> list store -> nat -> Prop :=
| tiles_nil n : tiles good target n [] n
| tiles_cons start len f rest stop :
    (forall x, good x -> f x = map (target x) (seq start len)) ->
    tiles good target (start + len) rest stop ->
    tiles good target start ((start, f) :: rest) stop.

(** ** Further auxiliary definitions *)

(** A multiply-accumulate step whose effect on the total of the accumulator's
    lanes is [d] of the two chunks, modulo 2^32. *)
Definition accumulates_by (d : list byte -> list byte -> Z) (width : nat)
           (step : reg -> reg -> reg -> reg) : Prop :=
  forall acc a b,
    length acc = width -> length a = width -> length b = width ->
    length (step acc a b) = width /\
    uint32 (sumZ (lanes32 (step acc a b))) = uint32 (sumZ (lanes32 acc) + d a b).

(** The dot product [pmaddubsw] yields: adjacent products added with signed
    saturation to 16 bits, then summed. *)
Definition satdot (a b : list byte) : Z :=
  sumZ (map saturate16 (pairsum (zipWith Z.mul (epu8 a) (epi8 b)))).

(** The dot product with both chunks read as signed bytes. *)
Definition dots (a b : list byte) : Z := sumZ (zipWith Z.mul (epi8 a) (epi8 b)).

(** [bias[i] + sum over k < kPaddedInputDimensions / 2 of
    saturate16 (weight[i][2k] * input[2k] + weight[i][2k+1] * input[2k+1])]
    in signed 32-bit arithmetic, the input read as unsigned bytes. *)
Definition saturating_sum (kInputDimensions : nat) (biases weights : list Z)
           (input : list byte) (i : nat) : Z :=
  let P := kPaddedInputDimensions kInputDimensions in
  int32 (nth i biases 0%Z
         + sumZ (map saturate16
                     (pairsum (zipWith Z.mul (firstn P (skipn (i * P) weights))
                                       (epu8 (firstn P input)))))).

(** [bias[i] + sum over j < kPaddedInputDimensions of weight[i][j] * input[j]]
    in signed 32-bit arithmetic, the input read as signed bytes. *)
Definition signed_sum (kInputDimensions : nat) (biases weights : list Z)
           (input : list byte) (i : nat) : Z :=
  let P := kPaddedInputDimensions kInputDimensions in
  int32 (nth i biases 0%Z
         + sumZ (zipWith Z.mul (firstn P (skipn (i * P) weights))
                         (epi8 (firstn P input)))).

(** Bytes whose signed value is not the minimum, -128. *)
Definition above_min (r : list byte) : Prop := Forall (fun y => (-127 <= s8 y)%Z) r.

(** No pair of adjacent products of row [i] overflows 16 bits. *)
Definition pairs_fit (kInputDimensions : nat) (weights : list Z)
           (input : list byte) (i : nat) : Prop :=
  let P := kPaddedInputDimensions kInputDimensions in
  Forall (fun s => -32768 <= s <= 32767)%Z
         (pairsum (zipWith Z.mul (firstn P (skipn (i * P) weights))
                           (epu8 (firstn P input)))).
(** * Properties *)

(** ** Loops *)

Lemma for_S {S : Type} (n : nat) (body : nat -> S -> S) (init : S) :
  for_ (Datatypes.S n) body init = body n (for_ n body init).
Proof.
  unfold for_. rewrite seq_S, fold_left_app. reflexivity.
Qed.

Lemma for_0 {S : Type} (body : nat -> S -> S) (init : S) : for_ 0 body init = init.
Proof. reflexivity. Qed.

(** The loop-invariant rule. *)
Lemma for_invariant {S : Type} (Inv : nat -> S -> Prop) n body (init : S) :
  Inv 0 init ->
  (forall i st, i < n -> Inv i st -> Inv (Datatypes.S i) (body i st)) ->
  Inv n (for_ n body init).
Proof.
  intros H0 Hstep. induction n as [|n IH]; [exact H0|].
  rewrite for_S. apply Hstep; [lia|]. apply IH. intros; apply Hstep; auto; lia.
Qed.

Lemma for_ext {S : Type} n (body1 body2 : nat -> S -> S) init :
  (forall i st, i < n -> body1 i st = body2 i st) ->
  for_ n body1 init = for_ n body2 init.
Proof.
  intros Heq. induction n as [|n IH]; [reflexivity|].
  rewrite !for_S, IH by (intros; apply Heq; lia). apply Heq; lia.
Qed.

(** ** Fixed-width arithmetic *)

Section Wrap.
Local Open Scope Z_scope.

Lemma swrap_mod bits z : 0 < bits -> swrap bits z mod 2 ^ bits = z mod 2 ^ bits.
Proof.
  intros Hb. unfold swrap.
  assert (Hp : 0 < 2 ^ bits) by (apply Z.pow_pos_nonneg; lia).
  rewrite Zminus_mod_idemp_l. f_equal. lia.
Qed.

Lemma swrap_range bits z :
  0 < bits -> - 2 ^ (bits - 1) <= swrap bits z < 2 ^ (bits - 1).
Proof.
  intros Hb. unfold swrap.
  assert (H2 : 2 ^ bits = 2 * 2 ^ (bits - 1)).
  { rewrite <- Z.pow_succ_r by lia. f_equal; lia. }
  assert (Hp : 0 < 2 ^ (bits - 1)) by (apply Z.pow_pos_nonneg; lia).
  pose proof (Z.mod_pos_bound (z + 2 ^ (bits - 1)) (2 ^ bits) ltac:(lia)). lia.
Qed.

Lemma swrap_small bits z :
  0 < bits -> - 2 ^ (bits - 1) <= z < 2 ^ (bits - 1) -> swrap bits z = z.
Proof.
  intros Hb Hz. unfold swrap.
  assert (H2 : 2 ^ bits = 2 * 2 ^ (bits - 1)).
  { rewrite <- Z.pow_succ_r by lia. f_equal; lia. }
  rewrite Z.mod_small by lia. lia.
Qed.

Lemma swrap_eqm bits a b :
  a mod 2 ^ bits = b mod 2 ^ bits -> swrap bits a = swrap bits b.
Proof.
  intros Hab. unfold swrap. f_equal.
  rewrite <- (Zplus_mod_idemp_l a), Hab, Zplus_mod_idemp_l. reflexivity.
Qed.

Lemma swrap_of_mod bits z : 0 < bits -> swrap bits (z mod 2 ^ bits) = swrap bits z.
Proof. intros. apply swrap_eqm. apply Z.mod_mod. apply Z.pow_nonzero; lia. Qed.

Lemma swrap_idem bits z : 0 < bits -> swrap bits (swrap bits z) = swrap bits z.
Proof. intros. apply swrap_eqm. apply swrap_mod; assumption. Qed.

Lemma int32_mod z : int32 z mod 2 ^ 32 = z mod 2 ^ 32.
Proof. apply swrap_mod; lia. Qed.

Lemma int32_eqm a b : a mod 2 ^ 32 = b mod 2 ^ 32 -> int32 a = int32 b.
Proof. apply swrap_eqm. Qed.

Lemma int32_uint32 z : int32 (uint32 z) = int32 z.
Proof. apply swrap_of_mod; lia. Qed.

Lemma int32_small z : is_int32 z -> int32 z = z.
Proof. intros H. apply swrap_small; [lia|]. exact H. Qed.

Lemma int32_is_int32 z : is_int32 (int32 z).
Proof. apply (swrap_range 32 z); lia. Qed.

Lemma int32_add_l a b : int32 (int32 a + b) = int32 (a + b).
Proof.
  apply int32_eqm. rewrite <- Zplus_mod_idemp_l, int32_mod, Zplus_mod_idemp_l.
  reflexivity.
Qed.

Lemma int32_add_r a b : int32 (a + int32 b) = int32 (a + b).
Proof. rewrite Z.add_comm, int32_add_l. f_equal; lia. Qed.

Lemma uint32_add_l a b : uint32 (uint32 a + b) = uint32 (a + b).
Proof. unfold uint32. apply Zplus_mod_idemp_l. Qed.

Lemma uint32_add_r a b : uint32 (a + uint32 b) = uint32 (a + b).
Proof. unfold uint32. apply Zplus_mod_idemp_r. Qed.

Lemma uint32_idem a : uint32 (uint32 a) = uint32 a.
Proof. unfold uint32. apply Z.mod_mod. lia. Qed.

Lemma uint32_int32 z : uint32 (int32 z) = uint32 z.
Proof. apply int32_mod. Qed.

Lemma int16_small z : - 32768 <= z <= 32767 -> int16 z = z.
Proof. intros H. apply swrap_small; [lia|]. simpl; lia. Qed.

Lemma int16_of_mod z : int16 (z mod 2 ^ 16) = int16 z.
Proof. apply swrap_of_mod; lia. Qed.

Lemma s8_range b : -128 <= s8 b <= 127.
Proof.
  unfold s8, int8. pose proof (swrap_range 8 (byte.unsigned b) ltac:(lia)).
  simpl in *; lia.
Qed.

Lemma u8_range b : 0 <= u8 b <= 255.
Proof. unfold u8. pose proof (byte.unsigned_range b). lia. Qed.

Lemma s8_of_Z w : is_int8 w -> s8 (byte.of_Z w) = w.
Proof.
  intros Hw. unfold s8, int8. rewrite byte.unsigned_of_Z. unfold byte.wrap.
  rewrite swrap_of_mod by lia. apply swrap_small; [lia|].
  unfold is_int8 in Hw. simpl; lia.
Qed.

Lemma s8_u8_7bit b : u8 b <= 127 -> s8 b = u8 b.
Proof.
  intros H. unfold s8, int8, u8 in *. apply swrap_small; [lia|].
  pose proof (byte.unsigned_range b). simpl; lia.
Qed.
End Wrap.

(** ** Registers as packed lanes *)

Lemma length_pack32 xs : length (pack32 xs) = 4 * length xs.
Proof.
  induction xs as [|x xs IH]; [reflexivity|].
  unfold pack32 in *. cbn [flat_map]. rewrite length_app, length_le_split, IH.
  cbn [length]. lia.
Qed.

Lemma length_pack16 xs : length (pack16 xs) = 2 * length xs.
Proof.
  induction xs as [|x xs IH]; [reflexivity|].
  unfold pack16 in *. cbn [flat_map]. rewrite length_app, length_le_split, IH.
  cbn [length]. lia.
Qed.

Lemma pack32_app xs ys : pack32 (xs ++ ys) = pack32 xs ++ pack32 ys.
Proof. apply flat_map_app. Qed.

Lemma pack32_cons x xs : pack32 (x :: xs) = le_split 4 x ++ pack32 xs.
Proof. reflexivity. Qed.

Lemma pack16_cons x xs : pack16 (x :: xs) = le_split 2 x ++ pack16 xs.
Proof. reflexivity. Qed.

Lemma lanes32_app4 b0 b1 b2 b3 r :
  lanes32 ([b0; b1; b2; b3] ++ r) = le_combine [b0; b1; b2; b3] :: lanes32 r.
Proof. reflexivity. Qed.

Lemma le_split_4 x : exists b0 b1 b2 b3, le_split 4 x = [b0; b1; b2; b3].
Proof. cbn [le_split]. do 4 eexists. reflexivity. Qed.

Lemma le_split_2 x : exists b0 b1, le_split 2 x = [b0; b1].
Proof. cbn [le_split]. do 2 eexists. reflexivity. Qed.

Lemma lanes32_pack32 xs : lanes32 (pack32 xs) = map uint32 xs.
Proof.
  induction xs as [|x xs IH]; [reflexivity|].
  rewrite pack32_cons. destruct (le_split_4 x) as (b0 & b1 & b2 & b3 & Hx).
  rewrite Hx, lanes32_app4, IH, <- Hx, le_combine_split. reflexivity.
Qed.

Lemma lanes16_pack16 xs : lanes16 (pack16 xs) = map (fun x => x mod 2 ^ 16)%Z xs.
Proof.
  induction xs as [|x xs IH]; [reflexivity|].
  rewrite pack16_cons. destruct (le_split_2 x) as (b0 & b1 & Hx).
  rewrite Hx. cbn [app lanes16]. rewrite IH, <- Hx, le_combine_split. reflexivity.
Qed.

Lemma pack32_lanes32 n : forall r, length r = 4 * n -> pack32 (lanes32 r) = r.
Proof.
  induction n as [|n IH]; intros r Hr.
  - destruct r; [reflexivity|discriminate].
  - destruct r as [|b0 [|b1 [|b2 [|b3 r]]]]; try (cbn in Hr; lia).
    cbn [lanes32]. rewrite pack32_cons, IH by (cbn in Hr; lia).
    change 4 with (length [b0; b1; b2; b3]) at 1.
    rewrite split_le_combine. reflexivity.
Qed.

Lemma length_lanes32 n : forall r, length r = 4 * n -> length (lanes32 r) = n.
Proof.
  induction n as [|n IH]; intros r Hr.
  - destruct r; [reflexivity|discriminate].
  - destruct r as [|b0 [|b1 [|b2 [|b3 r]]]]; try (cbn in Hr; lia).
    cbn [lanes32 length]. rewrite IH by (cbn in Hr; lia). reflexivity.
Qed.

Lemma firstn_pack32 k : forall xs, firstn (4 * k) (pack32 xs) = pack32 (firstn k xs).
Proof.
  induction k as [|k IH]; intros xs; [reflexivity|].
  destruct xs as [|x xs]; [rewrite firstn_nil; reflexivity|].
  cbn [firstn]. rewrite !pack32_cons.
  replace (4 * S k) with (length (le_split 4 x) + 4 * k)
    by (rewrite length_le_split; lia).
  rewrite firstn_app_2, IH. reflexivity.
Qed.

Lemma skipn_pack32 k : forall xs, skipn (4 * k) (pack32 xs) = pack32 (skipn k xs).
Proof.
  induction k as [|k IH]; intros xs; [reflexivity|].
  destruct xs as [|x xs]; [rewrite skipn_nil; reflexivity|].
  cbn [skipn]. rewrite !pack32_cons.
  replace (4 * S k) with (length (le_split 4 x) + 4 * k)
    by (rewrite length_le_split; lia).
  rewrite skipn_app, skipn_all2 by (rewrite length_le_split; lia).
  rewrite length_le_split. replace (4 + 4 * k - 4) with (4 * k) by lia.
  rewrite IH. reflexivity.
Qed.

Lemma slice_pack32 w k xs :
  slice (4 * w) k (pack32 xs) = pack32 (firstn w (skipn (k * w) xs)).
Proof.
  unfold slice. replace (k * (4 * w)) with (4 * (k * w)) by lia.
  rewrite skipn_pack32, firstn_pack32. reflexivity.
Qed.

Lemma setzero_pack32 n : setzero (4 * n) = pack32 (repeat 0%Z n).
Proof.
  unfold setzero. induction n as [|n IH]; [reflexivity|].
  replace (4 * S n) with (4 + 4 * n) by lia.
  rewrite repeat_app. cbn [repeat]. rewrite pack32_cons, <- IH. reflexivity.
Qed.

(** ** Sums *)

Lemma sumZ_app a b : sumZ (a ++ b) = (sumZ a + sumZ b)%Z.
Proof. unfold sumZ. induction a as [|x a IH]; cbn [app fold_right]; lia. Qed.

Lemma sumZ_repeat0 n : sumZ (repeat 0%Z n) = 0%Z.
Proof. induction n as [|n IH]; [reflexivity|]. cbn. exact IH. Qed.

Lemma sumZ_map_uint32 xs : uint32 (sumZ (map uint32 xs)) = uint32 (sumZ xs).
Proof.
  induction xs as [|x xs IH]; [reflexivity|].
  cbn [map sumZ fold_right]. fold (sumZ (map uint32 xs)). fold (sumZ xs).
  rewrite uint32_add_l, <- uint32_add_r, IH, uint32_add_r. reflexivity.
Qed.

Lemma sumZ_zipWith_add : forall xs ys,
  length xs = length ys ->
  sumZ (zipWith Z.add xs ys) = (sumZ xs + sumZ ys)%Z.
Proof.
  induction xs as [|x xs IH]; intros [|y ys] Hl; try discriminate; [reflexivity|].
  unfold zipWith in *. cbn [combine map sumZ fold_right fst snd].
  fold (sumZ xs). fold (sumZ ys).
  fold (sumZ (map (fun p => (fst p + snd p)%Z) (combine xs ys))).
  rewrite IH by (cbn in Hl; lia). lia.
Qed.

Lemma zipWith_length {A B C} (f : A -> B -> C) a b :
  length (zipWith f a b) = Nat.min (length a) (length b).
Proof. unfold zipWith. rewrite length_map, length_combine. reflexivity. Qed.

Lemma zipWith_app {A B C} (f : A -> B -> C) a1 a2 b1 b2 :
  length a1 = length b1 ->
  zipWith f (a1 ++ a2) (b1 ++ b2) = zipWith f a1 b1 ++ zipWith f a2 b2.
Proof.
  intros Hl. unfold zipWith. rewrite List.combine_app by exact Hl. apply map_app.
Qed.

Lemma sumZ_quadsum n : forall l, length l = 4 * n -> sumZ (quadsum l) = sumZ l.
Proof.
  induction n as [|n IH]; intros l Hl.
  - destruct l; [reflexivity|discriminate].
  - destruct l as [|x0 [|x1 [|x2 [|x3 l]]]]; try (cbn in Hl; lia).
    cbn [quadsum sumZ fold_right]. fold (sumZ (quadsum l)). fold (sumZ l).
    rewrite IH by (cbn in Hl; lia). lia.
Qed.

Lemma length_quadsum n : forall l, length l = 4 * n -> length (quadsum l) = n.
Proof.
  induction n as [|n IH]; intros l Hl.
  - destruct l; [reflexivity|discriminate].
  - destruct l as [|x0 [|x1 [|x2 [|x3 l]]]]; try (cbn in Hl; lia).
    cbn [quadsum length]. rewrite IH by (cbn in Hl; lia). reflexivity.
Qed.

Lemma length_pairsum n : forall l, length l = 2 * n -> length (pairsum l) = n.
Proof.
  induction n as [|n IH]; intros l Hl.
  - destruct l; [reflexivity|discriminate].
  - destruct l as [|x0 [|x1 l]]; try (cbn in Hl; lia).
    cbn [pairsum length]. rewrite IH by (cbn in Hl; lia). reflexivity.
Qed.

Lemma sumZ_pairsum n : forall l, length l = 2 * n -> sumZ (pairsum l) = sumZ l.
Proof.
  induction n as [|n IH]; intros l Hl.
  - destruct l; [reflexivity|discriminate].
  - destruct l as [|x0 [|x1 l]]; try (cbn in Hl; lia).
    cbn [pairsum sumZ fold_right]. fold (sumZ (pairsum l)). fold (sumZ l).
    rewrite IH by (cbn in Hl; lia). lia.
Qed.

Lemma pairsum_pairsum n : forall l, length l = 4 * n -> pairsum (pairsum l) = quadsum l.
Proof.
  induction n as [|n IH]; intros l Hl.
  - destruct l; [reflexivity|discriminate].
  - destruct l as [|x0 [|x1 [|x2 [|x3 l]]]]; try (cbn in Hl; lia).
    cbn [quadsum pairsum]. rewrite IH by (cbn in Hl; lia). f_equal. lia.
Qed.
(** ** The multiply-accumulate steps *)

Lemma add_epi32_lanes a b :
  lanes32 (add_epi32 a b) = map uint32 (zipWith Z.add (lanes32 a) (lanes32 b)).
Proof. unfold add_epi32. apply lanes32_pack32. Qed.

Lemma add_epi32_length n a b :
  length a = 4 * n -> length b = 4 * n -> length (add_epi32 a b) = 4 * n.
Proof.
  intros Ha Hb. unfold add_epi32.
  rewrite length_pack32, zipWith_length, (length_lanes32 n a Ha), (length_lanes32 n b Hb).
  lia.
Qed.

Lemma add_epi32_sum n a b :
  length a = 4 * n -> length b = 4 * n ->
  uint32 (sumZ (lanes32 (add_epi32 a b)))
  = uint32 (sumZ (lanes32 a) + sumZ (lanes32 b)).
Proof.
  intros Ha Hb. rewrite add_epi32_lanes, sumZ_map_uint32, sumZ_zipWith_add.
  - reflexivity.
  - rewrite (length_lanes32 n a Ha), (length_lanes32 n b Hb). reflexivity.
Qed.

Lemma length_products a b :
  length a = length b -> length (zipWith Z.mul (epu8 a) (epi8 b)) = length a.
Proof.
  intros H. unfold epu8, epi8. rewrite zipWith_length, !length_map. lia.
Qed.

Lemma dpbusd_accumulates n : accumulates (fun _ => True) (4 * n) dpbusd_epi32.
Proof.
  intros acc a b Hacc Ha Hb _. unfold dpbusd_epi32.
  assert (Hq : length (quadsum (zipWith Z.mul (epu8 a) (epi8 b))) = n).
  { apply length_quadsum. rewrite length_products; lia. }
  split.
  - rewrite length_pack32, zipWith_length, (length_lanes32 n acc Hacc), Hq. lia.
  - rewrite lanes32_pack32, sumZ_map_uint32, sumZ_zipWith_add
      by (rewrite (length_lanes32 n acc Hacc), Hq; reflexivity).
    rewrite (sumZ_quadsum n) by (rewrite length_products; lia). reflexivity.
Qed.

Lemma pairsum_bound lo hi : forall l,
  Forall (fun x => lo <= x <= hi)%Z l ->
  Forall (fun x => 2 * lo <= x <= 2 * hi)%Z (pairsum l).
Proof.
  fix IH 1. intros [|x [|y l]] Hl; cbn [pairsum]; try constructor.
  - inversion Hl as [|? ? Hx Hl']; subst. inversion Hl' as [|? ? Hy Hl'']; subst. lia.
  - apply IH. inversion Hl as [|? ? Hx Hl']; subst.
    inversion Hl' as [|? ? Hy Hl'']; subst. exact Hl''.
Qed.

Lemma products_7bit : forall a b,
  input_7bit a ->
  Forall (fun x => -16256 <= x <= 16256)%Z (zipWith Z.mul (epu8 a) (epi8 b)).
Proof.
  induction a as [|x a IH]; intros [|y b] Ha; try constructor.
  - inversion Ha as [|? ? Hx Ha']; subst. cbn [fst snd].
    pose proof (u8_range x). pose proof (s8_range y). nia.
  - apply IH. inversion Ha; assumption.
Qed.

Lemma map_int16_id l :
  Forall (fun x => -32768 <= x <= 32767)%Z l ->
  map int16 (map (fun x => x mod 2 ^ 16)%Z (map saturate16 l)) = l.
Proof.
  intros H. induction H as [|x l Hx _ IH]; [reflexivity|].
  cbn [map]. rewrite IH. f_equal.
  rewrite int16_of_mod. unfold saturate16.
  rewrite Z.min_r, Z.max_r by lia. apply int16_small. lia.
Qed.

Lemma zipWith_mul_ones : forall l n,
  length l = n -> zipWith Z.mul l (repeat 1%Z n) = l.
Proof.
  induction l as [|x l IH]; intros n Hn; subst n; [reflexivity|].
  cbn [length repeat]. unfold zipWith in *. cbn [combine map fst snd].
  rewrite IH by reflexivity. f_equal. lia.
Qed.

Lemma maddubs_madd_ones n ones a b :
  epi16 ones = repeat 1%Z (2 * n) ->
  length a = 4 * n -> length b = 4 * n -> input_7bit a ->
  madd_epi16 (maddubs_epi16 a b) ones
  = pack32 (quadsum (zipWith Z.mul (epu8 a) (epi8 b))).
Proof.
  intros Hones Ha Hb H7. unfold madd_epi16, maddubs_epi16.
  rewrite Hones. unfold epi16 at 1. rewrite lanes16_pack16.
  rewrite map_int16_id.
  - rewrite zipWith_mul_ones
      by (apply length_pairsum; rewrite length_products; lia).
    rewrite (pairsum_pairsum n) by (rewrite length_products; lia). reflexivity.
  - eapply Forall_impl; [|apply pairsum_bound, products_7bit; exact H7].
    cbv beta. intros; lia.
Qed.

Lemma maddubs_accumulates n ones :
  epi16 ones = repeat 1%Z (2 * n) ->
  accumulates input_7bit (4 * n)
    (fun acc a b => add_epi32 acc (madd_epi16 (maddubs_epi16 a b) ones)).
Proof.
  intros Hones acc a b Hacc Ha Hb H7. cbv beta.
  rewrite (maddubs_madd_ones n ones a b Hones Ha Hb H7).
  assert (Hq : length (quadsum (zipWith Z.mul (epu8 a) (epi8 b))) = n).
  { apply length_quadsum. rewrite length_products; lia. }
  split.
  - apply add_epi32_length; [exact Hacc|]. rewrite length_pack32, Hq. reflexivity.
  - rewrite (add_epi32_sum n) by (rewrite ?length_pack32, ?Hq; lia).
    rewrite lanes32_pack32, <- uint32_add_r, sumZ_map_uint32, uint32_add_r.
    rewrite (sumZ_quadsum n) by (rewrite length_products; lia). reflexivity.
Qed.

Lemma m128_accumulates : accumulates input_7bit 16 m128_add_dpbusd_epi32.
Proof. apply (maddubs_accumulates 4 kOnes128). vm_compute; reflexivity. Qed.

Lemma m256_accumulates v :
  accumulates (fun a => v = false -> input_7bit a) 32 (m256_add_dpbusd_epi32 v).
Proof.
  destruct v; intros acc a b Hacc Ha Hb H7.
  - apply (dpbusd_accumulates 8); auto.
  - apply (maddubs_accumulates 8 kOnes256); auto.
Qed.

Lemma m512_accumulates v :
  accumulates (fun a => v = false -> input_7bit a) 64 (m512_add_dpbusd_epi32 v).
Proof.
  destruct v; intros acc a b Hacc Ha Hb H7.
  - apply (dpbusd_accumulates 16); auto.
  - apply (maddubs_accumulates 16 kOnes512); auto.
Qed.
(** ** Walking a vector in chunks *)

Lemma slice_length {A} w j (l : list A) :
  (j + 1) * w <= length l -> length (firstn w (skipn (j * w) l)) = w.
Proof. intros H. rewrite length_firstn, length_skipn. lia. Qed.

Lemma firstn_succ_slice w n (l : list byte) :
  firstn (S n * w) l = firstn (n * w) l ++ slice w n l.
Proof.
  unfold slice. rewrite firstn_skipn_comm.
  rewrite <- (firstn_skipn (n * w) (firstn (S n * w) l)) at 1.
  rewrite firstn_firstn. f_equal.
  - f_equal. lia.
  - f_equal. f_equal. lia.
Qed.

Lemma dotb_app a1 a2 b1 b2 :
  length a1 = length b1 ->
  dotb (a1 ++ a2) (b1 ++ b2) = (dotb a1 b1 + dotb a2 b2)%Z.
Proof.
  intros Hl. unfold dotb, epu8, epi8. rewrite !map_app.
  rewrite zipWith_app by (rewrite !length_map; exact Hl). apply sumZ_app.
Qed.

Lemma Forall_skipn {A} (P : A -> Prop) n (l : list A) :
  Forall P l -> Forall P (skipn n l).
Proof.
  intros H. rewrite <- (firstn_skipn n l) in H.
  apply Forall_app in H. apply H.
Qed.

Lemma Forall_slice {A} (P : A -> Prop) w j (l : list A) :
  Forall P l -> Forall P (firstn w (skipn (j * w) l)).
Proof. intros H. apply List.Forall_firstn, Forall_skipn, H. Qed.

Lemma dot_row_sum cond w m step n input row :
  accumulates cond w step -> w = 4 * m ->
  (forall j, j < n -> cond (vload w input j)) ->
  n * w <= length input -> n * w <= length row ->
  length (dot_row step w n input row) = w /\
  uint32 (sumZ (lanes32 (dot_row step w n input row)))
  = uint32 (dotb (firstn (n * w) input) (firstn (n * w) row)).
Proof.
  intros Hstep Hw Hcond. unfold dot_row.
  induction n as [|n IH]; intros Hin Hrow.
  - rewrite for_0. split; [apply repeat_length|].
    subst w. rewrite setzero_pack32, lanes32_pack32, sumZ_map_uint32, sumZ_repeat0.
    reflexivity.
  - rewrite for_S.
    destruct IH as [IHlen IHsum]; [intros; apply Hcond; lia|lia|lia|].
    assert (Ha : length (vload w input n) = w) by (apply slice_length; lia).
    assert (Hb : length (vload w row n) = w) by (apply slice_length; lia).
    destruct (Hstep _ _ _ IHlen Ha Hb (Hcond n ltac:(lia))) as [Hlen Hsum].
    split; [exact Hlen|].
    rewrite Hsum, !firstn_succ_slice, dotb_app
      by (rewrite !length_firstn; lia).
    rewrite <- uint32_add_l, IHsum, uint32_add_l. reflexivity.
Qed.

Lemma dot_rows4_rows step w n input row0 row1 row2 row3 :
  dot_rows4 step w n input row0 row1 row2 row3
  = (dot_row step w n input row0, dot_row step w n input row1,
     dot_row step w n input row2, dot_row step w n input row3).
Proof.
  unfold dot_rows4, dot_row. induction n as [|n IH]; [reflexivity|].
  rewrite !for_S, IH. reflexivity.
Qed.

Lemma slice_firstn w j n (x : list byte) :
  (j + 1) * w <= n -> slice w j (firstn n x) = slice w j x.
Proof.
  intros Hj. unfold slice. rewrite skipn_firstn_comm, firstn_firstn.
  f_equal. lia.
Qed.

Lemma input_7bit_chunk w j n (x : list byte) :
  input_7bit (firstn n x) -> (j + 1) * w <= n -> input_7bit (vload w x j).
Proof.
  intros H7 Hj. unfold vload. rewrite <- (slice_firstn w j n) by exact Hj.
  apply Forall_slice, H7.
Qed.

Lemma chunk_within w n j : j < n / w -> (j + 1) * w <= n.
Proof. intros Hj. pose proof (Nat.Div0.mul_div_le n w). nia. Qed.
(** ** Horizontal sums *)

Lemma reg_as_pack32 n r :
  length r = 4 * n -> exists xs, r = pack32 xs /\ length xs = n.
Proof.
  intros Hr. exists (lanes32 r). split.
  - symmetry. apply (pack32_lanes32 n). exact Hr.
  - apply length_lanes32. exact Hr.
Qed.

Lemma firstn16_pack32 xs : firstn 16 (pack32 xs) = pack32 (firstn 4 xs).
Proof. apply (firstn_pack32 4). Qed.
Lemma skipn16_pack32 xs : skipn 16 (pack32 xs) = pack32 (skipn 4 xs).
Proof. apply (skipn_pack32 4). Qed.
Lemma firstn32_pack32 xs : firstn 32 (pack32 xs) = pack32 (firstn 8 xs).
Proof. apply (firstn_pack32 8). Qed.
Lemma slice4_pack32 k xs : slice 4 k (pack32 xs) = pack32 (firstn 1 (skipn (k * 1) xs)).
Proof. apply (slice_pack32 1). Qed.
Lemma slice8_pack32 k xs : slice 8 k (pack32 xs) = pack32 (firstn 2 (skipn (k * 2) xs)).
Proof. apply (slice_pack32 2). Qed.
Lemma slice16_pack32 k xs : slice 16 k (pack32 xs) = pack32 (firstn 4 (skipn (k * 4) xs)).
Proof. apply (slice_pack32 4). Qed.
Lemma slice32_pack32 k xs : slice 32 k (pack32 xs) = pack32 (firstn 8 (skipn (k * 8) xs)).
Proof. apply (slice_pack32 8). Qed.

Lemma add_epi32_pack32 xs ys :
  add_epi32 (pack32 xs) (pack32 ys)
  = pack32 (zipWith Z.add (map uint32 xs) (map uint32 ys)).
Proof. unfold add_epi32. rewrite !lanes32_pack32. reflexivity. Qed.

Lemma hadd_epi32_pack32 xs ys :
  _mm_hadd_epi32 (pack32 xs) (pack32 ys)
  = pack32 (pairsum (map uint32 xs) ++ pairsum (map uint32 ys)).
Proof. unfold _mm_hadd_epi32. rewrite !lanes32_pack32. reflexivity. Qed.

Lemma cvtsi128_si32_pack32 x xs : _mm_cvtsi128_si32 (pack32 (x :: xs)) = int32 x.
Proof.
  unfold _mm_cvtsi128_si32. rewrite lanes32_pack32. cbn [map nth].
  apply int32_uint32.
Qed.

Lemma pack32_nil_r xs : pack32 xs ++ [] = pack32 xs.
Proof. apply app_nil_r. Qed.

(** Rewrites a goal over registers given as [pack32] of explicit lanes into
    one [pack32] of explicit lanes. *)
Ltac is_explicit l :=
  lazymatch l with
  | nil => idtac
  | cons _ ?t => is_explicit t
  end.

Ltac take_drop :=
  match goal with
  | |- context [firstn ?n ?l] =>
      is_explicit l;
      let l' := eval cbn [firstn Nat.mul Nat.add] in (firstn n l) in
      change (firstn n l) with l'
  | |- context [skipn ?n ?l] =>
      is_explicit l;
      let l' := eval cbn [skipn Nat.mul Nat.add] in (skipn n l) in
      change (skipn n l) with l'
  end.

Ltac lanes :=
  repeat first
    [ rewrite add_epi32_pack32
    | rewrite hadd_epi32_pack32
    | rewrite firstn16_pack32 | rewrite skipn16_pack32 | rewrite firstn32_pack32
    | rewrite slice4_pack32 | rewrite slice8_pack32
    | rewrite slice16_pack32 | rewrite slice32_pack32
    | rewrite pack32_nil_r
    | rewrite <- pack32_app
    | take_drop
    | progress cbn [map zipWith combine pairsum app fst snd
                    flat_map select per_lane128] ].

(** Splits a list of known length into its elements. *)
Ltac explode xs H :=
  repeat (destruct xs as [|? xs]; [discriminate H|]);
  destruct xs; [clear H|discriminate H].

Ltac as_lanes r n H :=
  let xs := fresh "xs" in
  let Hr := fresh "Hr" in
  let Hl := fresh "Hl" in
  destruct (reg_as_pack32 n r H) as (xs & Hr & Hl); subst r; clear H;
  explode xs Hl.

Lemma shuffle_epi32_BADC x0 x1 x2 x3 :
  _mm_shuffle_epi32 (pack32 [x0; x1; x2; x3]) 78 = pack32 [x2; x3; x0; x1].
Proof.
  unfold _mm_shuffle_epi32. change (imm2 78 0) with 2. change (imm2 78 1) with 3.
  change (imm2 78 2) with 0. change (imm2 78 3) with 1. lanes. reflexivity.
Qed.

Lemma shuffle_epi32_CDAB x0 x1 x2 x3 :
  _mm_shuffle_epi32 (pack32 [x0; x1; x2; x3]) 177 = pack32 [x1; x0; x3; x2].
Proof.
  unfold _mm_shuffle_epi32. change (imm2 177 0) with 1. change (imm2 177 1) with 0.
  change (imm2 177 2) with 3. change (imm2 177 3) with 2. lanes. reflexivity.
Qed.

Ltac mod32 := apply int32_eqm; unfold uint32; cbn [sumZ fold_right]; Z.mod_equality.

Lemma m128_hadd_sum sum bias :
  length sum = 16 -> m128_hadd sum bias = int32 (sumZ (lanes32 sum) + bias).
Proof.
  intros H. as_lanes sum 4 H. unfold m128_hadd.
  rewrite shuffle_epi32_BADC. lanes. rewrite shuffle_epi32_CDAB. lanes.
  rewrite cvtsi128_si32_pack32, lanes32_pack32, int32_add_l. cbn [map].
  mod32.
Qed.

Lemma m256_hadd_sum sum bias :
  length sum = 32 -> m256_hadd sum bias = int32 (sumZ (lanes32 sum) + bias).
Proof.
  intros H. as_lanes sum 8 H. unfold m256_hadd.
  unfold _mm256_castsi256_si128, _mm256_extracti128_si256, _MM_PERM_BADC, _MM_PERM_CDAB.
  lanes. rewrite shuffle_epi32_BADC. lanes. rewrite shuffle_epi32_CDAB. lanes.
  rewrite cvtsi128_si32_pack32, lanes32_pack32, int32_add_l. cbn [map].
  mod32.
Qed.

Lemma fold_left_add_sumZ l z : fold_left Z.add l z = (z + sumZ l)%Z.
Proof.
  revert z. induction l as [|x l IH]; intros z; cbn [fold_left sumZ fold_right].
  - lia.
  - rewrite IH. fold (sumZ l). lia.
Qed.

Lemma sumZ_map_int32 xs : uint32 (sumZ (map int32 xs)) = uint32 (sumZ xs).
Proof.
  induction xs as [|x xs IH]; [reflexivity|].
  cbn [map sumZ fold_right]. fold (sumZ (map int32 xs)). fold (sumZ xs).
  rewrite <- uint32_add_l, uint32_int32, uint32_add_l.
  rewrite <- uint32_add_r, IH, uint32_add_r. reflexivity.
Qed.

Lemma m512_hadd_sum sum bias :
  m512_hadd sum bias = int32 (sumZ (lanes32 sum) + bias).
Proof.
  unfold m512_hadd, _mm512_reduce_add_epi32, epi32.
  rewrite int32_add_l, fold_left_add_sumZ. apply int32_eqm.
  fold (uint32 (0 + sumZ (map int32 (lanes32 sum)) + bias)).
  fold (uint32 (sumZ (lanes32 sum) + bias)).
  rewrite <- (uint32_add_l (sumZ (lanes32 sum))), <- sumZ_map_int32, uint32_add_l.
  f_equal; lia.
Qed.

Ltac haddx4_finish :=
  unfold sums4, epi32; rewrite !lanes32_pack32;
  cbn [map zipWith combine fst snd];
  repeat (apply (f_equal2 (@cons Z)); [rewrite int32_uint32; mod32|]);
  reflexivity.

Lemma m128_haddx4_sums sum0 sum1 sum2 sum3 bias :
  length sum0 = 16 -> length sum1 = 16 -> length sum2 = 16 -> length sum3 = 16 ->
  length bias = 16 ->
  epi32 (m128_haddx4 sum0 sum1 sum2 sum3 bias) = sums4 sum0 sum1 sum2 sum3 bias.
Proof.
  intros H0 H1 H2 H3 Hb.
  as_lanes sum0 4 H0. as_lanes sum1 4 H1. as_lanes sum2 4 H2. as_lanes sum3 4 H3.
  as_lanes bias 4 Hb.
  unfold m128_haddx4. lanes. haddx4_finish.
Qed.

Lemma m256_haddx4_sums sum0 sum1 sum2 sum3 bias :
  length sum0 = 32 -> length sum1 = 32 -> length sum2 = 32 -> length sum3 = 32 ->
  length bias = 16 ->
  epi32 (m256_haddx4 sum0 sum1 sum2 sum3 bias) = sums4 sum0 sum1 sum2 sum3 bias.
Proof.
  intros H0 H1 H2 H3 Hb.
  as_lanes sum0 8 H0. as_lanes sum1 8 H1. as_lanes sum2 8 H2. as_lanes sum3 8 H3.
  as_lanes bias 4 Hb.
  unfold m256_haddx4, _mm256_hadd_epi32, _mm256_castsi256_si128,
    _mm256_extracti128_si256.
  lanes. haddx4_finish.
Qed.


Lemma slice_pack32_pick w k xs : slice (4 * w) k (pack32 xs) = pack32 (Lane.pick w k xs).
Proof. apply slice_pack32. Qed.

Lemma per_lane128_pack32 f g :
  (forall xs ys, f (pack32 xs) (pack32 ys) = pack32 (g xs ys)) ->
  forall n xs ys,
    per_lane128 n f (pack32 xs) (pack32 ys) = pack32 (Lane.per_lane128 n g xs ys).
Proof.
  intros Hfg. induction n as [|n IH]; intros xs ys; [reflexivity|].
  cbn [per_lane128 Lane.per_lane128].
  rewrite !firstn16_pack32, !skipn16_pack32, Hfg, IH, pack32_app. reflexivity.
Qed.

Lemma unpacklo_epi32_pack32 xs ys :
  _mm_unpacklo_epi32 (pack32 xs) (pack32 ys) = pack32 (Lane.unpacklo_epi32 xs ys).
Proof.
  unfold _mm_unpacklo_epi32, Lane.unpacklo_epi32.
  rewrite !(slice_pack32_pick 1), !pack32_app. reflexivity.
Qed.

Lemma unpackhi_epi32_pack32 xs ys :
  _mm_unpackhi_epi32 (pack32 xs) (pack32 ys) = pack32 (Lane.unpackhi_epi32 xs ys).
Proof.
  unfold _mm_unpackhi_epi32, Lane.unpackhi_epi32.
  rewrite !(slice_pack32_pick 1), !pack32_app. reflexivity.
Qed.

Lemma unpacklo_epi64_pack32 xs ys :
  _mm_unpacklo_epi64 (pack32 xs) (pack32 ys) = pack32 (Lane.unpacklo_epi64 xs ys).
Proof.
  unfold _mm_unpacklo_epi64, Lane.unpacklo_epi64.
  rewrite !(slice_pack32_pick 2), !pack32_app. reflexivity.
Qed.

Lemma unpackhi_epi64_pack32 xs ys :
  _mm_unpackhi_epi64 (pack32 xs) (pack32 ys) = pack32 (Lane.unpackhi_epi64 xs ys).
Proof.
  unfold _mm_unpackhi_epi64, Lane.unpackhi_epi64.
  rewrite !(slice_pack32_pick 2), !pack32_app. reflexivity.
Qed.

Lemma m512_haddx4_pack32 s0 s1 s2 s3 bias :
  m512_haddx4 (pack32 s0) (pack32 s1) (pack32 s2) (pack32 s3) (pack32 bias)
  = pack32 (Lane.m512_haddx4 s0 s1 s2 s3 bias).
Proof.
  unfold m512_haddx4, Lane.m512_haddx4, _mm512_unpacklo_epi32, _mm512_unpackhi_epi32,
    _mm512_unpacklo_epi64, _mm512_unpackhi_epi64, _mm512_castsi512_si256,
    _mm512_extracti64x4_epi64, _mm256_castsi256_si128, _mm256_extracti128_si256.
  cbv zeta.
  rewrite !(per_lane128_pack32 _ _ unpacklo_epi32_pack32).
  rewrite !(per_lane128_pack32 _ _ unpackhi_epi32_pack32).
  fold (Lane.add s0 s1).
  rewrite !add_epi32_pack32.
  change (zipWith Z.add (map uint32 ?a) (map uint32 ?b)) with (Lane.add a b).
  rewrite !(per_lane128_pack32 _ _ unpacklo_epi64_pack32).
  rewrite !(per_lane128_pack32 _ _ unpackhi_epi64_pack32).
  rewrite !add_epi32_pack32.
  rewrite firstn32_pack32, (slice_pack32_pick 8), !add_epi32_pack32.
  rewrite firstn16_pack32, (slice_pack32_pick 4), !add_epi32_pack32.
  reflexivity.
Qed.

Lemma m512_haddx4_sums sum0 sum1 sum2 sum3 bias :
  length sum0 = 64 -> length sum1 = 64 -> length sum2 = 64 -> length sum3 = 64 ->
  length bias = 16 ->
  epi32 (m512_haddx4 sum0 sum1 sum2 sum3 bias) = sums4 sum0 sum1 sum2 sum3 bias.
Proof.
  intros H0 H1 H2 H3 Hb.
  as_lanes sum0 16 H0. as_lanes sum1 16 H1. as_lanes sum2 16 H2. as_lanes sum3 16 H3.
  as_lanes bias 4 Hb.
  rewrite m512_haddx4_pack32.
  unfold sums4, epi32. rewrite !lanes32_pack32.
  cbv [Lane.m512_haddx4 Lane.add Lane.pick Lane.per_lane128 Lane.unpacklo_epi32
       Lane.unpackhi_epi32 Lane.unpacklo_epi64 Lane.unpackhi_epi64
       firstn skipn app map zipWith combine fst snd Nat.mul Nat.add].
  repeat (apply (f_equal2 (@cons Z)); [rewrite int32_uint32; mod32|]);
  reflexivity.
Qed.
(** ** Widening by unpack (SSE2, MMX) *)

Lemma cmpgt_zero n : forall r,
  length r <= n -> cmpgt_epi8 (setzero n) r = sign_bytes r.
Proof.
  unfold cmpgt_epi8, setzero, zipWith, sign_bytes.
  induction n as [|n IH]; intros [|y r] Hr; try reflexivity; [cbn in Hr; lia|].
  cbn [repeat combine map fst snd]. rewrite IH by (cbn in Hr; lia). reflexivity.
Qed.

Lemma int16_sign_extend b :
  int16 (le_combine [b; if (s8 b <? 0)%Z then Byte.xff else Byte.x00]) = s8 b.
Proof. destruct b; vm_compute; reflexivity. Qed.

Lemma int16_zero_extend b : int16 (le_combine [b; Byte.x00]) = u8 b.
Proof. destruct b; vm_compute; reflexivity. Qed.

Lemma epi16_sign_extend r : epi16 (interleave r (sign_bytes r)) = epi8 r.
Proof.
  unfold epi16, epi8, sign_bytes. induction r as [|b r IH]; [reflexivity|].
  cbn [map interleave lanes16]. rewrite IH, int16_sign_extend. reflexivity.
Qed.

Lemma epi16_zero_extend : forall r n,
  length r <= n -> epi16 (interleave r (repeat Byte.x00 n)) = epu8 r.
Proof.
  unfold epi16, epu8. induction r as [|b r IH]; intros n Hn; [destruct n; reflexivity|].
  destruct n as [|n]; [cbn in Hn; lia|].
  cbn [repeat map interleave lanes16]. rewrite IH by (cbn in Hn; lia).
  rewrite int16_zero_extend. reflexivity.
Qed.

Lemma zipWith_mul_comm : forall a b, zipWith Z.mul a b = zipWith Z.mul b a.
Proof.
  unfold zipWith. induction a as [|x a IH]; intros [|y b]; try reflexivity.
  cbn [combine map fst snd]. rewrite IH. f_equal. lia.
Qed.

Lemma madd_widened n r i :
  length r = 2 * n -> length i = 2 * n ->
  madd_epi16 (interleave r (sign_bytes r)) (interleave i (repeat Byte.x00 (2 * n)))
  = pack32 (pairsum (zipWith Z.mul (epu8 i) (epi8 r))).
Proof.
  intros Hr Hi. unfold madd_epi16.
  rewrite epi16_sign_extend, epi16_zero_extend by lia.
  rewrite zipWith_mul_comm. reflexivity.
Qed.

Lemma firstn_sign_bytes k r : firstn k (sign_bytes r) = sign_bytes (firstn k r).
Proof. unfold sign_bytes. apply firstn_map. Qed.

Lemma skipn_sign_bytes k r : skipn k (sign_bytes r) = sign_bytes (skipn k r).
Proof. unfold sign_bytes. apply skipn_map. Qed.

Lemma dotb_halves k a b :
  length a = length b ->
  dotb a b = (dotb (firstn k a) (firstn k b) + dotb (skipn k a) (skipn k b))%Z.
Proof.
  intros Hl. rewrite <- (firstn_skipn k a) at 1. rewrite <- (firstn_skipn k b) at 1.
  apply dotb_app. rewrite !length_firstn. lia.
Qed.

Lemma interleave_length : forall a b,
  length a = length b -> length (interleave a b) = 2 * length a.
Proof.
  induction a as [|x a IH]; intros [|y b] Hl; try discriminate; [reflexivity|].
  cbn [interleave length]. rewrite IH by (cbn in Hl; lia). lia.
Qed.

Lemma firstn_repeat {A} (x : A) : forall k n,
  firstn k (repeat x n) = repeat x (Nat.min k n).
Proof.
  induction k as [|k IH]; intros [|n]; try reflexivity.
  cbn [repeat firstn Nat.min]. rewrite IH. reflexivity.
Qed.

Lemma skipn_repeat {A} (x : A) : forall k n,
  skipn k (repeat x n) = repeat x (n - k).
Proof.
  induction k as [|k IH]; intros [|n]; try reflexivity.
  cbn [repeat skipn Nat.sub]. apply IH.
Qed.

(** One iteration of the SSE2 / MMX loop body on registers of [4 * n] bytes. *)
Lemma widen_step n row_j input_j sum_lo sum_hi :
  length row_j = 4 * n -> length input_j = 4 * n ->
  length sum_lo = 4 * n -> length sum_hi = 4 * n ->
  let kZeros := setzero (4 * n) in
  let row_signs := cmpgt_epi8 kZeros row_j in
  let lo := add_epi32 sum_lo
              (madd_epi16 (interleave (firstn (2 * n) row_j) (firstn (2 * n) row_signs))
                          (interleave (firstn (2 * n) input_j) (firstn (2 * n) kZeros))) in
  let hi := add_epi32 sum_hi
              (madd_epi16 (interleave (skipn (2 * n) row_j) (skipn (2 * n) row_signs))
                          (interleave (skipn (2 * n) input_j) (skipn (2 * n) kZeros))) in
  length lo = 4 * n /\ length hi = 4 * n /\
  uint32 (sumZ (lanes32 lo) + sumZ (lanes32 hi))
  = uint32 (sumZ (lanes32 sum_lo) + sumZ (lanes32 sum_hi) + dotb input_j row_j).
Proof.
  intros Hr Hi Hlo Hhi. cbv zeta.
  rewrite cmpgt_zero by lia.
  rewrite firstn_sign_bytes, skipn_sign_bytes.
  unfold setzero. rewrite firstn_repeat, skipn_repeat.
  replace (Nat.min (2 * n) (4 * n)) with (2 * n) by lia.
  replace (4 * n - 2 * n) with (2 * n) by lia.
  rewrite !(madd_widened n)
    by (rewrite ?length_firstn, ?length_skipn; lia).
  set (plo := zipWith Z.mul (epu8 (firstn (2 * n) input_j)) (epi8 (firstn (2 * n) row_j))).
  set (phi := zipWith Z.mul (epu8 (skipn (2 * n) input_j)) (epi8 (skipn (2 * n) row_j))).
  assert (Hplo : length plo = 2 * n).
  { unfold plo. rewrite length_products; rewrite !length_firstn; lia. }
  assert (Hphi : length phi = 2 * n).
  { unfold phi. rewrite length_products; rewrite !length_skipn; lia. }
  assert (Hqlo : length (pack32 (pairsum plo)) = 4 * n)
    by (rewrite length_pack32, (length_pairsum n) by exact Hplo; reflexivity).
  assert (Hqhi : length (pack32 (pairsum phi)) = 4 * n)
    by (rewrite length_pack32, (length_pairsum n) by exact Hphi; reflexivity).
  split; [apply add_epi32_length; assumption|].
  split; [apply add_epi32_length; assumption|].
  rewrite <- uint32_add_l, (add_epi32_sum n), uint32_add_l by assumption.
  rewrite <- uint32_add_r, (add_epi32_sum n), uint32_add_r by assumption.
  rewrite !lanes32_pack32.
  rewrite (dotb_halves (2 * n) input_j row_j) by lia.
  unfold dotb. fold plo. fold phi.
  rewrite <- (sumZ_pairsum n plo), <- (sumZ_pairsum n phi) by assumption.
  transitivity (uint32 (sumZ (lanes32 sum_lo) + sumZ (lanes32 sum_hi)
                        + uint32 (sumZ (map uint32 (pairsum plo)))
                        + uint32 (sumZ (map uint32 (pairsum phi))))).
  - unfold uint32. Z.mod_equality.
  - rewrite !sumZ_map_uint32. unfold uint32. Z.mod_equality.
Qed.

Lemma shufflelo_epi16_BADC t0 t1 t2 t3 :
  _mm_shufflelo_epi16 (pack32 [t0; t1; t2; t3]) 78 = pack32 [t1; t0; t2; t3].
Proof.
  unfold _mm_shufflelo_epi16, pack32. cbn [flat_map].
  destruct (le_split_4 t0) as (a0 & a1 & a2 & a3 & E0).
  destruct (le_split_4 t1) as (b0 & b1 & b2 & b3 & E1).
  destruct (le_split_4 t2) as (c0 & c1 & c2 & c3 & E2).
  destruct (le_split_4 t3) as (d0 & d1 & d2 & d3 & E3).
  rewrite E0, E1, E2, E3. reflexivity.
Qed.

Lemma sse2_reduce sum_lo sum_hi :
  length sum_lo = 16 -> length sum_hi = 16 ->
  (let sum := add_epi32 sum_lo sum_hi in
   let sum_high_64 := _mm_shuffle_epi32 sum (_MM_SHUFFLE 1 0 3 2) in
   let sum := add_epi32 sum sum_high_64 in
   let sum_second_32 := _mm_shufflelo_epi16 sum (_MM_SHUFFLE 1 0 3 2) in
   let sum := add_epi32 sum sum_second_32 in
   _mm_cvtsi128_si32 sum)
  = int32 (sumZ (lanes32 sum_lo) + sumZ (lanes32 sum_hi)).
Proof.
  intros Hlo Hhi. as_lanes sum_lo 4 Hlo. as_lanes sum_hi 4 Hhi. cbv zeta.
  change (_MM_SHUFFLE 1 0 3 2) with 78%Z.
  lanes. rewrite shuffle_epi32_BADC. lanes. rewrite shufflelo_epi16_BADC. lanes.
  rewrite cvtsi128_si32_pack32, !lanes32_pack32. cbn [map]. mod32.
Qed.

Lemma mmx_reduce sum_lo sum_hi :
  length sum_lo = 8 -> length sum_hi = 8 ->
  (let sum := add_epi32 sum_lo sum_hi in
   let sum := add_epi32 sum (_mm_unpackhi_pi32 sum sum) in
   _mm_cvtsi64_si32 sum)
  = int32 (sumZ (lanes32 sum_lo) + sumZ (lanes32 sum_hi)).
Proof.
  intros Hlo Hhi. as_lanes sum_lo 2 Hlo. as_lanes sum_hi 2 Hhi. cbv zeta.
  unfold _mm_unpackhi_pi32. lanes.
  change _mm_cvtsi64_si32 with _mm_cvtsi128_si32.
  rewrite cvtsi128_si32_pack32, !lanes32_pack32. cbn [map]. mod32.
Qed.
(** ** Dimensions *)

Lemma CeilToMultiple_spec n base :
  0 < base -> exists k, CeilToMultiple n base = k * base /\ n <= k * base < n + base.
Proof.
  intros Hb. unfold CeilToMultiple. exists ((n + base - 1) / base). split; [reflexivity|].
  pose proof (Nat.div_mod_eq (n + base - 1) base) as Hdm.
  pose proof (Nat.mod_upper_bound (n + base - 1) base ltac:(lia)) as Hmod.
  nia.
Qed.

Lemma kPadded_multiple I :
  exists k, kPaddedInputDimensions I = 32 * k /\ I <= 32 * k.
Proof.
  destruct (CeilToMultiple_spec I kMaxSimdWidth) as (k & Hk & Hr);
    [unfold kMaxSimdWidth; lia|].
  exists k. unfold kPaddedInputDimensions. rewrite Hk. unfold kMaxSimdWidth in *. lia.
Qed.

Lemma div_exact a b k : 0 < b -> a = k * b -> a / b = k.
Proof. intros Hb ->. apply Nat.div_mul. lia. Qed.

(** ** Weights as bytes *)

Lemma epi8_weight_bytes ws : Forall is_int8 ws -> epi8 (weight_bytes ws) = ws.
Proof.
  unfold epi8, weight_bytes. intros H. induction H as [|w ws Hw _ IH]; [reflexivity|].
  cbn [map]. rewrite IH, s8_of_Z by exact Hw. reflexivity.
Qed.

Lemma dotb_weights n offset ws input :
  Forall is_int8 ws ->
  dotb (firstn n input) (firstn n (skipn offset (weight_bytes ws)))
  = dot n offset ws input.
Proof.
  intros Hws. unfold dotb, dot, epi8.
  rewrite <- firstn_map, <- skipn_map. fold (epi8 (weight_bytes ws)).
  rewrite epi8_weight_bytes by exact Hws. apply f_equal, zipWith_mul_comm.
Qed.

Lemma length_weight_bytes ws : length (weight_bytes ws) = length ws.
Proof. apply length_map. Qed.

(** ** Each kernel row against the sum it stands for *)

Section Rows.
Local Set Default Proof Using "All".
Variables (I O : nat) (biases weights : list Z) (input : list byte).
Let P := kPaddedInputDimensions I.
Let wb := weight_bytes weights.

Hypothesis Hweights : length weights = O * P.
Hypothesis Hinput : P <= length input.

Lemma row_length i : i < O -> P <= length (skipn (i * P) wb).
Proof.
  intros Hi. unfold wb. rewrite length_skipn, length_weight_bytes, Hweights. nia.
Qed.

Lemma dot_row_target cond w m step hadd i :
  accumulates cond w step -> w = 4 * m -> 0 < w ->
  (exists k, P = k * w) ->
  (forall j, j < P / w -> cond (vload w input j)) ->
  (forall sum bias, length sum = w -> hadd sum bias = int32 (sumZ (lanes32 sum) + bias)) ->
  i < O ->
  hadd (dot_row step w (P / w) input (skipn (i * P) wb)) (nth i biases 0%Z)
  = row_target I biases weights input i.
Proof.
  intros Hstep Hw Hpos [k Hk] Hcond Hhadd Hi.
  rewrite (div_exact P w k Hpos Hk) in *.
  pose proof (row_length i Hi) as Hrow.
  destruct (dot_row_sum cond w m step k input (skipn (i * P) wb) Hstep Hw
              Hcond) as [Hlen Hsum]; [lia|lia|].
  rewrite Hhadd by exact Hlen. unfold row_target; fold P; fold wb. rewrite <- Hk in Hsum.
  apply int32_eqm. fold (uint32 (sumZ (lanes32 (dot_row step w k input (skipn (i * P) wb)))
                                 + nth i biases 0%Z)).
  rewrite <- uint32_add_l, Hsum, uint32_add_l. unfold uint32. f_equal. lia.
Qed.

Hypothesis Hbiases : length biases = O.

Lemma bias128_lanes i :
  i + 4 <= O ->
  bias128 biases i
  = pack32 [nth i biases 0%Z; nth (i + 1) biases 0%Z;
            nth (i + 2) biases 0%Z; nth (i + 3) biases 0%Z].
Proof.
  intros Hi. unfold bias128.
  rewrite <- (List.map_seq_nth_slice_le biases 0%Z 4 i) by lia.
  cbn [seq map]. repeat (f_equal; try lia).
Qed.

Lemma row_sum_target cond w m step i :
  accumulates cond w step -> w = 4 * m -> 0 < w ->
  (exists k, P = k * w) ->
  (forall j, j < P / w -> cond (vload w input j)) ->
  i < O ->
  length (dot_row step w (P / w) input (skipn (i * P) wb)) = w /\
  forall b, int32 (sumZ (lanes32 (dot_row step w (P / w) input (skipn (i * P) wb)))
                   + uint32 b)
            = int32 (b + dotb (firstn P input) (firstn P (skipn (i * P) wb))).
Proof.
  intros Hstep Hw Hpos [k Hk] Hcond Hi.
  rewrite (div_exact P w k Hpos Hk) in *.
  pose proof (row_length i Hi) as Hrow.
  destruct (dot_row_sum cond w m step k input (skipn (i * P) wb) Hstep Hw
              Hcond) as [Hlen Hsum]; [lia|lia|].
  split; [exact Hlen|]. intros b. rewrite <- Hk in Hsum.
  apply int32_eqm.
  fold (uint32 (sumZ (lanes32 (dot_row step w k input (skipn (i * P) wb))) + uint32 b)).
  rewrite uint32_add_r, <- uint32_add_l, Hsum, uint32_add_l.
  unfold uint32. f_equal. lia.
Qed.

Lemma block_target cond w m step haddx4 i :
  accumulates cond w step -> w = 4 * m -> 0 < w ->
  (exists k, P = k * w) ->
  (forall j, j < P / w -> cond (vload w input j)) ->
  (forall s0 s1 s2 s3 bias,
      length s0 = w -> length s1 = w -> length s2 = w -> length s3 = w ->
      length bias = 16 ->
      epi32 (haddx4 s0 s1 s2 s3 bias) = sums4 s0 s1 s2 s3 bias) ->
  i + 4 <= O ->
  (let '(sum0, sum1, sum2, sum3) :=
     dot_rows4 step w (P / w) input
               (skipn ((i + 0) * P) wb) (skipn ((i + 1) * P) wb)
               (skipn ((i + 2) * P) wb) (skipn ((i + 3) * P) wb) in
   epi32 (haddx4 sum0 sum1 sum2 sum3 (bias128 biases i)))
  = map (row_target I biases weights input) (seq i 4).
Proof.
  intros Hstep Hw Hpos Hk Hcond Hhadd Hi.
  rewrite dot_rows4_rows.
  destruct (row_sum_target cond w m step (i + 0) Hstep Hw Hpos Hk Hcond ltac:(lia))
    as [L0 S0].
  destruct (row_sum_target cond w m step (i + 1) Hstep Hw Hpos Hk Hcond ltac:(lia))
    as [L1 S1].
  destruct (row_sum_target cond w m step (i + 2) Hstep Hw Hpos Hk Hcond ltac:(lia))
    as [L2 S2].
  destruct (row_sum_target cond w m step (i + 3) Hstep Hw Hpos Hk Hcond ltac:(lia))
    as [L3 S3].
  rewrite Hhadd; try assumption.
  2:{ rewrite bias128_lanes by exact Hi. reflexivity. }
  unfold sums4. rewrite bias128_lanes by exact Hi. rewrite lanes32_pack32.
  cbn [map zipWith combine fst snd seq]. unfold row_target; fold P; fold wb.
  rewrite S0, S1, S2, S3.
  replace (i + 0) with i by lia.
  replace (S i) with (i + 1) by lia.
  replace (S (i + 1)) with (i + 2) by lia.
  replace (S (i + 2)) with (i + 3) by lia.
  reflexivity.
Qed.

Lemma sse2_row_target i :
  i < O -> sse2_row I biases weights i input = row_target I biases weights input i.
Proof.
  intros Hi. unfold sse2_row. fold P. fold wb.
  destruct (kPadded_multiple I) as (k & Hk & _). fold P in Hk.
  pose proof (row_length i Hi) as Hrow.
  change (kSimdWidth SSE2) with 16. rewrite (div_exact P 16 (2 * k)) by lia.
  set (row := skipn (i * P) wb) in *.
  set (bias := nth i biases 0%Z).
  match goal with
  | |- (let '(_, _) := for_ ?n ?body ?init in _) = _ =>
      assert (Hinv :
        (fun j (st : reg * reg) =>
           length (fst st) = 16 /\ length (snd st) = 16 /\
           uint32 (sumZ (lanes32 (fst st)) + sumZ (lanes32 (snd st)))
           = uint32 (bias + dotb (firstn (j * 16) input) (firstn (j * 16) row)))
          n (for_ n body init));
      [apply for_invariant|destruct (for_ n body init) as [sum_lo sum_hi]]
  end.
  - cbn [fst snd]. split; [reflexivity|]. split; [reflexivity|].
    unfold _mm_cvtsi32_si128. change _mm_setzero_si128 with (setzero (4 * 4)).
    rewrite (setzero_pack32 4).
    rewrite !lanes32_pack32. cbn [map repeat sumZ fold_right firstn].
    unfold dotb. cbn. unfold uint32. Z.mod_equality.
  - intros j [sum_lo sum_hi] Hj (Hlo & Hhi & Hsum). cbn [fst snd] in *.
    assert (Ha : length (vload 16 input j) = 16) by (apply slice_length; lia).
    assert (Hb : length (vload 16 row j) = 16) by (apply slice_length; lia).
    destruct (widen_step 4 (vload 16 row j) (vload 16 input j) sum_lo sum_hi
                Hb Ha Hlo Hhi) as (Hlo' & Hhi' & Hsum').
    split; [exact Hlo'|]. split; [exact Hhi'|].
    etransitivity; [exact Hsum'|].
    rewrite !firstn_succ_slice, dotb_app by (rewrite !length_firstn; lia).
    rewrite <- uint32_add_l, Hsum, uint32_add_l. unfold uint32. f_equal.
    unfold vload. lia.
  - cbn [fst snd] in Hinv. destruct Hinv as (Hlo & Hhi & Hsum).
    transitivity (int32 (sumZ (lanes32 sum_lo) + sumZ (lanes32 sum_hi)));
      [exact (sse2_reduce sum_lo sum_hi Hlo Hhi)|].
    unfold row_target; fold P; fold wb. apply int32_eqm. fold (uint32 (sumZ (lanes32 sum_lo) + sumZ (lanes32 sum_hi))).
    rewrite Hsum. replace (2 * k * 16) with P by lia. reflexivity.
Qed.

Lemma mmx_row_target i :
  i < O -> mmx_row I biases weights i input = row_target I biases weights input i.
Proof.
  intros Hi. unfold mmx_row. fold P. fold wb.
  destruct (kPadded_multiple I) as (k & Hk & _). fold P in Hk.
  pose proof (row_length i Hi) as Hrow.
  change (kSimdWidth MMX) with 8. rewrite (div_exact P 8 (4 * k)) by lia.
  set (row := skipn (i * P) wb) in *.
  set (bias := nth i biases 0%Z).
  match goal with
  | |- (let '(_, _) := for_ ?n ?body ?init in _) = _ =>
      assert (Hinv :
        (fun j (st : reg * reg) =>
           length (fst st) = 8 /\ length (snd st) = 8 /\
           uint32 (sumZ (lanes32 (fst st)) + sumZ (lanes32 (snd st)))
           = uint32 (bias + dotb (firstn (j * 8) input) (firstn (j * 8) row)))
          n (for_ n body init));
      [apply for_invariant|destruct (for_ n body init) as [sum_lo sum_hi]]
  end.
  - cbn [fst snd]. split; [reflexivity|]. split; [reflexivity|].
    unfold _mm_cvtsi32_si64. change _mm_setzero_si64 with (setzero (4 * 2)).
    rewrite (setzero_pack32 2).
    rewrite !lanes32_pack32. cbn [map repeat sumZ fold_right firstn].
    unfold dotb. cbn. unfold uint32. Z.mod_equality.
  - intros j [sum_lo sum_hi] Hj (Hlo & Hhi & Hsum). cbn [fst snd] in *.
    assert (Ha : length (vload 8 input j) = 8) by (apply slice_length; lia).
    assert (Hb : length (vload 8 row j) = 8) by (apply slice_length; lia).
    destruct (widen_step 2 (vload 8 row j) (vload 8 input j) sum_lo sum_hi
                Hb Ha Hlo Hhi) as (Hlo' & Hhi' & Hsum').
    split; [exact Hlo'|]. split; [exact Hhi'|].
    etransitivity; [exact Hsum'|].
    rewrite !firstn_succ_slice, dotb_app by (rewrite !length_firstn; lia).
    rewrite <- uint32_add_l, Hsum, uint32_add_l. unfold uint32. f_equal.
    unfold vload. lia.
  - cbn [fst snd] in Hinv. destruct Hinv as (Hlo & Hhi & Hsum).
    transitivity (int32 (sumZ (lanes32 sum_lo) + sumZ (lanes32 sum_hi)));
      [exact (mmx_reduce sum_lo sum_hi Hlo Hhi)|].
    unfold row_target; fold P; fold wb. apply int32_eqm. fold (uint32 (sumZ (lanes32 sum_lo) + sumZ (lanes32 sum_hi))).
    rewrite Hsum. replace (4 * k * 8) with P by lia. reflexivity.
Qed.
End Rows.
(** ** NEON *)

Lemma epi8_7bit a : input_7bit a -> epi8 a = epu8 a.
Proof.
  intros H. unfold epi8, epu8. induction H as [|b a Hb _ IH]; [reflexivity|].
  cbn [map]. rewrite IH, s8_u8_7bit by exact Hb. reflexivity.
Qed.

Lemma map_int16_small l :
  Forall (fun x => -32768 <= x <= 32767)%Z l -> map int16 l = l.
Proof.
  intros H. induction H as [|x l Hx _ IH]; [reflexivity|].
  cbn [map]. rewrite IH, int16_small by exact Hx. reflexivity.
Qed.

Lemma zipWith_add_bound lo hi : forall p q,
  Forall (fun x => lo <= x <= hi)%Z p -> Forall (fun x => lo <= x <= hi)%Z q ->
  Forall (fun x => 2 * lo <= x <= 2 * hi)%Z (zipWith Z.add p q).
Proof.
  unfold zipWith. induction p as [|x p IH]; intros [|y q] Hp Hq; try constructor.
  - inversion Hp; inversion Hq; subst. cbn [fst snd]. lia.
  - inversion Hp; inversion Hq; subst. apply IH; assumption.
Qed.

Lemma neon_step a0 b0 a1 b1 sum :
  length a0 = 8 -> length b0 = 8 -> length a1 = 8 -> length b1 = 8 ->
  length sum = 4 -> input_7bit a0 -> input_7bit a1 ->
  let product := vmull_s8 (int8x8 a0) (int8x8 b0) in
  let product := vmlal_s8 product (int8x8 a1) (int8x8 b1) in
  length (vpadalq_s16 sum product) = 4 /\
  uint32 (sumZ (vpadalq_s16 sum product))
  = uint32 (sumZ sum + dotb a0 b0 + dotb a1 b1).
Proof.
  intros Ha0 Hb0 Ha1 Hb1 Hsum H0 H1. cbv zeta.
  unfold vpadalq_s16, vmlal_s8, vmull_s8, int8x8.
  rewrite (epi8_7bit a0 H0), (epi8_7bit a1 H1).
  set (p0 := zipWith Z.mul (epu8 a0) (epi8 b0)).
  set (p1 := zipWith Z.mul (epu8 a1) (epi8 b1)).
  assert (B0 : Forall (fun x => -16256 <= x <= 16256)%Z p0) by (apply products_7bit, H0).
  assert (B1 : Forall (fun x => -16256 <= x <= 16256)%Z p1) by (apply products_7bit, H1).
  assert (L0 : length p0 = 8) by (unfold p0; rewrite length_products; lia).
  assert (L1 : length p1 = 8) by (unfold p1; rewrite length_products; lia).
  rewrite (map_int16_small p0)
    by (eapply Forall_impl; [|exact B0]; cbv beta; intros; lia).
  rewrite (map_int16_small (zipWith Z.add p0 p1))
    by (eapply Forall_impl; [|exact (zipWith_add_bound _ _ p0 p1 B0 B1)];
        cbv beta; intros; lia).
  assert (Lz : length (zipWith Z.add p0 p1) = 2 * 4)
    by (rewrite zipWith_length; lia).
  split.
  - rewrite length_map, zipWith_length, (length_pairsum 4) by exact Lz. lia.
  - rewrite sumZ_map_int32, sumZ_zipWith_add
      by (rewrite (length_pairsum 4) by exact Lz; lia).
    rewrite (sumZ_pairsum 4) by exact Lz.
    rewrite sumZ_zipWith_add by lia. unfold dotb. fold p0. fold p1.
    f_equal. lia.
Qed.

Lemma slice_halves (l : list byte) j :
  firstn 8 (slice 16 j l) = slice 8 (j * 2) l /\
  skipn 8 (slice 16 j l) = slice 8 (j * 2 + 1) l.
Proof.
  unfold slice. split.
  - rewrite firstn_firstn. f_equal. f_equal. lia.
  - rewrite skipn_firstn_comm, skipn_skipn. f_equal. f_equal. lia.
Qed.

Lemma int32_sum4 a b c d :
  int32 (int32 (int32 (a + b) + c) + d) = int32 (a + (b + (c + (d + 0)))).
Proof.
  rewrite int32_add_l, <- Z.add_assoc, int32_add_l. f_equal. lia.
Qed.

Lemma dot_succ n offset (ws : list Z) (xs : list byte) :
  offset + n < length ws -> n < length xs ->
  dot (S n) offset ws xs
  = (dot n offset ws xs + nth (offset + n) ws 0 * u8 (nth n xs Byte.x00))%Z.
Proof.
  intros Hw Hx. unfold dot.
  rewrite <- (List.firstn_nth _ n (skipn offset ws) 0%Z) by (rewrite length_skipn; lia).
  rewrite <- (List.firstn_nth _ n xs Byte.x00) by lia.
  unfold epu8. rewrite map_app.
  rewrite zipWith_app by (rewrite length_map, !length_firstn, length_skipn; lia).
  rewrite sumZ_app, nth_skipn. unfold zipWith. cbn. lia.
Qed.

Lemma dot_padding n m offset (ws : list Z) (xs : list byte) :
  n <= m -> offset + m <= length ws -> m <= length xs ->
  (forall j, n <= j < m ->
             (nth (offset + j) ws 0 * u8 (nth j xs Byte.x00))%Z = 0%Z) ->
  dot m offset ws xs = dot n offset ws xs.
Proof.
  intros Hnm. induction Hnm as [|m Hnm IH]; intros Hw Hx Hzero; [reflexivity|].
  rewrite dot_succ by lia. rewrite Hzero by lia.
  rewrite IH by (try lia; intros; apply Hzero; lia). lia.
Qed.
Section NeonGeneric.
Local Set Default Proof Using "All".
Variables (I O : nat) (biases weights : list Z) (input : list byte).
Let P := kPaddedInputDimensions I.
Let wb := weight_bytes weights.

Hypothesis Hweights : length weights = O * P.
Hypothesis Hinput : P <= length input.

Lemma neon_row_target i :
  i < O -> input_7bit (firstn P input) ->
  neon_row I biases weights i input = row_target I biases weights input i.
Proof.
  intros Hi H7. unfold neon_row. fold P. fold wb.
  destruct (kPadded_multiple I) as (k & Hk & _). fold P in Hk.
  pose proof (row_length I O biases weights input Hweights Hinput i Hi) as Hrow.
  fold P in Hrow. fold wb in Hrow.
  change (kSimdWidth NEON) with 16. rewrite (div_exact P 16 (2 * k)) by lia.
  set (row := skipn (i * P) wb) in *.
  set (bias := nth i biases 0%Z).
  match goal with
  | |- context [for_ ?n ?body ?init] =>
      assert (Hinv :
        (fun j (sum : list Z) =>
           length sum = 4 /\
           uint32 (sumZ sum)
           = uint32 (bias + dotb (firstn (j * 16) input) (firstn (j * 16) row)))
          n (for_ n body init));
      [apply for_invariant|generalize dependent (for_ n body init)]
  end.
  - split; [reflexivity|]. cbn [sumZ fold_right firstn Nat.mul]. unfold dotb. cbn.
    f_equal; lia.
  - intros j sum Hj (Hlen & Hsum).
    destruct (slice_halves input j) as [Ei0 Ei1].
    destruct (slice_halves row j) as [Er0 Er1].
    assert (Ha : length (slice 16 j input) = 16) by (apply slice_length; lia).
    assert (Hb : length (slice 16 j row) = 16) by (apply slice_length; lia).
    destruct (neon_step (vload 8 input (j * 2)) (vload 8 row (j * 2))
                        (vload 8 input (j * 2 + 1)) (vload 8 row (j * 2 + 1)) sum)
      as [Hlen' Hsum'];
      try (apply slice_length; lia); try exact Hlen;
      try (apply (input_7bit_chunk 8 _ P); [exact H7|lia]).
    split; [exact Hlen'|].
    etransitivity; [exact Hsum'|].
    rewrite !firstn_succ_slice, dotb_app by (rewrite !length_firstn; lia).
    rewrite (dotb_halves 8 (slice 16 j input) (slice 16 j row)) by lia.
    rewrite Ei0, Ei1, Er0, Er1. unfold vload.
    rewrite <- !Z.add_assoc, <- uint32_add_l, Hsum, uint32_add_l.
    f_equal. lia.
  - intros sum (Hlen & Hsum). explode sum Hlen. cbn [nth].
    unfold row_target. fold P. fold wb. fold row. fold bias.
    rewrite int32_sum4. apply int32_eqm.
    replace (2 * k * 16) with P in Hsum by lia.
    unfold uint32 in Hsum. rewrite <- Hsum. reflexivity.
Qed.

Lemma generic_row_target i :
  i < O -> I <= length input -> Forall is_int32 biases -> length biases = O ->
  generic_row I biases weights i input = affine_sum I biases weights I input i.
Proof.
  intros Hi HI Hb32 Hbl. unfold generic_row, affine_sum. fold P.
  destruct (kPadded_multiple I) as (k & Hk & HIP). fold P in Hk.
  set (bias := nth i biases 0%Z).
  assert (Hbias : is_int32 bias).
  { apply (proj1 (Forall_forall _ _) Hb32). apply nth_In. lia. }
  match goal with
  | |- for_ ?n ?body ?init = _ =>
      assert (Hinv :
        (fun j (sum : Z) =>
           j <= I -> is_int32 sum /\ int32 sum = int32 (bias + dot j (i * P) weights input))
          n (for_ n body init));
      [apply for_invariant|]
  end.
  - intros _. split; [exact Hbias|]. unfold dot. cbn. f_equal. lia.
  - intros j sum Hj IH _. destruct (IH ltac:(lia)) as [_ Hsum].
    split; [apply int32_is_int32|].
    rewrite (int32_small (int32 _)) by apply int32_is_int32.
    rewrite dot_succ by nia.
    rewrite <- int32_add_l, Hsum, int32_add_l. f_equal. lia.
  - destruct (Hinv (Nat.le_refl I)) as [Hr Hsum].
    rewrite <- Hsum. symmetry. apply int32_small. exact Hr.
Qed.

End NeonGeneric.
(** ** The kernels *)

Lemma tiles_values good target s stores e x :
  tiles good target s stores e -> good x ->
  s <= e /\
  flat_map (fun st : store => snd st x) stores = map (target x) (seq s (e - s)).
Proof.
  intros Ht Hx. induction Ht as [n|start len f rest stop Hf _ IH].
  - split; [lia|]. rewrite Nat.sub_diag. reflexivity.
  - destruct IH as [Hle IH]. split; [lia|].
    cbn [flat_map snd]. rewrite IH, (Hf x Hx), <- map_app, <- seq_app.
    f_equal. f_equal. lia.
Qed.

Lemma tiles_rowwise good target O (row : nat -> list byte -> Z) :
  (forall i x, i < O -> good x -> row i x = target x i) ->
  forall n s, s + n <= O ->
    tiles good target s
          (map (fun i => (i, fun input => [row i input])) (seq s n)) (s + n).
Proof.
  intros Hrow. induction n as [|n IH]; intros s Hs.
  - rewrite Nat.add_0_r. constructor.
  - cbn [seq map]. apply (tiles_cons good target s 1).
    + intros x Hx. cbn [seq map]. rewrite Hrow by (assumption || lia). reflexivity.
    + replace (s + S n) with (s + 1 + n) by lia.
      replace (S s) with (s + 1) by lia. apply IH. lia.
Qed.

Lemma tiles_blocks good target O (block : nat -> list byte -> list Z) :
  (forall i x, i + 4 <= O -> good x -> block i x = map (target x) (seq i 4)) ->
  forall m k, 4 * (k + m) <= O ->
    tiles good target (4 * k)
          (map (fun k => (4 * k, block (4 * k))) (seq k m)) (4 * (k + m)).
Proof.
  intros Hblock. induction m as [|m IH]; intros k Hk.
  - rewrite Nat.add_0_r. constructor.
  - cbn [seq map]. apply (tiles_cons good target (4 * k) 4).
    + intros x Hx. apply Hblock; [lia|exact Hx].
    + replace (4 * k + 4) with (4 * S k) by lia.
      replace (4 * (k + S m)) with (4 * (S k + m)) by lia. apply IH. lia.
Qed.

Lemma tiles_dispatch good target O block single stores :
  (forall i x, i + 4 <= O -> good x -> block i x = map (target x) (seq i 4)) ->
  (forall x, 0 < O -> good x -> single x = [target x 0]) ->
  dispatch O block single = Some stores ->
  tiles good target 0 stores O.
Proof.
  intros Hblock Hsingle. unfold dispatch.
  destruct (O mod 4 =? 0) eqn:E4.
  - apply Nat.eqb_eq in E4. intros Heq.
    assert (Hst : stores = map (fun k => (4 * k, block (4 * k))) (seq 0 (O / 4)))
      by congruence.
    clear Heq. subst stores.
    pose proof (Nat.div_mod_eq O 4) as Hdm. rewrite E4, Nat.add_0_r in Hdm.
    pose proof (tiles_blocks good target O block Hblock (O / 4) 0 ltac:(lia)) as Ht.
    replace (4 * (0 + O / 4)) with O in Ht by lia. exact Ht.
  - destruct (O =? 1) eqn:E1; [|discriminate].
    apply Nat.eqb_eq in E1. intros Heq.
    assert (Hst : stores = [(0, single)]) by congruence.
    clear Heq. subst stores. subst O.
    apply (tiles_cons good target 0 1); [|constructor].
    intros x Hx. apply Hsingle; [lia|exact Hx].
Qed.

Section KernelValue.
Local Set Default Proof Using "All".
Variables (I O : nat) (biases weights : list Z).
Let P := kPaddedInputDimensions I.

Hypothesis Hweights : length weights = O * P.
Hypothesis Hbiases : length biases = O.
Hypothesis Hint8 : Forall is_int8 weights.

Lemma row_target_affine_sum input i :
  row_target I biases weights input i = affine_sum I biases weights P input i.
Proof.
  unfold row_target, affine_sum. fold P. rewrite dotb_weights by exact Hint8.
  reflexivity.
Qed.

Lemma block_affine_sum input i block :
  block = map (row_target I biases weights input) (seq i 4) ->
  block = map (affine_sum I biases weights P input) (seq i 4).
Proof.
  intros ->. apply map_ext. intros j. apply row_target_affine_sum.
Qed.

Lemma vnni_cond (v : bool) a w input :
  narrow_products a = negb v -> good_input a I input ->
  forall j, j < P / w -> v = false -> input_7bit (vload w input j).
Proof.
  intros Ha [_ H7] j Hj Hv. subst v.
  apply (input_7bit_chunk w j P); [apply H7, Ha|apply chunk_within, Hj].
Qed.

Lemma P_chunks32 : exists k, P = k * 32.
Proof. destruct (kPadded_multiple I) as (k & Hk & _). exists k. fold P in Hk. lia. Qed.

Lemma P_chunks16 : exists k, P = k * 16.
Proof. destruct (kPadded_multiple I) as (k & Hk & _). exists (2 * k). fold P in Hk. lia. Qed.

Lemma P_chunks64 : P mod 64 = 0 -> exists k, P = k * 64.
Proof.
  intros Hm. exists (P / 64). pose proof (Nat.div_mod_eq P 64). lia.
Qed.

Lemma avx512_tiles v stores :
  kernel I O biases weights (AVX512 v) = Some stores ->
  tiles (good_input (AVX512 v) I) (affine_sum I biases weights P) 0 stores O.
Proof.
  cbn [kernel]. apply tiles_dispatch.
  - intros i input Hi Hgood. pose proof Hgood as [Hinput _].
    apply block_affine_sum. unfold avx512_block. fold P.
    change (kSimdWidth (AVX512 v) * 2) with 64. change (kSimdWidth (AVX512 v)) with 32.
    destruct (P mod 64 =? 0) eqn:E.
    + apply Nat.eqb_eq in E.
      apply (block_target I O biases weights input Hweights Hinput Hbiases
               (fun a => v = false -> input_7bit a) 64 16);
        [apply m512_accumulates | reflexivity | lia | apply P_chunks64, E
        | apply (vnni_cond v (AVX512 v)); [destruct v; reflexivity|exact Hgood]
        | apply m512_haddx4_sums | exact Hi].
    + apply (block_target I O biases weights input Hweights Hinput Hbiases
               (fun a => v = false -> input_7bit a) 32 8);
        [apply m256_accumulates | reflexivity | lia | apply P_chunks32
        | apply (vnni_cond v (AVX512 v)); [destruct v; reflexivity|exact Hgood]
        | apply m256_haddx4_sums | exact Hi].
  - intros input HO1 Hgood. pose proof Hgood as [Hinput _].
    rewrite <- row_target_affine_sum. unfold avx512_single. fold P.
    change (kSimdWidth (AVX512 v) * 2) with 64. change (kSimdWidth (AVX512 v)) with 32.
    destruct (P mod 64 =? 0) eqn:E.
    + apply Nat.eqb_eq in E. f_equal.
      apply (dot_row_target I O biases weights input Hweights Hinput
               (fun a => v = false -> input_7bit a) 64 16 _ m512_hadd 0);
        [apply m512_accumulates | reflexivity | lia | apply P_chunks64, E
        | apply (vnni_cond v (AVX512 v)); [destruct v; reflexivity|exact Hgood]
        | intros; apply m512_hadd_sum | exact HO1].
    + f_equal.
      apply (dot_row_target I O biases weights input Hweights Hinput
               (fun a => v = false -> input_7bit a) 32 8 _ m256_hadd 0);
        [apply m256_accumulates | reflexivity | lia | apply P_chunks32
        | apply (vnni_cond v (AVX512 v)); [destruct v; reflexivity|exact Hgood]
        | apply m256_hadd_sum | exact HO1].
Qed.

Lemma avx2_tiles v stores :
  kernel I O biases weights (AVX2 v) = Some stores ->
  tiles (good_input (AVX2 v) I) (affine_sum I biases weights P) 0 stores O.
Proof.
  cbn [kernel]. apply tiles_dispatch.
  - intros i input Hi Hgood. pose proof Hgood as [Hinput _].
    apply block_affine_sum. unfold avx2_block. fold P.
    change (kSimdWidth (AVX2 v)) with 32.
    apply (block_target I O biases weights input Hweights Hinput Hbiases
             (fun a => v = false -> input_7bit a) 32 8);
      [apply m256_accumulates | reflexivity | lia | apply P_chunks32
      | apply (vnni_cond v (AVX2 v)); [destruct v; reflexivity|exact Hgood]
      | apply m256_haddx4_sums | exact Hi].
  - intros input HO1 Hgood. pose proof Hgood as [Hinput _].
    rewrite <- row_target_affine_sum. unfold avx2_single. fold P.
    change (kSimdWidth (AVX2 v)) with 32. f_equal.
    apply (dot_row_target I O biases weights input Hweights Hinput
             (fun a => v = false -> input_7bit a) 32 8 _ m256_hadd 0);
      [apply m256_accumulates | reflexivity | lia | apply P_chunks32
      | apply (vnni_cond v (AVX2 v)); [destruct v; reflexivity|exact Hgood]
      | apply m256_hadd_sum | exact HO1].
Qed.

Lemma ssse3_cond input :
  good_input SSSE3 I input ->
  forall j, j < P / 16 -> input_7bit (vload 16 input j).
Proof.
  intros [_ H7] j Hj.
  apply (input_7bit_chunk 16 j P); [apply H7; reflexivity|apply chunk_within, Hj].
Qed.

Lemma ssse3_tiles stores :
  kernel I O biases weights SSSE3 = Some stores ->
  tiles (good_input SSSE3 I) (affine_sum I biases weights P) 0 stores O.
Proof.
  cbn [kernel]. apply tiles_dispatch.
  - intros i input Hi Hgood. pose proof Hgood as [Hinput _].
    apply block_affine_sum. unfold ssse3_block. fold P.
    change (kSimdWidth SSSE3) with 16.
    apply (block_target I O biases weights input Hweights Hinput Hbiases
             input_7bit 16 4);
      [apply m128_accumulates | reflexivity | lia | apply P_chunks16
      | apply ssse3_cond, Hgood | apply m128_haddx4_sums | exact Hi].
  - intros input HO1 Hgood. pose proof Hgood as [Hinput _].
    rewrite <- row_target_affine_sum. unfold ssse3_single. fold P.
    change (kSimdWidth SSSE3) with 16. f_equal.
    apply (dot_row_target I O biases weights input Hweights Hinput
             input_7bit 16 4 _ m128_hadd 0);
      [apply m128_accumulates | reflexivity | lia | apply P_chunks16
      | apply ssse3_cond, Hgood | apply m128_hadd_sum | exact HO1].
Qed.

Lemma rowwise_tiles good target (row : nat -> list byte -> Z) stores :
  (forall i x, i < O -> good x -> row i x = target x i) ->
  rowwise O row = Some stores -> tiles good target 0 stores O.
Proof.
  intros Hrow Heq. unfold rowwise in Heq.
  assert (Hst : stores = map (fun i => (i, fun input => [row i input])) (seq 0 O))
    by congruence.
  subst stores. apply (tiles_rowwise good target O row Hrow O 0). lia.
Qed.

Hypothesis Hint32 : Forall is_int32 biases.

(** What the stores of every kernel hold. *)
Lemma kernel_tiles a stores :
  kernel I O biases weights a = Some stores ->
  tiles (good_input a I) (affine_sum I biases weights (summed_inputs a I)) 0 stores O.
Proof.
  destruct a as [v|v| | | | |]; cbn [summed_inputs]; fold P.
  - apply avx512_tiles.
  - apply avx2_tiles.
  - apply ssse3_tiles.
  - cbn [kernel]. apply rowwise_tiles. intros i x Hi [Hx _].
    rewrite <- row_target_affine_sum.
    apply (sse2_row_target I O biases weights x Hweights Hx Hbiases i Hi).
  - cbn [kernel]. apply rowwise_tiles. intros i x Hi [Hx _].
    rewrite <- row_target_affine_sum.
    apply (mmx_row_target I O biases weights x Hweights Hx Hbiases i Hi).
  - cbn [kernel]. apply rowwise_tiles. intros i x Hi [Hx H7].
    rewrite <- row_target_affine_sum.
    apply (neon_row_target I O biases weights x Hweights Hx i Hi).
    apply H7. reflexivity.
  - cbn [kernel]. apply rowwise_tiles. intros i x Hi [Hx _].
    apply (generic_row_target I O biases weights x Hweights Hx i Hi);
      try assumption.
    destruct (kPadded_multiple I) as (k & Hk & HI). fold P in Hk. lia.
Qed.
End KernelValue.

(** ** The dispatch *)

Lemma kernel_None I O biases weights a :
  kernel I O biases weights a = None
  <-> dispatched a = true /\ O mod 4 <> 0 /\ O <> 1.
Proof.
  assert (Hd : forall block single,
             dispatch O block single = None <-> O mod 4 <> 0 /\ O <> 1).
  { intros block single. unfold dispatch.
    destruct (O mod 4 =? 0) eqn:E4; [apply Nat.eqb_eq in E4|apply Nat.eqb_neq in E4].
    - split; [discriminate|]. intros [H _]. contradiction.
    - destruct (O =? 1) eqn:E1; [apply Nat.eqb_eq in E1|apply Nat.eqb_neq in E1].
      + split; [discriminate|]. intros [_ H]. contradiction.
      + split; auto. }
  destruct a as [v|v| | | | |]; cbn [kernel dispatched];
    try (rewrite Hd; tauto);
    (split; [discriminate|intros [H _]; discriminate]).
Qed.


Lemma affine_rowwise O (row : nat -> list byte -> Z) input :
  option_map (flat_map (fun st : store => snd st input)) (rowwise O row)
  = Some (map (fun i => row i input) (seq 0 O)).
Proof.
  unfold rowwise. cbn [option_map]. f_equal.
  induction (seq 0 O) as [|i l IH]; [reflexivity|].
  cbn [map flat_map snd app]. rewrite IH. reflexivity.
Qed.

(** What every kernel computes from a good input. *)
Lemma affine_value I O biases weights a input :
  length weights = O * kPaddedInputDimensions I ->
  length biases = O ->
  Forall is_int8 weights -> Forall is_int32 biases ->
  (dispatched a = true -> O = 1 \/ O mod 4 = 0) ->
  good_input a I input ->
  affine I O biases weights a input
  = Some (map (affine_sum I biases weights (summed_inputs a I) input) (seq 0 O)).
Proof.
  intros Hw Hb H8 H32 HO Hgood. unfold affine.
  destruct (kernel I O biases weights a) as [stores|] eqn:Hk.
  - pose proof (kernel_tiles I O biases weights Hw Hb H8 H32 a stores Hk) as Ht.
    destruct (tiles_values _ _ _ _ _ input Ht Hgood) as [_ Hv].
    cbn [option_map]. rewrite Hv, Nat.sub_0_r. reflexivity.
  - apply kernel_None in Hk. destruct Hk as (Hd & H4 & H1).
    destruct (HO Hd); contradiction.
Qed.
(** ** Padding *)

Lemma nth_zipWith {A B C} (f : A -> B -> C) da db dc : forall a b k,
  k < length a -> k < length b ->
  nth k (zipWith f a b) dc = f (nth k a da) (nth k b db).
Proof.
  unfold zipWith. induction a as [|x a IH]; intros [|y b] k Ha Hb;
    try (cbn in *; lia).
  destruct k as [|k]; [reflexivity|]. cbn [combine map nth].
  apply IH; cbn in *; lia.
Qed.

Lemma nth_slice w j (l : list byte) k d :
  k < w -> nth k (slice w j l) d = nth (j * w + k) l d.
Proof.
  intros Hk. unfold slice. rewrite List.nth_firstn by exact Hk. apply nth_skipn.
Qed.

Lemma s8_zero : s8 (byte.of_Z 0) = 0%Z.
Proof. reflexivity. Qed.

Lemma m128_products_only : products_only m128_add_dpbusd_epi32.
Proof.
  intros acc a a' b H. unfold m128_add_dpbusd_epi32, maddubs_epi16.
  rewrite H. reflexivity.
Qed.

Lemma m256_products_only v : products_only (m256_add_dpbusd_epi32 v).
Proof.
  intros acc a a' b H. unfold m256_add_dpbusd_epi32, maddubs_epi16, dpbusd_epi32.
  rewrite H. reflexivity.
Qed.

Lemma m512_products_only v : products_only (m512_add_dpbusd_epi32 v).
Proof.
  intros acc a a' b H. unfold m512_add_dpbusd_epi32, maddubs_epi16, dpbusd_epi32.
  rewrite H. reflexivity.
Qed.

Section Padding.
Local Set Default Proof Using "All".
Variables (I O : nat) (biases weights : list Z) (input1 input2 : list byte).
Let P := kPaddedInputDimensions I.
Let wb := weight_bytes weights.

Hypothesis Hweights : length weights = O * P.
Hypothesis Hinput1 : length input1 = P.
Hypothesis Hinput2 : length input2 = P.
Hypothesis Hagree : firstn I input1 = firstn I input2.
Hypothesis Hzero :
  forall i j, i < O -> I <= j < P -> nth (i * P + j) weights 0%Z = 0%Z.

Lemma inputs_agree p : p < I -> nth p input1 Byte.x00 = nth p input2 Byte.x00.
Proof.
  intros Hp. rewrite <- (List.nth_firstn I input1 p Byte.x00 Hp).
  rewrite <- (List.nth_firstn I input2 p Byte.x00 Hp). rewrite Hagree. reflexivity.
Qed.

Lemma padded_weight_byte i p :
  i < O -> I <= p < P -> s8 (nth p (skipn (i * P) wb) Byte.x00) = 0%Z.
Proof.
  intros Hi Hp. rewrite nth_skipn. unfold wb, weight_bytes.
  change Byte.x00 with (byte.of_Z 0). rewrite map_nth, Hzero by assumption.
  reflexivity.
Qed.

(** The products a chunk contributes are the same for both inputs. *)
Lemma products_agree (f : byte -> Z) i w j :
  i < O -> (j + 1) * w <= P ->
  zipWith Z.mul (map f (vload w input1 j)) (epi8 (vload w (skipn (i * P) wb) j))
  = zipWith Z.mul (map f (vload w input2 j)) (epi8 (vload w (skipn (i * P) wb) j)).
Proof.
  intros Hi Hj. unfold vload.
  assert (Hrow : P <= length (skipn (i * P) wb)).
  { unfold wb, weight_bytes. rewrite length_skipn, length_map, Hweights. nia. }
  assert (L1 : length (slice w j input1) = w)
    by (unfold slice; rewrite length_firstn, length_skipn; lia).
  assert (L2 : length (slice w j input2) = w)
    by (unfold slice; rewrite length_firstn, length_skipn; lia).
  assert (Lr : length (slice w j (skipn (i * P) wb)) = w)
    by (unfold slice; rewrite length_firstn, length_skipn; lia).
  apply (nth_ext _ _ 0%Z 0%Z).
  - unfold zipWith, epi8. rewrite !length_map, !length_combine, !length_map. lia.
  - intros k Hk.
    assert (Hkw : k < w).
    { unfold zipWith, epi8 in Hk.
      rewrite length_map, length_combine, !length_map in Hk. lia. }
    rewrite !(nth_zipWith Z.mul (f Byte.x00) (s8 Byte.x00))
      by (unfold epi8; rewrite length_map; lia).
    unfold epi8. rewrite !map_nth, !nth_slice by exact Hkw.
    destruct (Nat.lt_ge_cases (j * w + k) I) as [Hlt|Hge].
    + rewrite inputs_agree by exact Hlt. reflexivity.
    + rewrite padded_weight_byte by (try assumption; nia). lia.
Qed.

Lemma products_agree_unsigned i w j :
  i < O -> (j + 1) * w <= P ->
  zipWith Z.mul (epu8 (vload w input1 j)) (epi8 (vload w (skipn (i * P) wb) j))
  = zipWith Z.mul (epu8 (vload w input2 j)) (epi8 (vload w (skipn (i * P) wb) j)).
Proof. exact (products_agree u8 i w j). Qed.

Lemma products_agree_signed i w j :
  i < O -> (j + 1) * w <= P ->
  zipWith Z.mul (epi8 (vload w input1 j)) (epi8 (vload w (skipn (i * P) wb) j))
  = zipWith Z.mul (epi8 (vload w input2 j)) (epi8 (vload w (skipn (i * P) wb) j)).
Proof. exact (products_agree s8 i w j). Qed.

Lemma chunk_in_range w j : j < P / w -> (j + 1) * w <= P.
Proof. apply chunk_within. Qed.

Lemma dot_row_agree step w i :
  products_only step -> i < O ->
  dot_row step w (P / w) input1 (skipn (i * P) wb)
  = dot_row step w (P / w) input2 (skipn (i * P) wb).
Proof.
  intros Hstep Hi. unfold dot_row. apply for_ext. intros j sum Hj.
  apply Hstep. apply products_agree_unsigned; [exact Hi|]. apply chunk_in_range, Hj.
Qed.

Lemma dot_rows4_agree step w i :
  products_only step -> i + 4 <= O ->
  dot_rows4 step w (P / w) input1
            (skipn ((i + 0) * P) wb) (skipn ((i + 1) * P) wb)
            (skipn ((i + 2) * P) wb) (skipn ((i + 3) * P) wb)
  = dot_rows4 step w (P / w) input2
              (skipn ((i + 0) * P) wb) (skipn ((i + 1) * P) wb)
              (skipn ((i + 2) * P) wb) (skipn ((i + 3) * P) wb).
Proof.
  intros Hstep Hi. rewrite !dot_rows4_rows.
  rewrite !(dot_row_agree step w) by (assumption || lia). reflexivity.
Qed.

Lemma dispatch_agree block single :
  (forall i, i + 4 <= O -> block i input1 = block i input2) ->
  (0 < O -> single input1 = single input2) ->
  option_map (flat_map (fun st : store => snd st input1)) (dispatch O block single)
  = option_map (flat_map (fun st : store => snd st input2)) (dispatch O block single).
Proof.
  intros Hblock Hsingle. unfold dispatch.
  destruct (O mod 4 =? 0) eqn:E4.
  - apply Nat.eqb_eq in E4. cbn [option_map]. f_equal.
    pose proof (Nat.div_mod_eq O 4) as Hdm. rewrite E4, Nat.add_0_r in Hdm.
    assert (Hall : forall k, In k (seq 0 (O / 4)) -> 4 * k + 4 <= O).
    { intros k Hk. apply in_seq in Hk. lia. }
    induction (seq 0 (O / 4)) as [|k l IH]; [reflexivity|].
    cbn [map flat_map snd]. rewrite Hblock by (apply Hall; left; reflexivity).
    rewrite IH by (intros; apply Hall; right; assumption). reflexivity.
  - destruct (O =? 1) eqn:E1; [|reflexivity].
    apply Nat.eqb_eq in E1. cbn [option_map flat_map snd]. rewrite Hsingle by lia.
    reflexivity.
Qed.

Lemma rowwise_agree (row : nat -> list byte -> Z) :
  (forall i, i < O -> row i input1 = row i input2) ->
  option_map (flat_map (fun st : store => snd st input1)) (rowwise O row)
  = option_map (flat_map (fun st : store => snd st input2)) (rowwise O row).
Proof.
  intros Hrow. rewrite !affine_rowwise. f_equal. apply map_ext_in.
  intros i Hi. apply in_seq in Hi. apply Hrow. lia.
Qed.

Lemma avx512_agree v :
  affine I O biases weights (AVX512 v) input1
  = affine I O biases weights (AVX512 v) input2.
Proof.
  unfold affine. cbn [kernel]. apply dispatch_agree.
  - intros i Hi. unfold avx512_block. fold P. fold wb.
    change (kSimdWidth (AVX512 v) * 2) with 64. change (kSimdWidth (AVX512 v)) with 32.
    destruct (P mod 64 =? 0).
    + rewrite (dot_rows4_agree (m512_add_dpbusd_epi32 v) 64 i)
        by (exact Hi || apply m512_products_only). reflexivity.
    + rewrite (dot_rows4_agree (m256_add_dpbusd_epi32 v) 32 i)
        by (exact Hi || apply m256_products_only). reflexivity.
  - intros HO. unfold avx512_single. fold P. fold wb.
    change (kSimdWidth (AVX512 v) * 2) with 64. change (kSimdWidth (AVX512 v)) with 32.
    change wb with (skipn (0 * P) wb).
    destruct (P mod 64 =? 0).
    + rewrite (dot_row_agree (m512_add_dpbusd_epi32 v) 64 0)
        by (exact HO || apply m512_products_only). reflexivity.
    + rewrite (dot_row_agree (m256_add_dpbusd_epi32 v) 32 0)
        by (exact HO || apply m256_products_only). reflexivity.
Qed.

Lemma avx2_agree v :
  affine I O biases weights (AVX2 v) input1
  = affine I O biases weights (AVX2 v) input2.
Proof.
  unfold affine. cbn [kernel]. apply dispatch_agree.
  - intros i Hi. unfold avx2_block. fold P. fold wb.
    change (kSimdWidth (AVX2 v)) with 32.
    rewrite (dot_rows4_agree (m256_add_dpbusd_epi32 v) 32 i)
      by (exact Hi || apply m256_products_only). reflexivity.
  - intros HO. unfold avx2_single. fold P. fold wb.
    change (kSimdWidth (AVX2 v)) with 32. change wb with (skipn (0 * P) wb).
    rewrite (dot_row_agree (m256_add_dpbusd_epi32 v) 32 0)
      by (exact HO || apply m256_products_only). reflexivity.
Qed.

Lemma ssse3_agree :
  affine I O biases weights SSSE3 input1 = affine I O biases weights SSSE3 input2.
Proof.
  unfold affine. cbn [kernel]. apply dispatch_agree.
  - intros i Hi. unfold ssse3_block. fold P. fold wb.
    change (kSimdWidth SSSE3) with 16.
    rewrite (dot_rows4_agree m128_add_dpbusd_epi32 16 i)
      by (exact Hi || apply m128_products_only). reflexivity.
  - intros HO. unfold ssse3_single. fold P. fold wb.
    change (kSimdWidth SSSE3) with 16. change wb with (skipn (0 * P) wb).
    rewrite (dot_row_agree m128_add_dpbusd_epi32 16 0)
      by (exact HO || apply m128_products_only). reflexivity.
Qed.

Lemma neon_agree :
  affine I O biases weights NEON input1 = affine I O biases weights NEON input2.
Proof.
  unfold affine. cbn [kernel]. apply rowwise_agree. intros i Hi.
  unfold neon_row. fold P. fold wb. change (kSimdWidth NEON) with 16.
  cbv zeta.
  match goal with
  | |- context [for_ ?n ?b1 ?init] =>
      match goal with
      | |- _ = ?rhs =>
          match rhs with
          | context [for_ n ?b2 init] =>
              assert (E : for_ n b1 init = for_ n b2 init); [|rewrite E; reflexivity]
          end
      end
  end.
  apply for_ext. intros j sum Hj.
  assert (Hj0 : (j * 2 + 1) * 8 <= P) by (pose proof (Nat.Div0.mul_div_le P 16); nia).
  assert (Hj1 : (j * 2 + 1 + 1) * 8 <= P) by (pose proof (Nat.Div0.mul_div_le P 16); nia).
  unfold vmull_s8, vmlal_s8, int8x8.
  rewrite (products_agree_signed i 8 (j * 2) Hi Hj0).
  rewrite (products_agree_signed i 8 (j * 2 + 1) Hi Hj1).
  reflexivity.
Qed.

Hypothesis Hbiases : length biases = O.
Hypothesis Hint8 : Forall is_int8 weights.
Hypothesis Hint32 : Forall is_int32 biases.

Lemma dot_agree i : i < O -> dot I (i * P) weights input1 = dot I (i * P) weights input2.
Proof. intros _. unfold dot. rewrite Hagree. reflexivity. Qed.

Lemma I_le_P : I <= P.
Proof. destruct (kPadded_multiple I) as (k & Hk & HI). fold P in Hk. lia. Qed.

Lemma dot_padded i input :
  i < O -> length input = P -> dot P (i * P) weights input = dot I (i * P) weights input.
Proof.
  intros Hi Hlen. apply dot_padding; [apply I_le_P|nia|lia|].
  intros j Hj. rewrite Hzero by assumption. lia.
Qed.

Lemma affine_sum_agree a i :
  i < O ->
  affine_sum I biases weights (summed_inputs a I) input1 i
  = affine_sum I biases weights (summed_inputs a I) input2 i.
Proof.
  intros Hi. unfold affine_sum. fold P. f_equal. f_equal.
  destruct a; cbn [summed_inputs]; fold P;
    rewrite ?(dot_padded i input1 Hi Hinput1), ?(dot_padded i input2 Hi Hinput2);
    apply dot_agree, Hi.
Qed.

Lemma exact_agree a :
  dispatched a = false -> narrow_products a = false ->
  affine I O biases weights a input1 = affine I O biases weights a input2.
Proof.
  intros Hd Hn.
  rewrite (affine_value I O biases weights a input1 Hweights Hbiases Hint8 Hint32)
    by (congruence || (split; [fold P; lia|congruence])).
  rewrite (affine_value I O biases weights a input2 Hweights Hbiases Hint8 Hint32)
    by (congruence || (split; [fold P; lia|congruence])).
  f_equal. apply map_ext_in. intros i Hi. apply in_seq in Hi.
  apply affine_sum_agree. lia.
Qed.

(** Garbage in the padding of the input never reaches the output. *)
Lemma affine_padding a :
  affine I O biases weights a input1 = affine I O biases weights a input2.
Proof.
  destruct a as [v|v| | | | |].
  - apply avx512_agree.
  - apply avx2_agree.
  - apply ssse3_agree.
  - apply exact_agree; reflexivity.
  - apply exact_agree; reflexivity.
  - apply neon_agree.
  - apply exact_agree; reflexivity.
Qed.
End Padding.
(** ** The propagation buffer *)

Lemma nth_error_upds_outside {A} (l xs : list A) i p :
  p < i \/ i + length xs <= p ->
  nth_error (List.upds l i xs) p = nth_error l p.
Proof.
  intros Hp. destruct (Nat.le_gt_cases (length l) i) as [Hi|Hi].
  { rewrite List.upds_same by exact Hi. reflexivity. }
  unfold List.upds. destruct Hp as [Hp|Hp].
  - rewrite nth_error_app1 by (rewrite length_firstn; lia).
    apply nth_error_firstn_lt || (rewrite nth_error_firstn;
      destruct (Nat.ltb_spec p i); [reflexivity|lia]).
  - destruct (Nat.le_gt_cases (length l) p) as [Hlp|Hlp].
    + transitivity (@None A); [|symmetry; apply nth_error_None; exact Hlp].
      apply nth_error_None.
      rewrite !length_app, !length_firstn, length_skipn. lia.
    + rewrite nth_error_app2 by (rewrite length_firstn; lia).
      rewrite nth_error_app2 by (rewrite !length_firstn; lia).
      rewrite nth_error_skipn, !length_firstn. f_equal. lia.
Qed.

Lemma write_output_frame buffer mem i v p :
  p < buffer + i * 4 \/ buffer + (i + length v) * 4 <= p ->
  nth_error (write_output buffer mem i v) p = nth_error mem p.
Proof.
  intros Hp. unfold write_output, sizeof_OutputType.
  apply nth_error_upds_outside. rewrite length_pack32. lia.
Qed.

Lemma write_output_length buffer mem i v :
  length (write_output buffer mem i v) = length mem.
Proof. apply List.upds_length. Qed.

Lemma stores_frame O buffer input : forall stores mem,
  stores_within O stores ->
  let mem' := fold_left (fun mem (st : store) =>
                           write_output buffer mem (fst st) (snd st (skipn input mem)))
                        stores mem in
  length mem' = length mem /\
  forall p, p < buffer \/ buffer + O * 4 <= p -> nth_error mem' p = nth_error mem p.
Proof.
  induction stores as [|st stores IH]; intros mem Hw; cbn [fold_left].
  - split; reflexivity.
  - inversion Hw as [|? ? Hst Hrest]; subst.
    destruct (IH (write_output buffer mem (fst st) (snd st (skipn input mem))) Hrest)
      as [Hlen Hframe].
    split.
    + rewrite Hlen. apply write_output_length.
    + intros p Hp. rewrite Hframe by exact Hp. apply write_output_frame.
      specialize (Hst (skipn input mem)). nia.
Qed.

Lemma haddx4_length biases i X :
  length (epi32 (add_epi32 X (bias128 biases i))) <= 4.
Proof.
  unfold epi32. rewrite length_map, add_epi32_lanes, length_map, zipWith_length.
  unfold bias128. rewrite lanes32_pack32, length_map, length_firstn. lia.
Qed.

Lemma kernel_stores_within I O biases weights a stores :
  kernel I O biases weights a = Some stores -> stores_within O stores.
Proof.
  assert (Hrow : forall row, rowwise O row = Some stores -> stores_within O stores).
  { unfold rowwise. intros row Heq.
    assert (Hst : stores = map (fun i => (i, fun input => [row i input])) (seq 0 O))
      by congruence.
    clear Heq. subst stores. apply Forall_forall. intros st Hst.
    apply in_map_iff in Hst. destruct Hst as (i & Hst & Hi). subst st.
    apply in_seq in Hi. intros x. cbn [fst snd length]. lia. }
  assert (Hdisp : forall block single,
             (forall i x, length (block i x) <= 4) ->
             (forall x, length (single x) = 1) ->
             dispatch O block single = Some stores -> stores_within O stores).
  { intros block single Hb Hs. unfold dispatch.
    destruct (O mod 4 =? 0) eqn:E4.
    - apply Nat.eqb_eq in E4. intros Heq.
      assert (Hst : stores = map (fun k => (4 * k, block (4 * k))) (seq 0 (O / 4)))
        by congruence.
      clear Heq. subst stores. apply Forall_forall. intros st Hst.
      apply in_map_iff in Hst. destruct Hst as (k & Hst & Hk). subst st.
      apply in_seq in Hk.
      intros x. cbn [fst snd]. specialize (Hb (4 * k) x).
      pose proof (Nat.div_mod_eq O 4). lia.
    - destruct (O =? 1) eqn:E1; [|discriminate].
      apply Nat.eqb_eq in E1. intros Heq.
      assert (Hst : stores = [(0, single)]) by congruence.
      clear Heq. subst stores. constructor; [|constructor].
      intros x. cbn [fst snd]. rewrite Hs. lia. }
  destruct a as [v|v| | | | |]; cbn [kernel]; eauto.
  - apply Hdisp.
    + intros i x. unfold avx512_block.
      destruct (_ =? 0); destruct (dot_rows4 _ _ _ _ _ _ _ _) as [[[s0 s1] s2] s3];
        apply haddx4_length.
    + intros x. unfold avx512_single. destruct (_ =? 0); reflexivity.
  - apply Hdisp.
    + intros i x. unfold avx2_block.
      destruct (dot_rows4 _ _ _ _ _ _ _ _) as [[[s0 s1] s2] s3]. apply haddx4_length.
    + intros x. reflexivity.
  - apply Hdisp.
    + intros i x. unfold ssse3_block.
      destruct (dot_rows4 _ _ _ _ _ _ _ _) as [[[s0 s1] s2] s3]. apply haddx4_length.
    + intros x. reflexivity.
Qed.

Lemma kSelfBufferSize_fits O :
  O * 4 <= kSelfBufferSize O /\ kSelfBufferSize O mod kCacheLineSize = 0.
Proof.
  unfold kSelfBufferSize, sizeof_OutputType.
  destruct (CeilToMultiple_spec (O * 4) kCacheLineSize) as (k & Hk & Hr);
    [unfold kCacheLineSize; lia|].
  rewrite Hk. split; [lia|]. apply Nat.Div0.mod_mul.
Qed.

(** ** From the stores to the buffer *)

Lemma tiles_le good target s stores e : tiles good target s stores e -> s <= e.
Proof. induction 1; lia. Qed.

Lemma region_unchanged (m1 m2 : list byte) start n :
  (forall p, start <= p < start + n -> nth_error m2 p = nth_error m1 p) ->
  firstn n (skipn start m2) = firstn n (skipn start m1).
Proof.
  intros H. apply nth_error_ext. intros k.
  rewrite !nth_error_firstn, !nth_error_skipn.
  destruct (Nat.ltb_spec k n); [|reflexivity]. apply H. lia.
Qed.

Lemma write_output_region buffer mem i v input n :
  input + n <= buffer + i * 4 \/ buffer + (i + length v) * 4 <= input ->
  firstn n (skipn input (write_output buffer mem i v)) = firstn n (skipn input mem).
Proof.
  intros Hd. apply region_unchanged. intros p Hp. apply write_output_frame. lia.
Qed.

Lemma tiles_fold good target P buffer input x0 :
  (forall x i, firstn P x = x0 -> target x i = target x0 i) ->
  (forall x, firstn P x = x0 -> P <= length x -> good x) ->
  forall s stores e,
    tiles good target s stores e ->
    forall mem,
      input + P <= length mem ->
      firstn P (skipn input mem) = x0 ->
      input + P <= buffer \/ buffer + e * 4 <= input ->
      fold_left (fun mem (st : store) =>
                   write_output buffer mem (fst st) (snd st (skipn input mem)))
                stores mem
      = List.upds mem (buffer + s * 4) (pack32 (map (target x0) (seq s (e - s)))).
Proof.
  intros Hlocal Hgood s stores e Ht.
  induction Ht as [n|start len f rest stop Hf Ht IH]; intros mem Hlen Hx0 Hd.
  - rewrite Nat.sub_diag. cbn [fold_left seq map pack32 flat_map].
    rewrite List.upds_nil'. reflexivity.
  - pose proof (tiles_le _ _ _ _ _ Ht) as Hle.
    cbn [fold_left fst snd].
    assert (Hval : f (skipn input mem) = map (target x0) (seq start len)).
    { rewrite Hf by (apply Hgood; [exact Hx0|rewrite length_skipn; lia]).
      apply map_ext. intros i. apply Hlocal, Hx0. }
    rewrite Hval.
    rewrite IH.
    + unfold write_output, sizeof_OutputType.
      replace (stop - start) with (len + (stop - (start + len))) by lia.
      rewrite seq_app, map_app, pack32_app, List.upds_app.
      f_equal. rewrite length_pack32, length_map, length_seq. lia.
    + rewrite write_output_length. exact Hlen.
    + rewrite write_output_region; [exact Hx0|].
      rewrite length_map, length_seq. lia.
    + exact Hd.
Qed.

Lemma affine_sum_local I biases weights n P x i :
  n <= P ->
  affine_sum I biases weights n x i = affine_sum I biases weights n (firstn P x) i.
Proof.
  intros Hn. unfold affine_sum, dot. rewrite firstn_firstn.
  replace (Nat.min n P) with n by lia. reflexivity.
Qed.

Lemma summed_inputs_le a I : summed_inputs a I <= kPaddedInputDimensions I.
Proof.
  destruct (kPadded_multiple I) as (k & Hk & HI).
  destruct a; cbn [summed_inputs]; lia.
Qed.

Section PropagateProps.
Local Set Default Proof Using "All".
Context {PreviousLayer : Type} `{Layer PreviousLayer}.
Variable O : nat.
Local Abbreviation Self := (AffineTransform PreviousLayer O).

Lemma Propagate_inv a (l : Self) features buffer mem mem' out :
  Propagate a l features buffer mem = Some (mem', out) ->
  out = buffer /\
  exists mem1 input stores,
    Propagate a (previous_layer_ l) features (buffer + kSelfBufferSize O) mem
      = Some (mem1, input) /\
    kernel kInputDimensions O (biases_ l) (weights_ l) a = Some stores /\
    mem' = fold_left (fun mem (st : store) =>
                        write_output buffer mem (fst st) (snd st (skipn input mem)))
                     stores mem1.
Proof.
  cbn [Propagate AffineTransform_Layer]. unfold AffineTransform_Propagate.
  destruct (Propagate a (previous_layer_ l) features (buffer + kSelfBufferSize O) mem)
    as [[mem1 input]|]; [|discriminate].
  destruct (kernel kInputDimensions O (biases_ l) (weights_ l) a) as [stores|];
    [|discriminate].
  intros Heq. assert (E1 : mem' = fold_left
                        (fun mem (st : store) =>
                           write_output buffer mem (fst st) (snd st (skipn input mem)))
                        stores mem1) by congruence.
  assert (E2 : out = buffer) by congruence.
  split; [exact E2|]. exists mem1, input, stores. auto.
Qed.

(** What [Propagate] leaves in the buffer, when the input its predecessor
    hands over lies clear of this layer's output. *)
Lemma Propagate_writes a (l : Self) features buffer mem mem1 input mem' out :
  well_formed l ->
  Propagate a (previous_layer_ l) features (buffer + kSelfBufferSize O) mem
    = Some (mem1, input) ->
  Propagate a l features buffer mem = Some (mem', out) ->
  input + kPadded <= length mem1 ->
  input + kPadded <= buffer \/ buffer + O * 4 <= input ->
  let x := firstn kPadded (skipn input mem1) in
  (narrow_products a = true -> input_7bit x) ->
  out = buffer /\
  mem' = List.upds mem1 buffer
           (pack32 (map (affine_sum kInputDimensions (biases_ l) (weights_ l)
                                    (summed_inputs a kInputDimensions) x)
                        (seq 0 O))).
Proof.
  intros [Hbl Hb32 Hwl Hw8] Hprev Hp Hlen Hd x H7.
  destruct (Propagate_inv a l features buffer mem mem' out Hp)
    as (Hout & mem1' & input' & stores & Hprev' & Hk & Hmem').
  rewrite Hprev in Hprev'. injection Hprev' as <- <-.
  split; [exact Hout|]. rewrite Hmem'.
  pose proof (kernel_tiles kInputDimensions O (biases_ l) (weights_ l)
                Hwl Hbl Hw8 Hb32 a stores Hk) as Ht.
  assert (Hlocal : forall y i, firstn kPadded y = x ->
            affine_sum kInputDimensions (biases_ l) (weights_ l)
                       (summed_inputs a kInputDimensions) y i
            = affine_sum kInputDimensions (biases_ l) (weights_ l)
                         (summed_inputs a kInputDimensions) x i).
  { intros y i Hy.
    rewrite (affine_sum_local _ _ _ _ kPadded y), Hy by apply summed_inputs_le.
    reflexivity. }
  assert (Hgood : forall y, firstn kPadded y = x -> kPadded <= length y ->
            good_input a kInputDimensions y).
  { intros y Hy Hly. split; [exact Hly|]. intros Hn.
    unfold kPadded in Hy. rewrite Hy. apply H7, Hn. }
  rewrite (tiles_fold _ _ kPadded buffer input x Hlocal Hgood 0 stores O Ht
                      mem1 Hlen eq_refl Hd).
  rewrite Nat.mul_0_l, Nat.add_0_r, Nat.sub_0_r. reflexivity.
Qed.

Context {HF : LayerFrame PreviousLayer}.

Lemma Propagate_regions a (l : Self) features buffer mem mem' out :
  Propagate a l features buffer mem = Some (mem', out) ->
  out = buffer /\
  exists mem1 input,
    Propagate a (previous_layer_ l) features (buffer + kSelfBufferSize O) mem
      = Some (mem1, input) /\
    length mem1 = length mem /\ length mem' = length mem /\
    (forall p, p < buffer + kSelfBufferSize O
               \/ buffer + kSelfBufferSize O + kBufferSize PreviousLayer <= p ->
               nth_error mem1 p = nth_error mem p) /\
    (forall p, p < buffer \/ buffer + O * 4 <= p ->
               nth_error mem' p = nth_error mem1 p).
Proof.
  intros Hp. destruct (Propagate_inv a l features buffer mem mem' out Hp)
    as (Hout & mem1 & input & stores & Hprev & Hk & Hmem').
  split; [exact Hout|]. exists mem1, input. split; [exact Hprev|].
  destruct (Propagate_frame _ _ _ _ _ _ _ Hprev) as [Hlen1 Hframe1].
  destruct (stores_frame O buffer input stores mem1
              (kernel_stores_within _ _ _ _ _ _ Hk)) as [Hlen' Hframe'].
  rewrite <- Hmem' in Hlen', Hframe'.
  split; [exact Hlen1|]. split; [congruence|]. split; [|exact Hframe'].
  intros p Hp'. apply Hframe1. lia.
Qed.

#[export] Instance AffineTransform_Frame : LayerFrame Self.
Proof.
  constructor. intros a l features buffer mem mem' out Hp.
  destruct (Propagate_regions a l features buffer mem mem' out Hp)
    as (_ & mem1 & input & _ & Hlen1 & Hlen' & Hf1 & Hf').
  split; [exact Hlen'|]. intros p Hp'.
  cbn [kBufferSize AffineTransform_Layer] in Hp'. unfold AffineTransform_kBufferSize in Hp'.
  pose proof (kSelfBufferSize_fits O) as [Hfit _].
  rewrite Hf' by lia. apply Hf1. lia.
Qed.
End PropagateProps.
(** ** The parameter stream *)

Lemma istream_read_requests n s :
  requests (snd (istream_read n s)) = requests s ++ [n].
Proof. unfold istream_read. destruct (good s); reflexivity. Qed.

Lemma read_little_endian_requests size s :
  requests (snd (read_little_endian size s)) = requests s ++ [size].
Proof.
  unfold read_little_endian. pose proof (istream_read_requests size s) as H.
  destruct (istream_read size s); exact H.
Qed.

Lemma read_array_requests size n s arr :
  requests (fst (read_array size n s arr)) = requests s ++ repeat size n.
Proof.
  unfold read_array.
  apply (for_invariant (fun i (st : istream * list Z) =>
           requests (fst st) = requests s ++ repeat size i)).
  - simpl. rewrite app_nil_r. reflexivity.
  - intros i [s1 a1] _ IH. simpl in IH.
    pose proof (read_little_endian_requests size s1) as Hr.
    destruct (read_little_endian size s1) as [v s2]. simpl in *.
    rewrite Hr, IH, <- app_assoc. f_equal.
    symmetry. apply repeat_cons.
Qed.

Lemma istream_read_exact n s bs rest :
  good s = true -> pending s = bs ++ rest -> length bs = n ->
  istream_read n s =
  (bs, {| pending := rest; eofbit := false; failbit := false;
          requests := requests s ++ [n] |}).
Proof.
  intros Hg Hp Hl. unfold istream_read. rewrite Hg, Hp.
  rewrite firstn_app, skipn_app, Hl, Nat.sub_diag. simpl.
  rewrite <- Hl, firstn_all, skipn_all, !app_nil_r, Nat.sub_diag, Nat.ltb_irrefl.
  simpl. rewrite app_nil_r. reflexivity.
Qed.

Lemma read_little_endian_exact size s v rest :
  good s = true -> pending s = le_split size v ++ rest -> 0 < size ->
  read_little_endian size s =
  (swrap (8 * Z.of_nat size) v,
   {| pending := rest; eofbit := false; failbit := false;
      requests := requests s ++ [size] |}).
Proof.
  intros Hg Hp Hs. unfold read_little_endian.
  rewrite (istream_read_exact size s (le_split size v) rest Hg Hp (length_le_split _ _)).
  f_equal. rewrite le_combine_split.
  replace (Z.of_nat size * 8)%Z with (8 * Z.of_nat size)%Z by lia.
  apply swrap_of_mod. lia.
Qed.

Lemma read_array_exact size vals : 0 < size ->
  forall start s arr rest,
  good s = true -> pending s = flat_map (le_split size) vals ++ rest ->
  fold_left (fun (st : istream * list Z) i =>
               (fun '(stream, array) =>
                  let '(v, stream) := read_little_endian size stream in
                  (stream, List.upd array i v)) st)
            (seq start (length vals)) (s, arr) =
  ({| pending := rest; eofbit := false; failbit := false;
      requests := requests s ++ repeat size (length vals) |},
   List.upds arr start (map (swrap (8 * Z.of_nat size)) vals)).
Proof.
  intros Hs. induction vals as [|v vals IH]; intros start s arr rest Hg Hp.
  - simpl in *. rewrite app_nil_r, List.upds_nil'.
    destruct s as [p e f r]; simpl in *.
    unfold good in Hg; simpl in Hg.
    destruct e, f; try discriminate. subst. reflexivity.
  - simpl in Hp. rewrite <- app_assoc in Hp.
    cbn [length seq fold_left].
    rewrite (read_little_endian_exact size s v _ Hg Hp Hs).
    rewrite IH with (rest := rest) by reflexivity.
    cbn [requests]. f_equal.
    + f_equal. rewrite <- app_assoc. reflexivity.
    + cbn [map]. change (swrap (8 * Z.of_nat size) v :: map (swrap (8 * Z.of_nat size)) vals)
        with ([swrap (8 * Z.of_nat size) v] ++ map (swrap (8 * Z.of_nat size)) vals).
      rewrite List.upds_app. unfold List.upd. f_equal.
Qed.

Lemma read_array_success size n vals s arr rest :
  0 < size -> length vals = n -> length arr = n ->
  good s = true -> pending s = flat_map (le_split size) vals ++ rest ->
  read_array size n s arr =
  ({| pending := rest; eofbit := false; failbit := false;
      requests := requests s ++ repeat size n |},
   map (swrap (8 * Z.of_nat size)) vals).
Proof.
  intros Hs Hv Ha Hg Hp. subst n. unfold read_array, for_.
  rewrite (read_array_exact size vals Hs 0 s arr rest Hg Hp).
  rewrite List.upds_replace by (rewrite length_map; lia). reflexivity.
Qed.

(** ** The stream and the arrays after a run of reads *)

Lemma istream_read_enough n s :
  good s = true -> n <= length (pending s) ->
  good (snd (istream_read n s)) = true /\
  pending (snd (istream_read n s)) = skipn n (pending s).
Proof.
  intros Hg Hn. unfold istream_read. rewrite Hg. cbn [snd pending good eofbit failbit].
  rewrite length_firstn, Nat.min_l by exact Hn. rewrite Nat.ltb_irrefl.
  split; reflexivity.
Qed.

Lemma istream_read_short n s :
  good s = false \/ length (pending s) < n -> fail (snd (istream_read n s)) = true.
Proof.
  intros Hs. unfold istream_read. destruct (good s) eqn:Hg; [|reflexivity].
  destruct Hs as [Hs|Hs]; [discriminate|].
  cbn [snd fail failbit]. apply Nat.ltb_lt. rewrite length_firstn. lia.
Qed.

Lemma fail_not_good s : fail s = true -> good s = false.
Proof. unfold fail, good. intros ->. apply andb_false_r. Qed.

Lemma read_array_S size n s arr :
  read_array size (S n) s arr
  = (let '(stream, array) := read_array size n s arr in
     let '(v, stream) := read_little_endian size stream in
     (stream, List.upd array n v)).
Proof. unfold read_array. rewrite for_S. reflexivity. Qed.

Lemma read_array_stream_S size n s arr :
  fst (read_array size (S n) s arr)
  = snd (istream_read size (fst (read_array size n s arr))).
Proof.
  rewrite read_array_S. destruct (read_array size n s arr) as [s1 a1].
  cbn [fst]. unfold read_little_endian. destruct (istream_read size s1). reflexivity.
Qed.

Lemma read_array_enough size n s arr :
  good s = true -> n * size <= length (pending s) ->
  good (fst (read_array size n s arr)) = true /\
  pending (fst (read_array size n s arr)) = skipn (n * size) (pending s).
Proof.
  intros Hg. induction n as [|n IH]; intros Hn.
  - split; [exact Hg|reflexivity].
  - destruct IH as [IHg IHp]; [lia|].
    rewrite read_array_stream_S.
    destruct (istream_read_enough size _ IHg) as [Hg' Hp'].
    + rewrite IHp, length_skipn. pose proof (Nat.mul_succ_l n size). lia.
    + split; [exact Hg'|]. rewrite Hp', IHp, skipn_skipn. f_equal; lia.
Qed.

Lemma read_array_sticky size n s arr :
  fail s = true -> fail (fst (read_array size n s arr)) = true.
Proof.
  intros Hf. induction n as [|n IH]; [exact Hf|].
  rewrite read_array_stream_S. apply istream_read_short. left.
  apply fail_not_good, IH.
Qed.

Lemma read_array_short size n s arr :
  (good s = false /\ 0 < n) \/ length (pending s) < n * size ->
  fail (fst (read_array size n s arr)) = true.
Proof.
  induction n as [|n IH]; intros Hs; [lia|].
  rewrite read_array_stream_S. apply istream_read_short.
  destruct (good (fst (read_array size n s arr))) eqn:Hg1; [right|left; reflexivity].
  destruct (good s) eqn:Hg.
  - destruct Hs as [[Hs _]|Hs]; [discriminate|].
    destruct (Nat.le_gt_cases (n * size) (length (pending s))) as [Hle|Hgt].
    + destruct (read_array_enough size n s arr Hg Hle) as [_ Hp].
      rewrite Hp, length_skipn. pose proof (Nat.mul_succ_l n size). lia.
    + rewrite (fail_not_good _ (IH (or_intror Hgt))) in Hg1. discriminate.
  - destruct n as [|n].
    + cbn in Hg1. congruence.
    + rewrite (fail_not_good _ (IH (or_introl (conj eq_refl (Nat.lt_0_succ n))))) in Hg1.
      discriminate.
Qed.

Lemma good_not_fail s : good s = true -> fail s = false.
Proof.
  unfold good, fail. intros Hg. apply andb_true_iff in Hg.
  destruct Hg as [_ Hf]. apply negb_true_iff, Hf.
Qed.

Lemma istream_read_idle n s :
  good s = false -> pending (snd (istream_read n s)) = pending s.
Proof. intros Hg. unfold istream_read. rewrite Hg. reflexivity. Qed.

(** The stream after [n] reads of [size] bytes from a good stream. *)
Lemma read_array_stream size n s arr :
  0 < size -> good s = true ->
  pending (fst (read_array size n s arr)) = skipn (n * size) (pending s) /\
  (good (fst (read_array size n s arr)) = true <-> n * size <= length (pending s)) /\
  (fail (fst (read_array size n s arr)) = false <-> n * size <= length (pending s)).
Proof.
  intros Hs Hg. induction n as [|n IH].
  - cbn [Nat.mul skipn]. change (fst (read_array size 0 s arr)) with s.
    rewrite Hg, (good_not_fail s Hg). repeat split; intros; lia || reflexivity.
  - destruct IH as (IHp & IHg & IHf). rewrite read_array_stream_S.
    set (s1 := fst (read_array size n s arr)) in *.
    pose proof (Nat.mul_succ_l n size) as Hmul.
    destruct (Nat.le_gt_cases (n * size) (length (pending s))) as [Hle|Hgt].
    + assert (Hg1 : good s1 = true) by (apply IHg, Hle).
      unfold istream_read. rewrite Hg1.
      cbn [snd pending good fail eofbit failbit].
      rewrite IHp, skipn_skipn, length_firstn, length_skipn.
      replace (size + n * size) with (S n * size) by lia.
      split; [reflexivity|].
      destruct (Nat.ltb_spec (Nat.min size (length (pending s) - n * size)) size)
        as [Hlt|Hge]; cbn [negb andb]; split; split; intros; try discriminate;
        try reflexivity; lia.
    + assert (Hg1 : good s1 = false).
      { destruct (good s1) eqn:E; [|reflexivity].
        assert (n * size <= length (pending s)) by (apply IHg; reflexivity). lia. }
      rewrite (istream_read_idle size s1 Hg1), IHp.
      rewrite !skipn_all2 by lia. split; [reflexivity|].
      rewrite (fail_not_good _ (istream_read_short size s1 (or_introl Hg1))).
      rewrite (istream_read_short size s1 (or_introl Hg1)).
      split; split; intros; try discriminate; lia.
Qed.

Lemma read_array_length size n s arr :
  length (snd (read_array size n s arr)) = length arr.
Proof.
  induction n as [|n IH]; [reflexivity|].
  rewrite read_array_S. destruct (read_array size n s arr) as [s1 a1].
  destruct (read_little_endian size s1) as [v s2]. cbn [snd] in *.
  rewrite List.upd_length. exact IH.
Qed.

(** The cells filled by reads that found their bytes. *)
Lemma read_array_values size n s arr i :
  0 < size -> good s = true -> n <= length arr ->
  i < n -> (i + 1) * size <= length (pending s) ->
  nth i (snd (read_array size n s arr)) 0%Z
  = swrap (8 * Z.of_nat size)
          (le_combine (firstn size (skipn (i * size) (pending s)))).
Proof.
  intros Hs Hg. induction n as [|n IH]; intros Hn Hi Hp; [lia|].
  pose proof (read_array_stream size n s arr Hs Hg) as (Sp & Sg & _).
  pose proof (read_array_length size n s arr) as Hlen.
  rewrite read_array_S. destruct (read_array size n s arr) as [s1 a1].
  cbn [fst snd] in *.
  unfold read_little_endian.
  destruct (istream_read size s1) as [u s2] eqn:Hr. cbn [snd].
  destruct (Nat.eq_dec i n) as [->|Hne].
  - rewrite List.nth_upd_same by lia. f_equal. f_equal.
    assert (Hg1 : good s1 = true) by (apply Sg; lia).
    unfold istream_read in Hr. rewrite Hg1 in Hr. injection Hr as <- _.
    rewrite Sp, length_firstn, length_skipn.
    replace (size - Nat.min size (length (pending s) - n * size)) with 0 by lia.
    apply app_nil_r.
  - rewrite List.nth_upd_diff by exact Hne. apply IH; lia.
Qed.

Lemma read_array_idle size n s arr :
  good s = false -> pending (fst (read_array size n s arr)) = pending s.
Proof.
  intros Hg. induction n as [|n IH]; [reflexivity|].
  rewrite read_array_stream_S.
  destruct n as [|n].
  - change (fst (read_array size 0 s arr)) with s. apply istream_read_idle, Hg.
  - rewrite istream_read_idle; [exact IH|].
    apply fail_not_good. apply read_array_short. left. split; [exact Hg|lia].
Qed.

Section ReadParametersProps.
Context {PreviousLayer : Type} `{Layer PreviousLayer}.
Variable O : nat.
Local Abbreviation Self := (AffineTransform PreviousLayer O).

(** C3: when the predecessor's [ReadParameters] reports failure, this layer's
    reports failure too, hands the stream back as the predecessor left it
    (nothing further is read), and keeps its biases and weights as they
    were. *)
Theorem ReadParameters_predecessor_failure (stream stream0 : istream) (l : Self) prev' :
  ReadParameters stream (previous_layer_ l) = (false, stream0, prev') ->
  exists l' : Self,
    ReadParameters stream l = (false, stream0, l') /\
    previous_layer_ l' = prev' /\
    biases_ l' = biases_ l /\ weights_ l' = weights_ l.
Proof.
  intros Hprev. cbn [ReadParameters AffineTransform_Layer].
  unfold AffineTransform_ReadParameters. rewrite Hprev. cbn [negb].
  eexists. split; [reflexivity|]. cbn. auto.
Qed.

(** C10: when the predecessor's [ReadParameters] succeeds, this layer issues
    every one of its reads, [kOutputDimensions] of 4 bytes and then
    [kOutputDimensions * kPaddedInputDimensions] of 1 byte, whatever state
    the stream gets into on the way, and returns success exactly when the
    fail flag is unset after the last of them.  From a good stream the reads
    take the [4 * kOutputDimensions + kOutputDimensions *
    kPaddedInputDimensions] bytes that follow, or all that is left when there
    are fewer, and the fail flag ends unset exactly when they were all there;
    every bias and weight whose bytes were there holds their little-endian
    signed value afterwards, also when the call fails.  From a stream that is
    not good the call fails. *)
Theorem ReadParameters_reads_everything (stream stream0 : istream) (l : Self) prev' :
  dims_ok (kOutputDimensions PreviousLayer) O ->
  length (biases_ l) = O -> length (weights_ l) = O * kPadded ->
  ReadParameters stream (previous_layer_ l) = (true, stream0, prev') ->
  exists (stream' : istream) (l' : Self),
    ReadParameters stream l = (negb (fail stream'), stream', l') /\
    requests stream' =
      requests stream0 ++ repeat 4 O ++ repeat 1 (O * kPadded) /\
    previous_layer_ l' = prev' /\
    (good stream0 = false -> 0 < O -> fail stream' = true) /\
    (good stream0 = true ->
     let p := pending stream0 in
     pending stream' = skipn (4 * O + O * kPadded) p /\
     (fail stream' = false <-> 4 * O + O * kPadded <= length p) /\
     (forall i, i < O -> 4 * (i + 1) <= length p ->
        nth i (biases_ l') 0%Z = int32 (le_combine (firstn 4 (skipn (4 * i) p)))) /\
     (forall i, i < O * kPadded -> 4 * O + (i + 1) <= length p ->
        nth i (weights_ l') 0%Z
        = int8 (le_combine (firstn 1 (skipn (4 * O + i) p))))).
Proof.
  intros _ Hlb Hlw Hprev. cbn [ReadParameters AffineTransform_Layer].
  unfold AffineTransform_ReadParameters. rewrite Hprev. cbn [negb].
  pose proof (read_array_requests 4 O stream0 (biases_ l)) as Rb.
  destruct (read_array 4 O stream0 (biases_ l)) as [s1 bs] eqn:Eb. cbn [fst] in Rb.
  pose proof (read_array_requests 1 (O * kPadded) s1 (weights_ l)) as Rw.
  destruct (read_array 1 (O * kPadded) s1 (weights_ l)) as [s2 ws] eqn:Ew.
  cbn [fst] in Rw.
  assert (Es1 : s1 = fst (read_array 4 O stream0 (biases_ l))) by (rewrite Eb; reflexivity).
  assert (Ebs : bs = snd (read_array 4 O stream0 (biases_ l))) by (rewrite Eb; reflexivity).
  assert (Es2 : s2 = fst (read_array 1 (O * kPadded) s1 (weights_ l)))
    by (rewrite Ew; reflexivity).
  assert (Ews : ws = snd (read_array 1 (O * kPadded) s1 (weights_ l)))
    by (rewrite Ew; reflexivity).
  exists s2. eexists. split; [reflexivity|]. cbn [previous_layer_ biases_ weights_].
  split; [rewrite Rw, Rb, <- app_assoc; reflexivity|]. split; [reflexivity|]. split.
  - intros Hg HO. rewrite Es2. apply read_array_sticky.
    rewrite Es1. apply read_array_short. left. split; [exact Hg|exact HO].
  - intros Hg. set (p := pending stream0).
    destruct (read_array_stream 4 O stream0 (biases_ l) ltac:(lia) Hg)
      as (Sp & Sg & Sf).
    rewrite <- Es1 in Sp, Sg, Sf. fold p in Sp, Sg, Sf.
    assert (Hbias : forall i, i < O -> 4 * (i + 1) <= length p ->
              nth i bs 0%Z = int32 (le_combine (firstn 4 (skipn (4 * i) p)))).
    { intros i Hi Hp. rewrite Ebs.
      rewrite (read_array_values 4 O stream0 (biases_ l) i)
        by (first [exact Hg | unfold p in *; lia]).
      fold p. replace (i * 4) with (4 * i) by lia. reflexivity. }
    destruct (Nat.le_gt_cases (O * 4) (length p)) as [Hle|Hgt].
    + assert (Hg1 : good s1 = true) by (apply Sg, Hle).
      destruct (read_array_stream 1 (O * kPadded) s1 (weights_ l) ltac:(lia) Hg1)
        as (Wp & _ & Wf).
      rewrite <- Es2 in Wp, Wf. rewrite Sp, skipn_skipn in Wp.
      rewrite Sp, length_skipn in Wf.
      split; [rewrite Wp; f_equal; lia|].
      split; [rewrite Wf; lia|]. split; [exact Hbias|].
      intros i Hi Hp. rewrite Ews.
      rewrite (read_array_values 1 (O * kPadded) s1 (weights_ l) i)
        by (try exact Hg1; rewrite ?Sp, ?length_skipn; lia).
      rewrite Sp, skipn_skipn. unfold int8.
      replace (i * 1 + O * 4) with (4 * O + i) by lia. reflexivity.
    + assert (Hf1 : fail s1 = true).
      { destruct (fail s1) eqn:E; [reflexivity|].
        assert (O * 4 <= length p) by (apply Sf; reflexivity). lia. }
      assert (Hf2 : fail s2 = true) by (rewrite Es2; apply read_array_sticky, Hf1).
      assert (Hp2 : pending s2 = pending s1)
        by (rewrite Es2; apply read_array_idle, fail_not_good, Hf1).
      split; [rewrite Hp2, Sp, !skipn_all2 by lia; reflexivity|].
      split; [rewrite Hf2; split; [discriminate|lia]|].
      split; [exact Hbias|]. intros i Hi Hp. lia.
Qed.

Lemma map_swrap_small bits (vals : list Z) :
  (0 < bits)%Z ->
  Forall (fun z => (- 2 ^ (bits - 1) <= z < 2 ^ (bits - 1))%Z) vals ->
  map (swrap bits) vals = vals.
Proof.
  intros Hb Hall. induction Hall as [|v vals Hv _ IH]; [reflexivity|].
  cbn [map]. rewrite IH, swrap_small by assumption. reflexivity.
Qed.

(** C4: biases (signed 32-bit) and weights (signed 8-bit) serialized in the
    documented layout, biases first as little-endian 32-bit and then the
    weights row by row as single bytes, with nothing in between, are read
    back unchanged by [ReadParameters] from a stream that holds them after
    the predecessor's block; the call succeeds and leaves the stream good at
    the first byte after them. *)
Theorem ReadParameters_round_trip (stream stream0 : istream) (l : Self) prev'
        (biases weights : list Z) (rest : list byte) :
  dims_ok (kOutputDimensions PreviousLayer) O ->
  length (biases_ l) = O -> length (weights_ l) = O * kPadded ->
  length biases = O -> Forall is_int32 biases ->
  length weights = O * kPadded -> Forall is_int8 weights ->
  ReadParameters stream (previous_layer_ l) = (true, stream0, prev') ->
  good stream0 = true ->
  pending stream0 = serialize biases weights ++ rest ->
  exists stream' : istream,
    ReadParameters stream l =
      (true, stream',
       {| previous_layer_ := prev'; biases_ := biases; weights_ := weights |}) /\
    pending stream' = rest /\ good stream' = true.
Proof.
  intros _ Hlb Hlw Hb Hb32 Hw Hw8 Hprev Hgood Hpend.
  cbn [ReadParameters AffineTransform_Layer].
  unfold AffineTransform_ReadParameters. rewrite Hprev. cbn [negb].
  unfold serialize in Hpend. rewrite <- app_assoc in Hpend.
  rewrite (read_array_success 4 O biases stream0 (biases_ l) _
             ltac:(lia) Hb Hlb Hgood Hpend).
  erewrite (read_array_success 1 (O * kPadded) weights _ (weights_ l) rest
              ltac:(lia) Hw Hlw); [|reflexivity|reflexivity].
  cbn [fail failbit negb].
  rewrite (map_swrap_small (8 * Z.of_nat 4) biases) by (lia || exact Hb32).
  rewrite (map_swrap_small (8 * Z.of_nat 1) weights)
    by (lia || (eapply Forall_impl; [|exact Hw8]; unfold is_int8; simpl; intros; lia)).
  eexists. split; [reflexivity|]. split; reflexivity.
Qed.
End ReadParametersProps.

Lemma lxor_uint32 a b :
  (0 <= a < 2 ^ 32 -> 0 <= b < 2 ^ 32 -> 0 <= Z.lxor a b < 2 ^ 32)%Z.
Proof.
  intros Ha Hb. split; [apply Z.lxor_nonneg; lia|].
  destruct (Z.eq_dec (Z.lxor a b) 0) as [->|Hne]; [lia|].
  assert (0 <= Z.lxor a b)%Z by (apply Z.lxor_nonneg; lia).
  apply Z.log2_lt_pow2; [lia|].
  eapply Z.le_lt_trans; [apply Z.log2_lxor; lia|].
  apply Z.max_lub_lt.
  - destruct (Z.eq_dec a 0) as [->|]; [simpl; lia|]. apply Z.log2_lt_pow2; lia.
  - destruct (Z.eq_dec b 0) as [->|]; [simpl; lia|]. apply Z.log2_lt_pow2; lia.
Qed.

(** C5: [GetHashValue] is [(0xCC03DAE4 + kOutputDimensions) XOR
    (predecessor_hash >> 1) XOR (predecessor_hash << 31)] with the sum and the
    left shift reduced to 32 bits, a 32-bit value whenever the predecessor's
    hash is; it is a constant of the layer type, so it does not depend on
    biases or weights, and two layers with the same output dimension over
    predecessors of the same hash have the same hash. *)
Theorem GetHashValue_formula {PreviousLayer : Type} `{Layer PreviousLayer} (O : nat) :
  let predecessor_hash := GetHashValue PreviousLayer in
  GetHashValue (AffineTransform PreviousLayer O) =
    Z.lxor (Z.lxor (uint32 (0xCC03DAE4 + Z.of_nat O))
                   (Z.shiftr predecessor_hash 1))
           (uint32 (Z.shiftl predecessor_hash 31))
  /\ ((0 <= predecessor_hash < 2 ^ 32)%Z ->
      (0 <= GetHashValue (AffineTransform PreviousLayer O) < 2 ^ 32)%Z)
  /\ (forall (PreviousLayer' : Type) (H' : Layer PreviousLayer'),
        GetHashValue PreviousLayer' = predecessor_hash ->
        GetHashValue (AffineTransform PreviousLayer' O) =
        GetHashValue (AffineTransform PreviousLayer O)).
Proof.
  cbn zeta. split; [reflexivity|]. split.
  - intros Hp. cbn [GetHashValue AffineTransform_Layer].
    unfold AffineTransform_GetHashValue. cbn zeta.
    apply lxor_uint32; [apply lxor_uint32|].
    + unfold uint32. apply Z.mod_pos_bound. lia.
    + rewrite Z.shiftr_div_pow2 by lia. split.
      * apply Z.div_pos; lia.
      * apply Z.div_lt_upper_bound; lia.
    + unfold uint32. apply Z.mod_pos_bound. lia.
  - intros P' H' Heq. cbn [GetHashValue AffineTransform_Layer].
    unfold AffineTransform_GetHashValue. rewrite Heq. reflexivity.
Qed.
(** * The claims *)

(** ** The stand-ins keep to their share of the buffer *)

Lemma length_lanes32_le n : forall r, length r <= 4 * n -> length (lanes32 r) <= n.
Proof.
  induction n as [|n IH]; intros r Hlen.
  - destruct r; [cbn; lia|cbn in Hlen; lia].
  - destruct r as [|b0 [|b1 [|b2 [|b3 r]]]]; cbn [lanes32 length]; try lia.
    specialize (IH r). cbn [length] in Hlen. lia.
Qed.

#[export] Instance Source_Frame (n : nat) : LayerFrame (Source n).
Proof.
  constructor. intros a t features buffer mem mem' out Hp.
  cbn in Hp. injection Hp as <- <-. split; reflexivity.
Qed.

#[export] Instance Clip_Frame (PreviousLayer : Type) `{Layer PreviousLayer}
  {HF : LayerFrame PreviousLayer} : LayerFrame (Clip PreviousLayer).
Proof.
  constructor. intros a l features buffer mem mem' out Hp.
  cbn [Propagate Clip_Layer] in Hp. unfold Clip_Propagate in Hp.
  destruct (Propagate a (clip_previous_layer_ l) features
                      (buffer + Clip_kSelfBufferSize PreviousLayer) mem)
    as [[mem1 input]|] eqn:Hprev; [|discriminate].
  injection Hp as <- <-.
  destruct (Propagate_frame _ _ _ _ _ _ _ Hprev) as [Hlen1 Hframe1].
  split; [rewrite List.upds_length; exact Hlen1|].
  intros p Hp. cbn [kBufferSize Clip_Layer] in Hp.
  destruct (CeilToMultiple_spec (kOutputDimensions PreviousLayer) kCacheLineSize)
    as (k & Hk & Hr); [unfold kCacheLineSize; lia|].
  assert (Hfit : kOutputDimensions PreviousLayer <= Clip_kSelfBufferSize PreviousLayer)
    by (unfold Clip_kSelfBufferSize; lia).
  rewrite nth_error_upds_outside.
  - apply Hframe1. lia.
  - rewrite length_map. unfold epi32. rewrite length_map.
    pose proof (length_lanes32_le (kOutputDimensions PreviousLayer)
                  (firstn (kOutputDimensions PreviousLayer * 4) (skipn input mem1))
                  ltac:(rewrite length_firstn; lia)).
    lia.
Qed.

(** ** Reading the output back *)

Lemma read_back {A} (l xs : list A) b :
  b + length xs <= length l ->
  firstn (length xs) (skipn b (List.upds l b xs)) = xs.
Proof.
  intros Hb. unfold List.upds.
  rewrite skipn_app, skipn_all2 by (rewrite length_firstn; lia).
  rewrite length_firstn. replace (b - Nat.min b (length l)) with 0 by lia.
  cbn [app skipn]. rewrite (firstn_all2 xs) by lia.
  rewrite firstn_app, Nat.sub_diag, firstn_all. cbn [firstn]. apply app_nil_r.
Qed.

Lemma epi32_pack32_int32 vals :
  Forall is_int32 vals -> epi32 (pack32 vals) = vals.
Proof.
  intros Hv. unfold epi32. rewrite lanes32_pack32, map_map.
  induction Hv as [|v vals Hv _ IH]; [reflexivity|].
  cbn [map]. rewrite IH, int32_uint32, int32_small by exact Hv. reflexivity.
Qed.

Lemma affine_sums_int32 I biases weights n x l :
  Forall is_int32 (map (affine_sum I biases weights n x) l).
Proof.
  apply Forall_forall. intros v Hv. apply in_map_iff in Hv.
  destruct Hv as (i & <- & _). apply int32_is_int32.
Qed.

Section Claims.
Local Set Default Proof Using "All".
Context {PreviousLayer : Type} `{Layer PreviousLayer}.
Variable O : nat.
Local Abbreviation Self := (AffineTransform PreviousLayer O).
Local Abbreviation I := (@kInputDimensions PreviousLayer _).
Local Abbreviation P := (@kPadded PreviousLayer _).

Lemma good_input_of a input :
  length input = P -> (narrow_products a = true -> input_7bit input) ->
  good_input a I input.
Proof.
  intros Hl H7. split; [unfold kPadded in Hl; lia|].
  intros Hn. apply List.Forall_firstn, H7, Hn.
Qed.

Lemma padded_sum (l : Self) input i :
  well_formed l -> length input = P -> i < O ->
  padding_vanishes I O (weights_ l) input ->
  affine_sum I (biases_ l) (weights_ l) P input i
  = affine_sum I (biases_ l) (weights_ l) I input i.
Proof.
  intros [Hbl Hb32 Hwl Hw8] Hl Hi Hpad. unfold affine_sum. f_equal. f_equal.
  destruct (kPadded_multiple I) as (k & Hk & HI).
  apply dot_padding.
  - unfold kPadded, kPaddedInputDimensions in *. lia.
  - fold (@kPadded PreviousLayer _). rewrite Hwl. nia.
  - lia.
  - intros j Hj. apply Hpad; assumption.
Qed.

Lemma Propagate_returns a (l : Self) features buffer mem mem1 input :
  (dispatched a = true -> O = 1 \/ O mod 4 = 0) ->
  Propagate a (previous_layer_ l) features (buffer + kSelfBufferSize O) mem
    = Some (mem1, input) ->
  exists mem', Propagate a l features buffer mem = Some (mem', buffer).
Proof.
  intros HO Hprev. cbn [Propagate AffineTransform_Layer].
  unfold AffineTransform_Propagate. rewrite Hprev.
  destruct (kernel kInputDimensions O (biases_ l) (weights_ l) a) as [stores|] eqn:Hk.
  - eexists. reflexivity.
  - apply kernel_None in Hk. destruct Hk as (Hd & H4 & H1).
    destruct (HO Hd); contradiction.
Qed.

(** C1 (as amended): every vectorized kernel returns, value for value, the
    output of the portable kernel, for the output dimensions the dispatch
    serves (1 or a multiple of 4), provided the input bytes are at most 127
    for the kernels that go through 16-bit products, and the products at the
    padded positions are zero. *)
Theorem kernels_agree a (l : Self) input :
  well_formed l -> dims_ok I O ->
  length input = P ->
  (dispatched a = true -> O = 1 \/ O mod 4 = 0) ->
  (narrow_products a = true -> input_7bit input) ->
  padding_vanishes I O (weights_ l) input ->
  Propagate_kernel a l input = Propagate_kernel Generic l input.
Proof.
  intros Hwf _ Hl HO H7 Hpad. pose proof Hwf as [Hbl Hb32 Hwl Hw8].
  unfold Propagate_kernel.
  rewrite (affine_value I O (biases_ l) (weights_ l) a input Hwl Hbl Hw8 Hb32 HO
             (good_input_of a input Hl H7)).
  rewrite (affine_value I O (biases_ l) (weights_ l) Generic input Hwl Hbl Hw8 Hb32)
    by (discriminate || (apply good_input_of; [exact Hl|discriminate])).
  f_equal. apply map_ext_in. intros i Hi. apply in_seq in Hi.
  cbn [summed_inputs]. fold I.
  destruct a; cbn [summed_inputs]; try reflexivity;
    apply (padded_sum l input i Hwf Hl ltac:(lia) Hpad).
Qed.

(** C6: with zero weights at the padded positions, two inputs that agree on
    the first [kInputDimensions] bytes give the same output, whatever their
    padding holds; for every kernel and every byte value. *)
Theorem padding_ignored a (l : Self) input1 input2 :
  well_formed l -> dims_ok I O ->
  padded_weights_zero I O (weights_ l) ->
  length input1 = P -> length input2 = P ->
  firstn I input1 = firstn I input2 ->
  Propagate_kernel a l input1 = Propagate_kernel a l input2.
Proof.
  intros [Hbl Hb32 Hwl Hw8] _ Hzero Hl1 Hl2 Hagree. unfold Propagate_kernel.
  apply (affine_padding I O (biases_ l) (weights_ l) input1 input2);
    assumption.
Qed.

(** C9: in the dispatching branches the [assert(false)] is reached exactly
    when the output dimension is neither a multiple of 4 nor 1, so never
    under the invariant that it is 1 or a multiple of the vector width. *)
Theorem assert_false_unreachable a (l : Self) :
  dispatched a = true ->
  (kernel I O (biases_ l) (weights_ l) a = None <-> O mod 4 <> 0 /\ O <> 1) /\
  (O = 1 \/ O mod kSimdWidth a = 0 ->
   exists stores, kernel I O (biases_ l) (weights_ l) a = Some stores).
Proof.
  intros Hd. split.
  - rewrite kernel_None. tauto.
  - intros HO. destruct (kernel I O (biases_ l) (weights_ l) a) as [stores|] eqn:Hk;
      [eauto|].
    apply kernel_None in Hk. destruct Hk as (_ & H4 & H1).
    destruct HO as [HO|HO]; [contradiction|].
    exfalso. apply H4.
    destruct a; try discriminate; cbn [kSimdWidth] in HO;
      pose proof (Nat.div_mod_eq O 32); pose proof (Nat.div_mod_eq O 16);
      pose proof (Nat.div_mod_eq O 4);
      pose proof (Nat.mod_upper_bound O 4 ltac:(lia)); lia.
Qed.

(** C2 (as amended): for a fully loaded layer whose output dimension is 1 or
    a multiple of 4 where the build dispatches on it, once the predecessor has
    returned its output inside the memory and clear of this layer's output
    slots, [Propagate] returns [buffer] and leaves in output slot [i] the
    value [bias[i] + sum over j < kPaddedInputDimensions of weight[i][j] *
    input[j]] in signed 32-bit arithmetic, provided the input bytes are at
    most 127 for the kernels that go through 16-bit products and, for the
    portable kernel (whose loop stops at [kInputDimensions]), the products at
    the padded positions are zero. *)
Theorem Propagate_output_value a (l : Self) features buffer mem mem1 input :
  well_formed l -> dims_ok I O ->
  (dispatched a = true -> O = 1 \/ O mod 4 = 0) ->
  Propagate a (previous_layer_ l) features (buffer + kSelfBufferSize O) mem
    = Some (mem1, input) ->
  input + P <= length mem1 -> buffer + O * 4 <= length mem1 ->
  input + P <= buffer \/ buffer + O * 4 <= input ->
  let x := firstn P (skipn input mem1) in
  (narrow_products a = true -> input_7bit x) ->
  (a = Generic -> padding_vanishes I O (weights_ l) x) ->
  exists mem',
    Propagate a l features buffer mem = Some (mem', buffer) /\
    epi32 (firstn (O * 4) (skipn buffer mem'))
    = map (affine_sum I (biases_ l) (weights_ l) P x) (seq 0 O).
Proof.
  intros Hwf _ HO Hprev Hin Hout Hd x H7 Hpad.
  destruct (Propagate_returns a l features buffer mem mem1 input HO Hprev)
    as [mem' Hp].
  exists mem'. split; [exact Hp|].
  destruct (Propagate_writes O a l features buffer mem mem1 input mem' buffer
              Hwf Hprev Hp Hin Hd H7) as [_ ->].
  fold x.
  set (vals := map (affine_sum I (biases_ l) (weights_ l) (summed_inputs a I) x)
                   (seq 0 O)).
  assert (Hlen : length (pack32 vals) = O * 4).
  { rewrite length_pack32. unfold vals. rewrite length_map, length_seq. lia. }
  rewrite <- Hlen, read_back by lia.
  rewrite epi32_pack32_int32 by apply affine_sums_int32.
  unfold vals. apply map_ext_in. intros i Hi. apply in_seq in Hi.
  destruct a; cbn [summed_inputs]; try reflexivity.
  symmetry. apply (padded_sum l x i Hwf); [|lia|apply Hpad; reflexivity].
  unfold x. rewrite length_firstn, length_skipn. lia.
Qed.

(** C8 (as amended): with an output dimension the build serves (1 or a
    multiple of 4 where it dispatches on it; any where it does not),
    [Propagate] returns a result whenever its predecessor does, hands back
    [buffer] as the output pointer, and leaves every byte outside the
    [kBufferSize] bytes at [buffer] as it was.  The layer is an argument the
    function never gives back: its biases, weights and predecessor are what
    they were. *)
Theorem Propagate_total {HF : LayerFrame PreviousLayer}
        a (l : Self) features buffer mem :
  (dispatched a = true -> O = 1 \/ O mod 4 = 0) ->
  (exists r, Propagate a (previous_layer_ l) features
                       (buffer + kSelfBufferSize O) mem = Some r) ->
  exists mem',
    Propagate a l features buffer mem = Some (mem', buffer) /\
    length mem' = length mem /\
    forall p, p < buffer \/ buffer + kBufferSize Self <= p ->
              nth_error mem' p = nth_error mem p.
Proof.
  intros HO [[mem1 input] Hprev].
  destruct (kernel I O (biases_ l) (weights_ l) a) as [stores|] eqn:Hk.
  - assert (Hp : Propagate a l features buffer mem
                 = Some (fold_left
                           (fun mem (st : store) =>
                              write_output buffer mem (fst st) (snd st (skipn input mem)))
                           stores mem1, buffer)).
    { cbn [Propagate AffineTransform_Layer]. unfold AffineTransform_Propagate.
      rewrite Hprev. fold I. rewrite Hk. reflexivity. }
    eexists. split; [exact Hp|].
    exact (Propagate_frame _ _ _ _ _ _ _ Hp).
  - apply kernel_None in Hk. destruct Hk as (Hd & H4 & H1).
    destruct (HO Hd); contradiction.
Qed.

(** C7 (as amended): a successful [Propagate] returns [buffer] as its output
    pointer; its own stores fall in the first [4 * O] bytes at [buffer], a
    share of [kSelfBufferSize] bytes, the output size rounded up to a multiple
    of the cache line; the predecessors work in the [kBufferSize] of the
    predecessor that follow it, so the shares are disjoint, [kBufferSize] is
    their sum, and the predecessors occupy the higher offsets. *)
Theorem Propagate_buffer_layout {HF : LayerFrame PreviousLayer}
        a (l : Self) features buffer mem mem' out :
  Propagate a l features buffer mem = Some (mem', out) ->
  kSelfBufferSize O = CeilToMultiple (O * 4) kCacheLineSize /\
  O * 4 <= kSelfBufferSize O /\
  kSelfBufferSize O mod kCacheLineSize = 0 /\
  kBufferSize Self = kBufferSize PreviousLayer + kSelfBufferSize O /\
  out = buffer /\
  exists mem1 input,
    Propagate a (previous_layer_ l) features (buffer + kSelfBufferSize O) mem
      = Some (mem1, input) /\
    length mem1 = length mem /\ length mem' = length mem /\
    (forall p, p < buffer + kSelfBufferSize O
               \/ buffer + kSelfBufferSize O + kBufferSize PreviousLayer <= p ->
               nth_error mem1 p = nth_error mem p) /\
    (forall p, p < buffer \/ buffer + O * 4 <= p ->
               nth_error mem' p = nth_error mem1 p).
Proof.
  intros Hp. destruct (kSelfBufferSize_fits O) as [Hfit Hmod].
  split; [reflexivity|]. split; [exact Hfit|]. split; [exact Hmod|].
  split; [reflexivity|].
  exact (Propagate_regions O a l features buffer mem mem' out Hp).
Qed.
End Claims.
(** * The claims on the example layers *)

(** ** The example layers are well formed *)

Ltac concrete_forall :=
  repeat (apply Forall_cons;
          [vm_compute; try split; try (intro; discriminate); reflexivity|]);
  apply Forall_nil.

Ltac concrete_dims := vm_compute; split; [intro; discriminate|reflexivity].

Ltac concrete_layer :=
  constructor; [reflexivity|concrete_forall|reflexivity|concrete_forall].

Lemma scenario_layer_well_formed : well_formed scenario_layer.
Proof. concrete_layer. Qed.

Lemma wide_layer_well_formed : well_formed wide_layer.
Proof. concrete_layer. Qed.

Lemma block_layer_well_formed : well_formed block_layer.
Proof. concrete_layer. Qed.

Lemma chain_layer_well_formed : well_formed chain_layer.
Proof. concrete_layer. Qed.


Lemma scenario_input_7bit : input_7bit scenario_input.
Proof. unfold input_7bit. concrete_forall. Qed.

Lemma scenario_padding_vanishes input :
  padding_vanishes 8 1 (weights_ scenario_layer) input.
Proof.
  intros i j Hi Hj. change (kPaddedInputDimensions 8) with 32 in *.
  assert (i = 0) by lia. subst i. cbn [Nat.mul Nat.add].
  do 32 (destruct j as [|j]; [try lia; reflexivity|]). lia.
Qed.

Lemma scenario_padded_weights_zero :
  padded_weights_zero 8 1 (weights_ scenario_layer).
Proof.
  intros i j Hi Hj. change (kPaddedInputDimensions 8) with 32 in *.
  assert (i = 0) by lia. subst i. cbn [Nat.mul Nat.add].
  do 32 (destruct j as [|j]; [try lia; reflexivity|]). lia.
Qed.

(** ** C1 *)

(** The 16-bit pair sums of the SSSE3 kernel saturate on bytes of 255 against
    weights of 127: it returns 524272 where the portable kernel returns
    1036320. *)
Lemma kernels_disagree_on_wide_input :
  Propagate_kernel SSSE3 wide_layer wide_input = Some [524272%Z] /\
  Propagate_kernel Generic wide_layer wide_input = Some [1036320%Z] /\
  Propagate_kernel SSSE3 wide_layer wide_input
  <> Propagate_kernel Generic wide_layer wide_input.
Proof.
  split; [vm_compute; reflexivity|]. split; [vm_compute; reflexivity|].
  vm_compute. discriminate.
Qed.

Lemma kernels_agree_witness :
  Propagate_kernel SSSE3 scenario_layer scenario_input
  = Propagate_kernel Generic scenario_layer scenario_input.
Proof.
  apply kernels_agree.
  - exact scenario_layer_well_formed.
  - concrete_dims.
  - reflexivity.
  - intros _. left. reflexivity.
  - intros _. exact scenario_input_7bit.
  - apply scenario_padding_vanishes.
Defined.

(** ** C6 *)
Lemma padding_ignored_witness :
  Propagate_kernel SSSE3 scenario_layer scenario_input
  = Propagate_kernel SSSE3 scenario_layer scenario_input_garbage.
Proof.
  apply padding_ignored.
  - exact scenario_layer_well_formed.
  - concrete_dims.
  - exact scenario_padded_weights_zero.
  - reflexivity.
  - reflexivity.
  - reflexivity.
Defined.

(** ** C9 *)
Lemma assert_false_unreachable_witness :
  (exists stores,
     kernel 8 1 (biases_ scenario_layer) (weights_ scenario_layer) (AVX512 true)
     = Some stores) /\
  (exists stores,
     kernel 32 32 (biases_ square_layer) (weights_ square_layer) (AVX2 false)
     = Some stores).
Proof.
  split.
  - exact (proj2 (assert_false_unreachable 1 (AVX512 true) scenario_layer eq_refl)
                   (or_introl eq_refl)).
  - exact (proj2 (assert_false_unreachable 32 (AVX2 false) square_layer eq_refl)
                   (or_intror eq_refl)).
Defined.

(** ** C2 *)

Lemma dense_layer_well_formed : well_formed dense_layer.
Proof. concrete_layer. Qed.

(** The portable kernel stops at [kInputDimensions]: with weights 1 and bytes
    of 255 at the padded positions it stores 46, the sum over the first 8
    positions, where the sum over all 32 is 6166. *)
Lemma Propagate_stops_at_input_dimensions :
  exists mem',
    Propagate Generic dense_layer 64 0 garbage_memory = Some (mem', 0) /\
    epi32 (firstn 4 (skipn 0 mem')) = [46%Z] /\
    affine_sum 8 (biases_ dense_layer) (weights_ dense_layer) 32
               (firstn 32 (skipn 64 garbage_memory)) 0 = 6166%Z /\
    epi32 (firstn 4 (skipn 0 mem'))
    <> map (affine_sum 8 (biases_ dense_layer) (weights_ dense_layer) 32
                       (firstn 32 (skipn 64 garbage_memory))) (seq 0 1).
Proof.
  eexists. split; [vm_compute; reflexivity|].
  split; [vm_compute; reflexivity|]. split; [vm_compute; reflexivity|].
  vm_compute. discriminate.
Qed.

Lemma Propagate_output_value_witness :
  exists mem',
    Propagate SSSE3 scenario_layer 64 0 scenario_memory = Some (mem', 0) /\
    epi32 (firstn (1 * 4) (skipn 0 mem')) = [46%Z].
Proof.
  refine (Propagate_output_value 1 SSSE3 scenario_layer 64 0
            scenario_memory scenario_memory 64
            scenario_layer_well_formed _ _ _ _ _ _ _ _).
  - concrete_dims.
  - intros _. left. reflexivity.
  - reflexivity.
  - vm_compute; lia.
  - vm_compute; lia.
  - right. vm_compute; lia.
  - intros _. exact scenario_input_7bit.
  - discriminate.
Defined.

(** ** C8 *)
Lemma pair_layer_well_formed : well_formed pair_layer.
Proof. concrete_layer. Qed.

(** With two outputs the SSSE3 branch has no path: the predecessor returns,
    the buffer is large enough, and [Propagate] ends in its [assert(false)]. *)
Lemma Propagate_asserts_on_two_outputs :
  well_formed pair_layer /\
  0 + kBufferSize (AffineTransform (Source 8) 2) <= length scenario_memory /\
  Propagate SSSE3 (previous_layer_ pair_layer) 64 (0 + kSelfBufferSize 2)
            scenario_memory = Some (scenario_memory, 64) /\
  Propagate SSSE3 pair_layer 64 0 scenario_memory = None /\
  ~ exists r, Propagate SSSE3 pair_layer 64 0 scenario_memory = Some r.
Proof.
  split; [exact pair_layer_well_formed|].
  split; [vm_compute; lia|]. split; [reflexivity|].
  split; [vm_compute; reflexivity|].
  intros [r Hr]. vm_compute in Hr. discriminate Hr.
Qed.

Lemma Propagate_total_witness :
  exists mem',
    Propagate (AVX2 true) chain_layer 128 0 chain_memory = Some (mem', 0) /\
    length mem' = length chain_memory /\
    forall p, p < 0 \/ 0 + kBufferSize (AffineTransform (Clip (Source 4)) 1) <= p ->
              nth_error mem' p = nth_error chain_memory p.
Proof.
  apply (Propagate_total 1 (AVX2 true) chain_layer 128 0 chain_memory).
  - intros _. left. reflexivity.
  - eexists. vm_compute. reflexivity.
Defined.

(** ** C7 *)

(** In the chain the activation's bytes land at offset 64 and this layer's
    output at offset 0: the predecessor has the higher offsets. *)
Lemma predecessor_above :
  exists mem1 input mem' out,
    Propagate Generic (previous_layer_ chain_layer) 128 (0 + kSelfBufferSize 1)
              chain_memory = Some (mem1, input) /\
    Propagate Generic chain_layer 128 0 chain_memory = Some (mem', out) /\
    input = 64 /\ out = 0 /\
    firstn 4 (skipn input mem1) = map byte.of_Z [10; 20; 0; 127]%Z /\
    epi32 (firstn 4 (skipn out mem')) = [563%Z] /\
    ~ input < out.
Proof.
  do 4 eexists. split; [vm_compute; reflexivity|].
  split; [vm_compute; reflexivity|].
  split; [reflexivity|]. split; [reflexivity|].
  split; [vm_compute; reflexivity|]. split; [vm_compute; reflexivity|]. lia.
Qed.

Lemma Propagate_buffer_layout_witness :
  kSelfBufferSize 1 = 64 /\
  kBufferSize (AffineTransform (Clip (Source 4)) 1) = 64 + 64 /\
  exists mem1 mem',
    Propagate Generic (previous_layer_ chain_layer) 128 (0 + kSelfBufferSize 1)
              chain_memory = Some (mem1, 64) /\
    Propagate Generic chain_layer 128 0 chain_memory = Some (mem', 0) /\
    (forall p, p < 0 + kSelfBufferSize 1
               \/ 0 + kSelfBufferSize 1 + kBufferSize (Clip (Source 4)) <= p ->
               nth_error mem1 p = nth_error chain_memory p) /\
    (forall p, p < 0 \/ 0 + 1 * 4 <= p -> nth_error mem' p = nth_error mem1 p).
Proof.
  split; [reflexivity|]. split; [reflexivity|].
  eassert (Hp : Propagate Generic chain_layer 128 0 chain_memory = Some (_, _))
    by (vm_compute; reflexivity).
  destruct (Propagate_buffer_layout 1 Generic chain_layer 128 0 chain_memory _ _ Hp)
    as (_ & _ & _ & _ & _ & mem1 & input & Hprev & _ & _ & Hf1 & Hf2).
  assert (Hin : input = 64).
  { vm_compute in Hprev. injection Hprev as _ <-. reflexivity. }
  subst input. eexists mem1, _. split; [exact Hprev|]. split; [exact Hp|].
  split; [exact Hf1|exact Hf2].
Defined.

(** ** C3 *)
Lemma ReadParameters_predecessor_failure_witness :
  let r := ReadParameters short_stream (previous_layer_ blank_chain) in
  fst (fst r) = false /\
  requests (snd (fst r)) = 4 :: repeat 1 32 /\
  exists l',
    ReadParameters short_stream blank_chain = (false, snd (fst r), l') /\
    previous_layer_ l' = snd r /\
    biases_ l' = biases_ blank_chain /\ weights_ l' = weights_ blank_chain.
Proof.
  cbv zeta. split; [vm_compute; reflexivity|]. split; [vm_compute; reflexivity|].
  apply (ReadParameters_predecessor_failure 1 short_stream _ blank_chain).
  vm_compute. reflexivity.
Defined.

(** ** C10 *)
Lemma ReadParameters_reads_everything_witness :
  exists stream' l',
    ReadParameters cut_stream blank_layer = (false, stream', l') /\
    requests stream' = 4 :: repeat 1 32 /\
    pending stream' = [] /\
    nth 0 (biases_ l') 0%Z = 10%Z /\
    nth 0 (weights_ l') 0%Z = (-1)%Z.
Proof.
  destruct (ReadParameters_reads_everything 1 cut_stream cut_stream blank_layer
              (source 8))
    as (stream' & l' & Hr & Hq & _ & _ & Hgood).
  - concrete_dims.
  - reflexivity.
  - reflexivity.
  - reflexivity.
  - destruct (Hgood eq_refl) as (Hp & Hf & Hb & Hw).
    assert (Hfail : fail stream' = true).
    { destruct (fail stream') eqn:E; [reflexivity|].
      assert (Hle : 4 * 1 + 1 * 32 <= 5) by (apply Hf; reflexivity). lia. }
    rewrite Hfail in Hr. exists stream', l'.
    split; [exact Hr|]. split; [exact Hq|]. split; [exact Hp|].
    split; [exact (Hb 0 ltac:(lia) ltac:(vm_compute; lia))
           |exact (Hw 0 ltac:(vm_compute; lia) ltac:(vm_compute; lia))].
Defined.

(** A failing call that has overwritten the bias and the first weight. *)
Example ReadParameters_partial_overwrite :
  let stream := {| pending := [Byte.x0a; Byte.x00; Byte.x00; Byte.x00; Byte.xff];
                   eofbit := false; failbit := false; requests := [] |} in
  exists stream' l',
    ReadParameters stream blank_layer = (false, stream', l') /\
    biases_ l' = [10%Z] /\ nth 0 (weights_ l') 0%Z = (-1)%Z.
Proof. do 2 eexists. split; [vm_compute; reflexivity|]. split; reflexivity. Qed.

(** ** C4 *)
Lemma ReadParameters_round_trip_witness :
  exists stream',
    ReadParameters scenario_stream blank_layer =
      (true, stream',
       {| previous_layer_ := source 8; biases_ := [10%Z];
          weights_ := repeat 1%Z 8 ++ repeat 0%Z 24 |}) /\
    pending stream' = [] /\ good stream' = true.
Proof.
  apply (ReadParameters_round_trip 1 scenario_stream scenario_stream blank_layer).
  - concrete_dims.
  - reflexivity.
  - reflexivity.
  - reflexivity.
  - concrete_forall.
  - reflexivity.
  - concrete_forall.
  - reflexivity.
  - reflexivity.
  - vm_compute. reflexivity.
Defined.

(** ** C5 *)
Lemma GetHashValue_formula_witness :
  GetHashValue (AffineTransform (Source 8) 1) = 975351399%Z /\
  (0 <= GetHashValue (AffineTransform (Source 8) 1) < 2 ^ 32)%Z /\
  GetHashValue (AffineTransform (Source 8) 1)
  = GetHashValue (AffineTransform (Source 8) 1).
Proof.
  destruct (GetHashValue_formula (PreviousLayer := Source 8) 1) as (H1 & H2 & H3).
  split; [exact H1|]. split.
  - apply H2. vm_compute. split; [discriminate|reflexivity].
  - apply (H3 (Source 8) _). reflexivity.
Defined.
(** * Further properties of the code *)

(** ** The helper lambdas *)

Lemma pack32_map_uint32 xs : pack32 (map uint32 xs) = pack32 xs.
Proof.
  unfold pack32. induction xs as [|x xs IH]; [reflexivity|].
  cbn [map flat_map]. rewrite IH. f_equal.
  exact (eq_sym (le_split_mod x 4)).
Qed.

Lemma pack32_eqm xs ys :
  map uint32 xs = map uint32 ys -> pack32 xs = pack32 ys.
Proof. intros H. rewrite <- (pack32_map_uint32 xs), H. apply pack32_map_uint32. Qed.

Lemma map_uint32_zipWith_add : forall xs ys,
  map uint32 (zipWith Z.add xs (map uint32 ys)) = map uint32 (zipWith Z.add xs ys).
Proof.
  unfold zipWith. induction xs as [|x xs IH]; intros [|y ys]; try reflexivity.
  cbn [map combine fst snd]. rewrite IH, uint32_add_r. reflexivity.
Qed.

Lemma emulated_dpbusd n ones acc a b :
  epi16 ones = repeat 1%Z (2 * n) ->
  length a = 4 * n -> length b = 4 * n -> input_7bit a ->
  add_epi32 acc (madd_epi16 (maddubs_epi16 a b) ones) = dpbusd_epi32 acc a b.
Proof.
  intros Hones Ha Hb H7. rewrite (maddubs_madd_ones n ones a b Hones Ha Hb H7).
  unfold add_epi32, dpbusd_epi32. rewrite lanes32_pack32.
  apply pack32_eqm, map_uint32_zipWith_add.
Qed.

(** X1: the horizontal adds [m512_hadd], [m256_hadd] and [m128_hadd] return
    the sum of the 32-bit lanes of their register plus the bias, wrapped to
    a signed 32-bit value. *)
Theorem hadd_sums_lanes sum bias :
  m512_hadd sum bias = int32 (sumZ (lanes32 sum) + bias) /\
  (length sum = 32 -> m256_hadd sum bias = int32 (sumZ (lanes32 sum) + bias)) /\
  (length sum = 16 -> m128_hadd sum bias = int32 (sumZ (lanes32 sum) + bias)).
Proof.
  split; [apply m512_hadd_sum|]. split; intros Hlen.
  - apply m256_hadd_sum, Hlen.
  - apply m128_hadd_sum, Hlen.
Qed.

(** X2: [m512_haddx4], [m256_haddx4] and [m128_haddx4] reduce four
    accumulators at once: lane [k] of the result is the sum of the 32-bit
    lanes of the [k]-th accumulator plus lane [k] of the bias, wrapped to a
    signed 32-bit value. *)
Theorem haddx4_sums_lanes w sum0 sum1 sum2 sum3 bias :
  length sum0 = w -> length sum1 = w -> length sum2 = w -> length sum3 = w ->
  length bias = 16 ->
  (w = 64 -> epi32 (m512_haddx4 sum0 sum1 sum2 sum3 bias)
             = sums4 sum0 sum1 sum2 sum3 bias) /\
  (w = 32 -> epi32 (m256_haddx4 sum0 sum1 sum2 sum3 bias)
             = sums4 sum0 sum1 sum2 sum3 bias) /\
  (w = 16 -> epi32 (m128_haddx4 sum0 sum1 sum2 sum3 bias)
             = sums4 sum0 sum1 sum2 sum3 bias).
Proof.
  intros H0 H1 H2 H3 Hb. split; [|split]; intros ->.
  - apply m512_haddx4_sums; assumption.
  - apply m256_haddx4_sums; assumption.
  - apply m128_haddx4_sums; assumption.
Qed.

(** X3: on input bytes of at most 127 the multiply-accumulate helpers built
    from [maddubs] and [madd] (the paths without VNNI, and
    [m128_add_dpbusd_epi32]) return the very register the VNNI instruction
    [dpbusd] returns. *)
Theorem add_dpbusd_emulation acc a b :
  input_7bit a ->
  (length a = 64 -> length b = 64 ->
   m512_add_dpbusd_epi32 false acc a b = m512_add_dpbusd_epi32 true acc a b) /\
  (length a = 32 -> length b = 32 ->
   m256_add_dpbusd_epi32 false acc a b = m256_add_dpbusd_epi32 true acc a b) /\
  (length a = 16 -> length b = 16 ->
   m128_add_dpbusd_epi32 acc a b = dpbusd_epi32 acc a b).
Proof.
  intros H7. split; [|split]; intros Ha Hb.
  - apply (emulated_dpbusd 16 kOnes512); auto.
  - apply (emulated_dpbusd 8 kOnes256); auto.
  - apply (emulated_dpbusd 4 kOnes128); auto.
Qed.

(** X4: each call of a multiply-accumulate helper adds the dot product of its
    two chunks (unsigned bytes of [a] by signed bytes of [b]) to the total of
    the accumulator's lanes, modulo 2^32: with VNNI for all bytes, without for
    bytes of at most 127. *)
Theorem add_dpbusd_accumulates USE_VNNI :
  accumulates (fun a => USE_VNNI = false -> input_7bit a) 64
              (m512_add_dpbusd_epi32 USE_VNNI) /\
  accumulates (fun a => USE_VNNI = false -> input_7bit a) 32
              (m256_add_dpbusd_epi32 USE_VNNI) /\
  accumulates input_7bit 16 m128_add_dpbusd_epi32.
Proof.
  split; [apply m512_accumulates|]. split; [apply m256_accumulates|].
  apply m128_accumulates.
Qed.

(** ** Reading parameters from arbitrary bytes *)

Lemma pack32_epi32 n r : length r = 4 * n -> pack32 (epi32 r) = r.
Proof.
  intros Hr. rewrite <- (pack32_lanes32 n r Hr) at 2.
  rewrite <- (pack32_map_uint32 (epi32 r)), <- (pack32_map_uint32 (lanes32 r)).
  f_equal. unfold epi32. rewrite map_map. apply map_ext. intros x.
  apply uint32_int32.
Qed.

Lemma le_split_1_s8 b : le_split 1 (s8 b) = [b].
Proof.
  etransitivity; [|exact (split_le_combine [b])]. cbn [length].
  rewrite (le_split_mod (s8 b) 1), (le_split_mod (le_combine [b]) 1). f_equal.
  change (2 ^ (Z.of_nat 1 * 8))%Z with (2 ^ 8)%Z. unfold s8, int8.
  rewrite swrap_mod by lia. rewrite le_combine_1. reflexivity.
Qed.

Lemma flat_map_le_split_epi8 r : flat_map (le_split 1) (epi8 r) = r.
Proof.
  unfold epi8. induction r as [|b r IH]; [reflexivity|].
  cbn [map flat_map]. rewrite IH, le_split_1_s8. reflexivity.
Qed.

Lemma Forall_epi32 r : Forall is_int32 (epi32 r).
Proof.
  unfold epi32. apply Forall_forall. intros v Hv. apply in_map_iff in Hv.
  destruct Hv as (x & <- & _). apply int32_is_int32.
Qed.

Lemma Forall_epi8 r : Forall is_int8 (epi8 r).
Proof.
  unfold epi8. apply Forall_forall. intros v Hv. apply in_map_iff in Hv.
  destruct Hv as (x & <- & _). apply s8_range.
Qed.

Section ReadParametersBytes.
Context {PreviousLayer : Type} `{Layer PreviousLayer}.
Variable O : nat.
Local Abbreviation Self := (AffineTransform PreviousLayer O).
Local Abbreviation P := (@kPadded PreviousLayer _).

(** X5: a stream that is not good after the predecessor's block, or holds
    fewer than [4 * kOutputDimensions + kOutputDimensions *
    kPaddedInputDimensions] bytes there, makes [ReadParameters] return
    false (for a layer with at least one output). *)
Theorem ReadParameters_truncated (stream stream0 : istream) (l : Self) prev' :
  ReadParameters stream (previous_layer_ l) = (true, stream0, prev') ->
  0 < O ->
  good stream0 = false \/ length (pending stream0) < 4 * O + O * P ->
  fst (fst (ReadParameters stream l)) = false.
Proof.
  intros Hprev HO Hs. cbn [ReadParameters AffineTransform_Layer].
  unfold AffineTransform_ReadParameters. rewrite Hprev. cbn [negb].
  destruct (read_array 4 O stream0 (biases_ l)) as [s1 bs] eqn:Hb.
  destruct (read_array 1 (O * kPadded) s1 (weights_ l)) as [s2 ws] eqn:Hw.
  cbn [fst]. apply negb_false_iff.
  change s2 with (fst (s2, ws)). rewrite <- Hw.
  assert (Hs1 : s1 = fst (read_array 4 O stream0 (biases_ l))) by (rewrite Hb; reflexivity).
  destruct (fail s1) eqn:Hf1; [apply read_array_sticky, Hf1|].
  apply read_array_short. right.
  destruct (good stream0) eqn:Hg.
  - destruct Hs as [Hs|Hs]; [discriminate|].
    destruct (Nat.le_gt_cases (O * 4) (length (pending stream0))) as [Hle|Hgt].
    + destruct (read_array_enough 4 O stream0 (biases_ l) Hg Hle) as [_ Hp].
      rewrite Hs1, Hp, length_skipn. lia.
    + rewrite Hs1, read_array_short in Hf1 by (right; exact Hgt). discriminate.
  - rewrite Hs1, read_array_short in Hf1 by (left; split; [exact Hg|exact HO]).
    discriminate.
Qed.

(** X6: from a good stream with at least [4 * kOutputDimensions +
    kOutputDimensions * kPaddedInputDimensions] bytes after the predecessor's
    block, [ReadParameters] succeeds whatever those bytes are, consumes
    exactly that many, stores in [biases_] the signed little-endian value of
    each group of four bytes and in [weights_] the signed value of each
    following byte, so that serializing the arrays gives the bytes back, and
    leaves the layer fully loaded. *)
Theorem ReadParameters_decodes (stream stream0 : istream) (l : Self) prev' :
  dims_ok (kOutputDimensions PreviousLayer) O ->
  length (biases_ l) = O -> length (weights_ l) = O * P ->
  ReadParameters stream (previous_layer_ l) = (true, stream0, prev') ->
  good stream0 = true ->
  4 * O + O * P <= length (pending stream0) ->
  exists (stream' : istream) (l' : Self),
    ReadParameters stream l = (true, stream', l') /\
    good stream' = true /\
    pending stream' = skipn (4 * O + O * P) (pending stream0) /\
    previous_layer_ l' = prev' /\
    biases_ l' = epi32 (firstn (4 * O) (pending stream0)) /\
    weights_ l' = epi8 (firstn (O * P) (skipn (4 * O) (pending stream0))) /\
    serialize (biases_ l') (weights_ l') = firstn (4 * O + O * P) (pending stream0) /\
    well_formed l'.
Proof.
  intros _ Hlb Hlw Hprev Hgood Hlen.
  set (p := pending stream0) in *.
  set (bb := firstn (4 * O) p). set (wb := firstn (O * P) (skipn (4 * O) p)).
  assert (Hbb : length bb = 4 * O) by (unfold bb; rewrite length_firstn; lia).
  assert (Hwb : length wb = O * P)
    by (unfold wb; rewrite length_firstn, length_skipn; lia).
  assert (Hp : p = flat_map (le_split 4) (epi32 bb)
                   ++ flat_map (le_split 1) (epi8 wb) ++ skipn (4 * O + O * P) p).
  { fold (pack32 (epi32 bb)). rewrite (pack32_epi32 O bb Hbb), flat_map_le_split_epi8.
    unfold bb, wb. rewrite <- (firstn_skipn (4 * O) p) at 1. f_equal.
    rewrite <- (firstn_skipn (O * P) (skipn (4 * O) p)) at 1. f_equal.
    rewrite skipn_skipn. f_equal. lia. }
  assert (Hlb' : length (epi32 bb) = O).
  { unfold epi32. rewrite length_map. apply length_lanes32. exact Hbb. }
  assert (Hlw' : length (epi8 wb) = O * P) by (unfold epi8; rewrite length_map; exact Hwb).
  cbn [ReadParameters AffineTransform_Layer].
  unfold AffineTransform_ReadParameters. rewrite Hprev. cbn [negb].
  rewrite (read_array_success 4 O (epi32 bb) stream0 (biases_ l) _
             ltac:(lia) Hlb' Hlb Hgood Hp).
  erewrite (read_array_success 1 (O * kPadded) (epi8 wb) _ (weights_ l) _
              ltac:(lia) Hlw' Hlw); [|reflexivity|reflexivity].
  cbn [fail failbit negb].
  rewrite (map_swrap_small (8 * Z.of_nat 4) (epi32 bb)) by (lia || apply Forall_epi32).
  rewrite (map_swrap_small (8 * Z.of_nat 1) (epi8 wb))
    by (lia || (eapply Forall_impl; [|apply Forall_epi8];
                unfold is_int8; simpl; intros; lia)).
  do 2 eexists. split; [reflexivity|]. cbn [biases_ weights_ previous_layer_ pending good eofbit failbit].
  split; [reflexivity|]. split; [reflexivity|]. split; [reflexivity|].
  split; [reflexivity|]. split; [reflexivity|]. split.
  - unfold serialize. fold (pack32 (epi32 bb)).
    rewrite (pack32_epi32 O bb Hbb), flat_map_le_split_epi8.
    unfold bb, wb. rewrite <- (firstn_skipn (4 * O) (firstn (4 * O + O * P) p)).
    rewrite firstn_firstn, Nat.min_l by lia. f_equal.
    rewrite skipn_firstn_comm. f_equal. lia.
  - constructor; cbn [biases_ weights_].
    + exact Hlb'.
    + apply Forall_epi32.
    + exact Hlw'.
    + apply Forall_epi8.
Qed.
End ReadParametersBytes.

(** ** The hash as a rotation *)

Lemma land_pow2_small b n :
  (0 <= n -> 0 <= b < 2 ^ n -> Z.land b (2 ^ n) = 0)%Z.
Proof.
  intros Hn Hb. apply Z.bits_inj'. intros k Hk.
  rewrite Z.land_spec, Z.bits_0, Z.pow2_bits_eqb by lia.
  destruct (Z.eqb_spec n k) as [<-|Hne]; [|apply andb_false_r].
  rewrite andb_true_r. destruct (Z.eq_dec b 0) as [->|Hb0]; [apply Z.bits_0|].
  apply Z.bits_above_log2; [lia|]. apply Z.log2_lt_pow2; lia.
Qed.

Lemma hash_rotation p :
  (0 <= p < 2 ^ 32)%Z ->
  Z.lxor (Z.shiftr p 1) (uint32 (Z.shiftl p 31)) = (p / 2 + (p mod 2) * 2 ^ 31)%Z.
Proof.
  intros Hp. rewrite Z.shiftr_div_pow2, Z.shiftl_mul_pow2 by lia.
  change (2 ^ 1)%Z with 2%Z. unfold uint32.
  change (2 ^ 32)%Z with (2 * 2 ^ 31)%Z.
  rewrite Z.mul_mod_distr_r by lia.
  symmetry. apply Z.add_nocarry_lxor.
  assert (Hm : (p mod 2 = 0 \/ p mod 2 = 1)%Z) by (pose proof (Z.mod_pos_bound p 2); lia).
  destruct Hm as [->| ->].
  - apply Z.land_0_r.
  - rewrite Z.mul_1_l. apply land_pow2_small; [lia|].
    split; [apply Z.div_pos; lia|apply Z.div_lt_upper_bound; lia].
Qed.

Lemma GetHashValue_rotation {PreviousLayer : Type} `{Layer PreviousLayer} (O : nat) :
  let p := GetHashValue PreviousLayer in
  (0 <= p < 2 ^ 32)%Z ->
  GetHashValue (AffineTransform PreviousLayer O)
  = Z.lxor (uint32 (0xCC03DAE4 + Z.of_nat O)) (p / 2 + (p mod 2) * 2 ^ 31)%Z.
Proof.
  intros p Hp. cbn [GetHashValue AffineTransform_Layer].
  unfold AffineTransform_GetHashValue. cbv zeta.
  rewrite Z.lxor_assoc. f_equal. apply hash_rotation, Hp.
Qed.

(** X7: for predecessors with 32-bit hashes, the hash mixes in the
    predecessor's hash rotated right by one bit, so it tells layers apart:
    with equal output dimensions, predecessors of different hashes give
    different hashes, and over predecessors of equal hash, different output
    dimensions (below 2^32) give different hashes. *)
Theorem GetHashValue_distinguishes
        {Prev1 : Type} `{Layer Prev1} {Prev2 : Type} `{Layer Prev2} (O1 O2 : nat) :
  (0 <= GetHashValue Prev1 < 2 ^ 32)%Z -> (0 <= GetHashValue Prev2 < 2 ^ 32)%Z ->
  (Z.of_nat O1 < 2 ^ 32)%Z -> (Z.of_nat O2 < 2 ^ 32)%Z ->
  (O1 = O2 -> GetHashValue Prev1 <> GetHashValue Prev2 ->
   GetHashValue (AffineTransform Prev1 O1) <> GetHashValue (AffineTransform Prev2 O2)) /\
  (GetHashValue Prev1 = GetHashValue Prev2 -> O1 <> O2 ->
   GetHashValue (AffineTransform Prev1 O1) <> GetHashValue (AffineTransform Prev2 O2)).
Proof.
  intros Hp1 Hp2 HO1 HO2.
  rewrite (GetHashValue_rotation (PreviousLayer := Prev1) O1 Hp1).
  rewrite (GetHashValue_rotation (PreviousLayer := Prev2) O2 Hp2).
  set (p1 := GetHashValue Prev1) in *. set (p2 := GetHashValue Prev2) in *.
  clearbody p1 p2. split.
  - intros -> Hne Heq. apply Hne.
    apply (f_equal (Z.lxor (uint32 (0xCC03DAE4 + Z.of_nat O2)))) in Heq.
    rewrite <- !Z.lxor_assoc, Z.lxor_nilpotent, !Z.lxor_0_l in Heq.
    Z.div_mod_to_equations. lia.
  - intros Hpp Hne Heq. apply Hne. rewrite Hpp in Heq.
    apply (f_equal (fun x => Z.lxor x (p2 / 2 + p2 mod 2 * 2 ^ 31)%Z)) in Heq.
    cbv beta in Heq. rewrite !Z.lxor_assoc, Z.lxor_nilpotent, !Z.lxor_0_r in Heq.
    unfold uint32 in Heq. apply Nat2Z.inj. Z.div_mod_to_equations. lia.
Qed.

(** ** What a kernel reads of its input *)

Lemma vload_agree w j n (x1 x2 : list byte) :
  firstn n x1 = firstn n x2 -> (j + 1) * w <= n -> vload w x1 j = vload w x2 j.
Proof.
  intros Hx Hj. unfold vload.
  rewrite <- (slice_firstn w j n x1 Hj), <- (slice_firstn w j n x2 Hj), Hx.
  reflexivity.
Qed.

Lemma dot_row_reads step w n (x1 x2 row : list byte) :
  (forall j, j < n -> vload w x1 j = vload w x2 j) ->
  dot_row step w n x1 row = dot_row step w n x2 row.
Proof.
  intros Hx. unfold dot_row. apply for_ext. intros j sum Hj.
  rewrite (Hx j Hj). reflexivity.
Qed.

Lemma dot_rows4_reads step w n (x1 x2 row0 row1 row2 row3 : list byte) :
  (forall j, j < n -> vload w x1 j = vload w x2 j) ->
  dot_rows4 step w n x1 row0 row1 row2 row3
  = dot_rows4 step w n x2 row0 row1 row2 row3.
Proof.
  intros Hx. rewrite !dot_rows4_rows.
  rewrite !(dot_row_reads step w n x1 x2) by exact Hx. reflexivity.
Qed.

Lemma dispatch_reads O block single (x1 x2 : list byte) :
  (forall i, block i x1 = block i x2) -> single x1 = single x2 ->
  option_map (flat_map (fun st : store => snd st x1)) (dispatch O block single)
  = option_map (flat_map (fun st : store => snd st x2)) (dispatch O block single).
Proof.
  intros Hblock Hsingle. unfold dispatch. destruct (O mod 4 =? 0).
  - cbn [option_map]. f_equal.
    induction (seq 0 (O / 4)) as [|k l IH]; [reflexivity|].
    cbn [map flat_map snd]. rewrite Hblock, IH. reflexivity.
  - destruct (O =? 1); [|reflexivity].
    cbn [option_map flat_map snd]. rewrite Hsingle. reflexivity.
Qed.

Lemma rowwise_reads O (row : nat -> list byte -> Z) (x1 x2 : list byte) :
  (forall i, row i x1 = row i x2) ->
  option_map (flat_map (fun st : store => snd st x1)) (rowwise O row)
  = option_map (flat_map (fun st : store => snd st x2)) (rowwise O row).
Proof.
  intros Hrow. rewrite !affine_rowwise. f_equal. apply map_ext. exact Hrow.
Qed.

Ltac same_loop :=
  match goal with
  | |- context [for_ ?n ?b1 ?init] =>
      match goal with
      | |- _ = ?rhs =>
          match rhs with
          | context [for_ n ?b2 init] =>
              let E := fresh "E" in
              assert (E : for_ n b1 init = for_ n b2 init);
              [apply for_ext|rewrite E; reflexivity]
          end
      end
  end.

Section Reads.
Variables (I O : nat) (biases weights : list Z) (x1 x2 : list byte).
Let P := kPaddedInputDimensions I.

Lemma chunks_agree w :
  firstn P x1 = firstn P x2 ->
  forall j, j < P / w -> vload w x1 j = vload w x2 j.
Proof.
  intros Hx j Hj. apply (vload_agree w j P); [exact Hx|]. apply chunk_within, Hj.
Qed.

Lemma affine_reads a :
  firstn (summed_inputs a I) x1 = firstn (summed_inputs a I) x2 ->
  affine I O biases weights a x1 = affine I O biases weights a x2.
Proof.
  intros Hx. unfold affine.
  destruct a as [v|v| | | | |]; cbn [summed_inputs kernel] in *; fold P in Hx.
  - apply dispatch_reads.
    + intros i. unfold avx512_block. fold P.
      change (kSimdWidth (AVX512 v) * 2) with 64. change (kSimdWidth (AVX512 v)) with 32.
      destruct (P mod 64 =? 0).
      * rewrite (dot_rows4_reads _ 64 _ x1 x2) by (apply chunks_agree, Hx). reflexivity.
      * rewrite (dot_rows4_reads _ 32 _ x1 x2) by (apply chunks_agree, Hx). reflexivity.
    + unfold avx512_single. fold P.
      change (kSimdWidth (AVX512 v) * 2) with 64. change (kSimdWidth (AVX512 v)) with 32.
      destruct (P mod 64 =? 0).
      * rewrite (dot_row_reads _ 64 _ x1 x2) by (apply chunks_agree, Hx). reflexivity.
      * rewrite (dot_row_reads _ 32 _ x1 x2) by (apply chunks_agree, Hx). reflexivity.
  - apply dispatch_reads.
    + intros i. unfold avx2_block. fold P. change (kSimdWidth (AVX2 v)) with 32.
      rewrite (dot_rows4_reads _ 32 _ x1 x2) by (apply chunks_agree, Hx). reflexivity.
    + unfold avx2_single. fold P. change (kSimdWidth (AVX2 v)) with 32.
      rewrite (dot_row_reads _ 32 _ x1 x2) by (apply chunks_agree, Hx). reflexivity.
  - apply dispatch_reads.
    + intros i. unfold ssse3_block. fold P. change (kSimdWidth SSSE3) with 16.
      rewrite (dot_rows4_reads _ 16 _ x1 x2) by (apply chunks_agree, Hx). reflexivity.
    + unfold ssse3_single. fold P. change (kSimdWidth SSSE3) with 16.
      rewrite (dot_row_reads _ 16 _ x1 x2) by (apply chunks_agree, Hx). reflexivity.
  - apply rowwise_reads. intros i. unfold sse2_row. fold P.
    change (kSimdWidth SSE2) with 16. cbv zeta. same_loop.
    intros j [sum_lo sum_hi] Hj. rewrite (chunks_agree 16 Hx j Hj). reflexivity.
  - apply rowwise_reads. intros i. unfold mmx_row. fold P.
    change (kSimdWidth MMX) with 8. cbv zeta. same_loop.
    intros j [sum_lo sum_hi] Hj. rewrite (chunks_agree 8 Hx j Hj). reflexivity.
  - apply rowwise_reads. intros i. unfold neon_row. fold P.
    change (kSimdWidth NEON) with 16. cbv zeta. same_loop.
    intros j sum Hj.
    assert (Hj0 : (j * 2 + 1) * 8 <= P) by (pose proof (Nat.Div0.mul_div_le P 16); nia).
    assert (Hj1 : (j * 2 + 1 + 1) * 8 <= P) by (pose proof (Nat.Div0.mul_div_le P 16); nia).
    rewrite (vload_agree 8 (j * 2) P x1 x2 Hx Hj0).
    rewrite (vload_agree 8 (j * 2 + 1) P x1 x2 Hx Hj1). reflexivity.
  - apply rowwise_reads. intros i. unfold generic_row. apply for_ext.
    intros j sum Hj.
    rewrite <- (List.nth_firstn I x1 j Byte.x00 Hj).
    rewrite <- (List.nth_firstn I x2 j Byte.x00 Hj), Hx. reflexivity.
Qed.
End Reads.

(** X8: a kernel reads no more of its input than its loops cover: the
    portable kernel the first [kInputDimensions] bytes, every vector kernel
    the first [kPaddedInputDimensions] bytes.  Two inputs that agree there
    give the same output, whatever the weights and whatever follows. *)
Theorem Propagate_kernel_reads {PreviousLayer : Type} `{Layer PreviousLayer} (O : nat)
        a (l : AffineTransform PreviousLayer O) input1 input2 :
  let n := match a with
           | Generic => kOutputDimensions PreviousLayer
           | _ => kPaddedInputDimensions (kOutputDimensions PreviousLayer)
           end in
  firstn n input1 = firstn n input2 ->
  Propagate_kernel a l input1 = Propagate_kernel a l input2.
Proof.
  intros n Hx. unfold Propagate_kernel. apply affine_reads.
  destruct a; exact Hx.
Qed.

(** ** The [maddubs] kernels on every input *)

Lemma saturate16_range z : (-32768 <= saturate16 z <= 32767)%Z.
Proof. unfold saturate16. lia. Qed.

Lemma map_int16_saturate16 l :
  map int16 (map (fun x => x mod 2 ^ 16)%Z (map saturate16 l)) = map saturate16 l.
Proof.
  induction l as [|x l IH]; [reflexivity|].
  cbn [map]. rewrite IH. f_equal.
  rewrite int16_of_mod. apply int16_small, saturate16_range.
Qed.

Lemma maddubs_madd_saturating n ones a b :
  epi16 ones = repeat 1%Z (2 * n) ->
  length a = 4 * n -> length b = 4 * n ->
  madd_epi16 (maddubs_epi16 a b) ones
  = pack32 (pairsum (map saturate16 (pairsum (zipWith Z.mul (epu8 a) (epi8 b))))).
Proof.
  intros Hones Ha Hb. unfold madd_epi16, maddubs_epi16.
  rewrite Hones. unfold epi16 at 1. rewrite lanes16_pack16, map_int16_saturate16.
  rewrite zipWith_mul_ones; [reflexivity|].
  rewrite length_map. apply length_pairsum. rewrite length_products; lia.
Qed.

Lemma maddubs_accumulates_by n ones :
  epi16 ones = repeat 1%Z (2 * n) ->
  accumulates_by satdot (4 * n)
    (fun acc a b => add_epi32 acc (madd_epi16 (maddubs_epi16 a b) ones)).
Proof.
  intros Hones acc a b Hacc Ha Hb. cbv beta.
  rewrite (maddubs_madd_saturating n ones a b Hones Ha Hb).
  set (ps := map saturate16 (pairsum (zipWith Z.mul (epu8 a) (epi8 b)))).
  assert (Hps : length ps = 2 * n).
  { unfold ps. rewrite length_map. apply length_pairsum.
    rewrite length_products; lia. }
  assert (Hq : length (pairsum ps) = n) by (apply length_pairsum, Hps).
  split.
  - apply add_epi32_length; [exact Hacc|]. rewrite length_pack32, Hq. reflexivity.
  - rewrite (add_epi32_sum n) by (rewrite ?length_pack32, ?Hq; lia).
    rewrite lanes32_pack32, <- uint32_add_r, sumZ_map_uint32, uint32_add_r.
    rewrite (sumZ_pairsum n) by exact Hps. reflexivity.
Qed.

Lemma m128_saturating : accumulates_by satdot 16 m128_add_dpbusd_epi32.
Proof. apply (maddubs_accumulates_by 4 kOnes128). vm_compute; reflexivity. Qed.

Lemma m256_saturating : accumulates_by satdot 32 (m256_add_dpbusd_epi32 false).
Proof. apply (maddubs_accumulates_by 8 kOnes256). vm_compute; reflexivity. Qed.

Lemma m512_saturating : accumulates_by satdot 64 (m512_add_dpbusd_epi32 false).
Proof. apply (maddubs_accumulates_by 16 kOnes512). vm_compute; reflexivity. Qed.

Lemma pairsum_app k : forall l1 l2,
  length l1 = 2 * k -> pairsum (l1 ++ l2) = pairsum l1 ++ pairsum l2.
Proof.
  induction k as [|k IH]; intros l1 l2 Hl.
  - destruct l1; [reflexivity|discriminate].
  - destruct l1 as [|x [|y l1]]; try (cbn in Hl; lia).
    cbn [app pairsum]. rewrite IH by (cbn in Hl; lia). reflexivity.
Qed.

Lemma satdot_app k a1 a2 b1 b2 :
  length a1 = 2 * k -> length b1 = 2 * k ->
  satdot (a1 ++ a2) (b1 ++ b2) = (satdot a1 b1 + satdot a2 b2)%Z.
Proof.
  intros Ha Hb. unfold satdot, epu8, epi8. rewrite !map_app.
  rewrite zipWith_app by (rewrite !length_map; lia).
  rewrite (pairsum_app k), map_app, sumZ_app; [reflexivity|].
  rewrite zipWith_length, !length_map. lia.
Qed.

Lemma satdot_nil : satdot [] [] = 0%Z.
Proof. reflexivity. Qed.

Lemma dot_row_satdot w m step n input row :
  accumulates_by satdot w step -> w = 4 * m ->
  n * w <= length input -> n * w <= length row ->
  length (dot_row step w n input row) = w /\
  uint32 (sumZ (lanes32 (dot_row step w n input row)))
  = uint32 (satdot (firstn (n * w) input) (firstn (n * w) row)).
Proof.
  intros Hstep Hw. unfold dot_row.
  induction n as [|n IH]; intros Hin Hrow.
  - rewrite for_0. split; [apply repeat_length|].
    subst w. rewrite setzero_pack32, lanes32_pack32, sumZ_map_uint32, sumZ_repeat0.
    reflexivity.
  - rewrite for_S.
    destruct IH as [IHlen IHsum]; [lia|lia|].
    assert (Ha : length (vload w input n) = w) by (apply slice_length; lia).
    assert (Hb : length (vload w row n) = w) by (apply slice_length; lia).
    destruct (Hstep _ _ _ IHlen Ha Hb) as [Hlen Hsum].
    split; [exact Hlen|].
    rewrite Hsum, !firstn_succ_slice.
    rewrite (satdot_app (2 * (n * m))) by (rewrite length_firstn; nia).
    rewrite <- uint32_add_l, IHsum, uint32_add_l. reflexivity.
Qed.

Lemma satdot_weights n offset ws input :
  Forall is_int8 ws ->
  satdot (firstn n input) (firstn n (skipn offset (weight_bytes ws)))
  = sumZ (map saturate16
              (pairsum (zipWith Z.mul (firstn n (skipn offset ws))
                                (epu8 (firstn n input))))).
Proof.
  intros Hws. unfold satdot, epi8.
  rewrite <- firstn_map, <- skipn_map. fold (epi8 (weight_bytes ws)).
  rewrite epi8_weight_bytes by exact Hws. rewrite zipWith_mul_comm. reflexivity.
Qed.

Section SaturatingRows.
Local Set Default Proof Using "All".
Variables (I O : nat) (biases weights : list Z) (input : list byte).
Let P := kPaddedInputDimensions I.
Let wb := weight_bytes weights.

Hypothesis Hweights : length weights = O * P.
Hypothesis Hinput : P <= length input.
Hypothesis Hbiases : length biases = O.
Hypothesis Hint8 : Forall is_int8 weights.

Lemma saturating_row_sum w m step i :
  accumulates_by satdot w step -> w = 4 * m -> 0 < w ->
  (exists k, P = k * w) -> i < O ->
  length (dot_row step w (P / w) input (skipn (i * P) wb)) = w /\
  forall b, int32 (sumZ (lanes32 (dot_row step w (P / w) input (skipn (i * P) wb))) + b)
            = int32 (b + sumZ (map saturate16
                                   (pairsum (zipWith Z.mul (firstn P (skipn (i * P) weights))
                                                     (epu8 (firstn P input)))))).
Proof.
  intros Hstep Hw Hpos [k Hk] Hi.
  rewrite (div_exact P w k Hpos Hk).
  pose proof (row_length I O biases weights input Hweights Hinput i Hi) as Hrow.
  fold P in Hrow. fold wb in Hrow.
  destruct (dot_row_satdot w m step k input (skipn (i * P) wb) Hstep Hw)
    as [Hlen Hsum]; [lia|lia|].
  split; [exact Hlen|]. intros b. rewrite <- Hk in Hsum.
  unfold wb in Hsum. rewrite satdot_weights in Hsum by exact Hint8.
  apply int32_eqm.
  fold (uint32 (sumZ (lanes32 (dot_row step w k input (skipn (i * P) wb))) + b)).
  rewrite <- uint32_add_l. fold wb in Hsum |- *. rewrite Hsum, uint32_add_l.
  unfold uint32. f_equal. lia.
Qed.

Lemma saturating_single w m step hadd :
  accumulates_by satdot w step -> w = 4 * m -> 0 < w ->
  (exists k, P = k * w) ->
  (forall sum bias, length sum = w -> hadd sum bias = int32 (sumZ (lanes32 sum) + bias)) ->
  0 < O ->
  hadd (dot_row step w (P / w) input wb) (nth 0 biases 0%Z)
  = saturating_sum I biases weights input 0.
Proof.
  intros Hstep Hw Hpos Hk Hhadd HO.
  destruct (saturating_row_sum w m step 0 Hstep Hw Hpos Hk HO) as [Hlen Hsum].
  change (skipn (0 * P) wb) with wb in *.
  rewrite Hhadd by exact Hlen. rewrite Hsum. reflexivity.
Qed.

Lemma saturating_block w m step haddx4 i :
  accumulates_by satdot w step -> w = 4 * m -> 0 < w ->
  (exists k, P = k * w) ->
  (forall s0 s1 s2 s3 bias,
      length s0 = w -> length s1 = w -> length s2 = w -> length s3 = w ->
      length bias = 16 ->
      epi32 (haddx4 s0 s1 s2 s3 bias) = sums4 s0 s1 s2 s3 bias) ->
  i + 4 <= O ->
  (let '(sum0, sum1, sum2, sum3) :=
     dot_rows4 step w (P / w) input
               (skipn ((i + 0) * P) wb) (skipn ((i + 1) * P) wb)
               (skipn ((i + 2) * P) wb) (skipn ((i + 3) * P) wb) in
   epi32 (haddx4 sum0 sum1 sum2 sum3 (bias128 biases i)))
  = map (saturating_sum I biases weights input) (seq i 4).
Proof.
  intros Hstep Hw Hpos Hk Hhadd Hi.
  rewrite dot_rows4_rows.
  destruct (saturating_row_sum w m step (i + 0) Hstep Hw Hpos Hk ltac:(lia)) as [L0 S0].
  destruct (saturating_row_sum w m step (i + 1) Hstep Hw Hpos Hk ltac:(lia)) as [L1 S1].
  destruct (saturating_row_sum w m step (i + 2) Hstep Hw Hpos Hk ltac:(lia)) as [L2 S2].
  destruct (saturating_row_sum w m step (i + 3) Hstep Hw Hpos Hk ltac:(lia)) as [L3 S3].
  pose proof (bias128_lanes I O biases weights input Hweights Hinput Hbiases i Hi) as Hb128.
  rewrite Hhadd; try assumption.
  2:{ rewrite Hb128. reflexivity. }
  unfold sums4. rewrite Hb128, lanes32_pack32.
  cbn [map zipWith combine fst snd seq]. unfold saturating_sum; fold P.
  rewrite <- !int32_add_r with (b := uint32 _).
  rewrite !int32_uint32, !int32_add_r.
  rewrite S0, S1, S2, S3.
  replace (i + 0) with i by lia.
  replace (S i) with (i + 1) by lia.
  replace (S (i + 1)) with (i + 2) by lia.
  replace (S (i + 2)) with (i + 3) by lia.
  reflexivity.
Qed.
End SaturatingRows.

Lemma P_chunks I w :
  w = 16 \/ w = 32 -> exists k, kPaddedInputDimensions I = k * w.
Proof.
  intros Hw. destruct (kPadded_multiple I) as (k & Hk & _).
  destruct Hw as [->| ->]; [exists (2 * k)|exists k]; lia.
Qed.

Lemma saturating_tiles I O biases weights a stores :
  length weights = O * kPaddedInputDimensions I -> length biases = O ->
  Forall is_int8 weights ->
  a = AVX512 false \/ a = AVX2 false \/ a = SSSE3 ->
  kernel I O biases weights a = Some stores ->
  tiles (fun x => kPaddedInputDimensions I <= length x)
        (saturating_sum I biases weights) 0 stores O.
Proof.
  intros Hw Hb H8 Ha. set (P := kPaddedInputDimensions I) in *.
  destruct Ha as [->|[->| ->]]; cbn [kernel]; apply tiles_dispatch.
  - intros i x Hi Hx. unfold avx512_block. fold P.
    change (kSimdWidth (AVX512 false) * 2) with 64.
    change (kSimdWidth (AVX512 false)) with 32.
    destruct (P mod 64 =? 0) eqn:E.
    + apply Nat.eqb_eq in E.
      apply (saturating_block I O biases weights x Hw Hx Hb H8 64 16);
        [apply m512_saturating | reflexivity | lia
        | exists (P / 64); pose proof (Nat.div_mod_eq P 64); fold P; lia
        | apply m512_haddx4_sums | exact Hi].
    + apply (saturating_block I O biases weights x Hw Hx Hb H8 32 8);
        [apply m256_saturating | reflexivity | lia | apply P_chunks; auto
        | apply m256_haddx4_sums | exact Hi].
  - intros x HO Hx. unfold avx512_single. fold P.
    change (kSimdWidth (AVX512 false) * 2) with 64.
    change (kSimdWidth (AVX512 false)) with 32.
    destruct (P mod 64 =? 0) eqn:E.
    + apply Nat.eqb_eq in E. f_equal.
      apply (saturating_single I O biases weights x Hw Hx Hb H8 64 16 _ m512_hadd);
        [apply m512_saturating | reflexivity | lia
        | exists (P / 64); pose proof (Nat.div_mod_eq P 64); fold P; lia
        | intros; apply m512_hadd_sum | exact HO].
    + f_equal.
      apply (saturating_single I O biases weights x Hw Hx Hb H8 32 8 _ m256_hadd);
        [apply m256_saturating | reflexivity | lia | apply P_chunks; auto
        | apply m256_hadd_sum | exact HO].
  - intros i x Hi Hx. unfold avx2_block. fold P.
    change (kSimdWidth (AVX2 false)) with 32.
    apply (saturating_block I O biases weights x Hw Hx Hb H8 32 8);
      [apply m256_saturating | reflexivity | lia | apply P_chunks; auto
      | apply m256_haddx4_sums | exact Hi].
  - intros x HO Hx. unfold avx2_single. fold P.
    change (kSimdWidth (AVX2 false)) with 32. f_equal.
    apply (saturating_single I O biases weights x Hw Hx Hb H8 32 8 _ m256_hadd);
      [apply m256_saturating | reflexivity | lia | apply P_chunks; auto
      | apply m256_hadd_sum | exact HO].
  - intros i x Hi Hx. unfold ssse3_block. fold P.
    change (kSimdWidth SSSE3) with 16.
    apply (saturating_block I O biases weights x Hw Hx Hb H8 16 4);
      [apply m128_saturating | reflexivity | lia | apply P_chunks; auto
      | apply m128_haddx4_sums | exact Hi].
  - intros x HO Hx. unfold ssse3_single. fold P.
    change (kSimdWidth SSSE3) with 16. f_equal.
    apply (saturating_single I O biases weights x Hw Hx Hb H8 16 4 _ m128_hadd);
      [apply m128_saturating | reflexivity | lia | apply P_chunks; auto
      | apply m128_hadd_sum | exact HO].
Qed.

Lemma affine_saturating I O biases weights a input :
  length weights = O * kPaddedInputDimensions I -> length biases = O ->
  Forall is_int8 weights ->
  a = AVX512 false \/ a = AVX2 false \/ a = SSSE3 ->
  O = 1 \/ O mod 4 = 0 ->
  kPaddedInputDimensions I <= length input ->
  affine I O biases weights a input
  = Some (map (saturating_sum I biases weights input) (seq 0 O)).
Proof.
  intros Hw Hb H8 Ha HO Hx. unfold affine.
  destruct (kernel I O biases weights a) as [stores|] eqn:Hk.
  - pose proof (saturating_tiles I O biases weights a stores Hw Hb H8 Ha Hk) as Ht.
    destruct (tiles_values _ _ _ _ _ input Ht Hx) as [_ Hv].
    cbn [option_map]. rewrite Hv, Nat.sub_0_r. reflexivity.
  - apply kernel_None in Hk. destruct Hk as (_ & H4 & H1).
    destruct HO; contradiction.
Qed.

(** ** The NEON kernel on every input *)

Lemma products_signed : forall a b,
  above_min b ->
  Forall (fun x => -16256 <= x <= 16256)%Z (zipWith Z.mul (epi8 a) (epi8 b)).
Proof.
  induction a as [|x a IH]; intros [|y b] Hb; try constructor.
  - inversion Hb as [|? ? Hy Hb']; subst. cbn [fst snd].
    pose proof (s8_range x). pose proof (s8_range y). nia.
  - apply IH. inversion Hb; assumption.
Qed.

Lemma dots_app a1 a2 b1 b2 :
  length a1 = length b1 ->
  dots (a1 ++ a2) (b1 ++ b2) = (dots a1 b1 + dots a2 b2)%Z.
Proof.
  intros Hl. unfold dots, epi8. rewrite !map_app.
  rewrite zipWith_app by (rewrite !length_map; exact Hl). apply sumZ_app.
Qed.

Lemma dots_halves k a b :
  length a = length b ->
  dots a b = (dots (firstn k a) (firstn k b) + dots (skipn k a) (skipn k b))%Z.
Proof.
  intros Hl. rewrite <- (firstn_skipn k a) at 1. rewrite <- (firstn_skipn k b) at 1.
  apply dots_app. rewrite !length_firstn. lia.
Qed.

Lemma neon_step_signed a0 b0 a1 b1 sum :
  length a0 = 8 -> length b0 = 8 -> length a1 = 8 -> length b1 = 8 ->
  length sum = 4 -> above_min b0 -> above_min b1 ->
  let product := vmull_s8 (int8x8 a0) (int8x8 b0) in
  let product := vmlal_s8 product (int8x8 a1) (int8x8 b1) in
  length (vpadalq_s16 sum product) = 4 /\
  uint32 (sumZ (vpadalq_s16 sum product))
  = uint32 (sumZ sum + dots a0 b0 + dots a1 b1).
Proof.
  intros Ha0 Hb0 Ha1 Hb1 Hsum H0 H1. cbv zeta.
  unfold vpadalq_s16, vmlal_s8, vmull_s8, int8x8.
  set (p0 := zipWith Z.mul (epi8 a0) (epi8 b0)).
  set (p1 := zipWith Z.mul (epi8 a1) (epi8 b1)).
  assert (B0 : Forall (fun x => -16256 <= x <= 16256)%Z p0) by (apply products_signed, H0).
  assert (B1 : Forall (fun x => -16256 <= x <= 16256)%Z p1) by (apply products_signed, H1).
  assert (L0 : length p0 = 8)
    by (unfold p0, epi8; rewrite zipWith_length, !length_map; lia).
  assert (L1 : length p1 = 8)
    by (unfold p1, epi8; rewrite zipWith_length, !length_map; lia).
  rewrite (map_int16_small p0)
    by (eapply Forall_impl; [|exact B0]; cbv beta; intros; lia).
  rewrite (map_int16_small (zipWith Z.add p0 p1))
    by (eapply Forall_impl; [|exact (zipWith_add_bound _ _ p0 p1 B0 B1)];
        cbv beta; intros; lia).
  assert (Lz : length (zipWith Z.add p0 p1) = 2 * 4)
    by (rewrite zipWith_length; lia).
  split.
  - rewrite length_map, zipWith_length, (length_pairsum 4) by exact Lz. lia.
  - rewrite sumZ_map_int32, sumZ_zipWith_add
      by (rewrite (length_pairsum 4) by exact Lz; lia).
    rewrite (sumZ_pairsum 4) by exact Lz.
    rewrite sumZ_zipWith_add by lia. unfold dots. fold p0. fold p1.
    f_equal. lia.
Qed.

Lemma dots_weights n offset ws input :
  Forall is_int8 ws ->
  dots (firstn n input) (firstn n (skipn offset (weight_bytes ws)))
  = sumZ (zipWith Z.mul (firstn n (skipn offset ws)) (epi8 (firstn n input))).
Proof.
  intros Hws. unfold dots. unfold epi8 at 2.
  rewrite <- firstn_map, <- skipn_map. fold (epi8 (weight_bytes ws)).
  rewrite epi8_weight_bytes by exact Hws. rewrite zipWith_mul_comm. reflexivity.
Qed.

Lemma above_min_weight_bytes ws :
  Forall is_int8 ws -> Forall (fun w => (-127 <= w)%Z) ws ->
  above_min (weight_bytes ws).
Proof.
  intros H8 Hmin. unfold above_min, weight_bytes. rewrite Forall_map.
  rewrite Forall_forall in *. intros w Hw.
  rewrite s8_of_Z by (apply H8, Hw). apply Hmin, Hw.
Qed.

Section NeonSigned.
Local Set Default Proof Using "All".
Variables (I O : nat) (biases weights : list Z) (input : list byte).
Let P := kPaddedInputDimensions I.
Let wb := weight_bytes weights.

Hypothesis Hweights : length weights = O * P.
Hypothesis Hinput : P <= length input.
Hypothesis Hint8 : Forall is_int8 weights.
Hypothesis Hmin : Forall (fun w => (-127 <= w)%Z) weights.

Lemma neon_row_signed i :
  i < O -> neon_row I biases weights i input = signed_sum I biases weights input i.
Proof.
  intros Hi. unfold neon_row. fold P. fold wb.
  destruct (kPadded_multiple I) as (k & Hk & _). fold P in Hk.
  pose proof (row_length I O biases weights input Hweights Hinput i Hi) as Hrow.
  fold P in Hrow. fold wb in Hrow.
  assert (Hwmin : above_min (skipn (i * P) wb)).
  { apply Forall_skipn, above_min_weight_bytes; assumption. }
  change (kSimdWidth NEON) with 16. rewrite (div_exact P 16 (2 * k)) by lia.
  set (row := skipn (i * P) wb) in *.
  set (bias := nth i biases 0%Z).
  match goal with
  | |- context [for_ ?n ?body ?init] =>
      assert (Hinv :
        (fun j (sum : list Z) =>
           length sum = 4 /\
           uint32 (sumZ sum)
           = uint32 (bias + dots (firstn (j * 16) input) (firstn (j * 16) row)))
          n (for_ n body init));
      [apply for_invariant|generalize dependent (for_ n body init)]
  end.
  - split; [reflexivity|]. cbn [sumZ fold_right firstn Nat.mul]. unfold dots. cbn.
    f_equal; lia.
  - intros j sum Hj (Hlen & Hsum).
    destruct (slice_halves input j) as [Ei0 Ei1].
    destruct (slice_halves row j) as [Er0 Er1].
    assert (Ha : length (slice 16 j input) = 16) by (apply slice_length; lia).
    assert (Hb : length (slice 16 j row) = 16) by (apply slice_length; lia).
    destruct (neon_step_signed (vload 8 input (j * 2)) (vload 8 row (j * 2))
                               (vload 8 input (j * 2 + 1)) (vload 8 row (j * 2 + 1)) sum)
      as [Hlen' Hsum'];
      try (apply slice_length; lia); try exact Hlen;
      try (apply Forall_slice; exact Hwmin).
    split; [exact Hlen'|].
    etransitivity; [exact Hsum'|].
    rewrite !firstn_succ_slice, dots_app by (rewrite !length_firstn; lia).
    rewrite (dots_halves 8 (slice 16 j input) (slice 16 j row)) by lia.
    rewrite Ei0, Ei1, Er0, Er1. unfold vload.
    rewrite <- !Z.add_assoc, <- uint32_add_l, Hsum, uint32_add_l.
    f_equal. lia.
  - intros sum (Hlen & Hsum). explode sum Hlen. cbn [nth].
    unfold signed_sum. fold P. fold bias.
    rewrite <- (dots_weights P (i * P) weights input Hint8). fold wb. fold row.
    rewrite int32_sum4. apply int32_eqm.
    replace (2 * k * 16) with P in Hsum by lia.
    unfold uint32 in Hsum. rewrite <- Hsum. reflexivity.
Qed.
End NeonSigned.

(** ** The kernels on every input, and how the operations compose *)

Lemma nth_map_seq {A} (f : nat -> A) n i d :
  i < n -> nth i (map f (seq 0 n)) d = f i.
Proof.
  intros Hi. rewrite (nth_indep _ d (f 0)) by (rewrite length_map, length_seq; exact Hi).
  rewrite map_nth, seq_nth by exact Hi. reflexivity.
Qed.

Section KernelsEverywhere.
Local Set Default Proof Using "All".
Context {PreviousLayer : Type} `{Layer PreviousLayer}.
Variable O : nat.
Local Abbreviation Self := (AffineTransform PreviousLayer O).
Local Abbreviation I := (@kInputDimensions PreviousLayer _).
Local Abbreviation P := (@kPadded PreviousLayer _).

(** X9: on every input, bytes above 127 included, the kernels built on
    [maddubs] (AVX512 and AVX2 without VNNI, SSSE3) store in output [i] the
    bias plus the sum, over the pairs of adjacent positions of the padded row,
    of the two products of the pair added with signed saturation to 16 bits,
    in signed 32-bit arithmetic. *)
Theorem maddubs_kernels_value a (l : Self) input :
  well_formed l ->
  a = AVX512 false \/ a = AVX2 false \/ a = SSSE3 ->
  O = 1 \/ O mod 4 = 0 ->
  P <= length input ->
  Propagate_kernel a l input
  = Some (map (saturating_sum I (biases_ l) (weights_ l) input) (seq 0 O)).
Proof.
  intros [Hbl _ Hwl Hw8] Ha HO Hx. unfold Propagate_kernel.
  apply affine_saturating; assumption.
Qed.

(** X10: the vector width does not show in the result: on every input the
    AVX512 kernel, which falls back to 256-bit registers when the padded
    width is not a multiple of 64, returns what the AVX2 kernel returns with
    the same VNNI setting, and without VNNI both return what the SSSE3 kernel
    returns. *)
Theorem vector_width_irrelevant (l : Self) input :
  well_formed l -> O = 1 \/ O mod 4 = 0 -> P <= length input ->
  Propagate_kernel (AVX512 true) l input = Propagate_kernel (AVX2 true) l input /\
  Propagate_kernel (AVX512 false) l input = Propagate_kernel (AVX2 false) l input /\
  Propagate_kernel (AVX2 false) l input = Propagate_kernel SSSE3 l input.
Proof.
  intros [Hbl Hb32 Hwl Hw8] HO Hx. unfold Propagate_kernel. split; [|split].
  - rewrite !(affine_value I O (biases_ l) (weights_ l) _ input Hwl Hbl Hw8 Hb32);
      try (intros _; exact HO); try (split; [exact Hx|discriminate]).
    reflexivity.
  - rewrite !(affine_saturating I O (biases_ l) (weights_ l) _ input Hwl Hbl Hw8);
      auto.
  - rewrite !(affine_saturating I O (biases_ l) (weights_ l) _ input Hwl Hbl Hw8);
      auto.
Qed.

(** X11: the NEON kernel reads its input as signed bytes: on every input,
    for weights that avoid -128, it stores in output [i] the bias plus the
    sum over the padded row of weight times input byte taken as a signed
    8-bit value, in signed 32-bit arithmetic. *)
Theorem neon_kernel_value (l : Self) input :
  well_formed l -> Forall (fun w => (-127 <= w)%Z) (weights_ l) ->
  P <= length input ->
  Propagate_kernel NEON l input
  = Some (map (signed_sum I (biases_ l) (weights_ l) input) (seq 0 O)).
Proof.
  intros [Hbl _ Hwl Hw8] Hmin Hx. unfold Propagate_kernel, affine. cbn [kernel].
  rewrite affine_rowwise. f_equal. apply map_ext_in. intros i Hi.
  apply in_seq in Hi.
  apply (neon_row_signed I O (biases_ l) (weights_ l) input Hwl Hx Hw8 Hmin).
  lia.
Qed.

(** X12: an output depends on its own bias and its own row of weights only:
    two layers that agree on bias [i] and on row [i] of the weights give the
    same output [i], also in the kernels that compute four outputs at a
    time. *)
Theorem output_depends_on_own_row a (l1 l2 : Self) input i :
  well_formed l1 -> well_formed l2 ->
  (dispatched a = true -> O = 1 \/ O mod 4 = 0) ->
  length input = P -> (narrow_products a = true -> input_7bit input) ->
  i < O ->
  nth i (biases_ l1) 0%Z = nth i (biases_ l2) 0%Z ->
  firstn P (skipn (i * P) (weights_ l1)) = firstn P (skipn (i * P) (weights_ l2)) ->
  option_map (fun out => nth i out 0%Z) (Propagate_kernel a l1 input)
  = option_map (fun out => nth i out 0%Z) (Propagate_kernel a l2 input).
Proof.
  intros [Hbl1 Hb1 Hwl1 Hw1] [Hbl2 Hb2 Hwl2 Hw2] HO Hl H7 Hi Hb Hw.
  assert (Hgood : good_input a I input).
  { split; [unfold kPadded in Hl; lia|]. intros Hn. apply List.Forall_firstn, H7, Hn. }
  unfold Propagate_kernel.
  rewrite (affine_value I O (biases_ l1) (weights_ l1) a input Hwl1 Hbl1 Hw1 Hb1 HO Hgood).
  rewrite (affine_value I O (biases_ l2) (weights_ l2) a input Hwl2 Hbl2 Hw2 Hb2 HO Hgood).
  cbn [option_map]. f_equal. rewrite !nth_map_seq by exact Hi.
  unfold affine_sum, dot. rewrite Hb. do 3 f_equal.
  pose proof (summed_inputs_le a I) as Hn.
  rewrite <- (Nat.min_l _ _ Hn), <- !firstn_firstn. fold (@kPadded PreviousLayer _).
  rewrite Hw. reflexivity.
Qed.
End KernelsEverywhere.

Section LoadThenPropagate.
Local Set Default Proof Using "All".
Context {PreviousLayer : Type} `{Layer PreviousLayer}.
Variable O : nat.
Local Abbreviation Self := (AffineTransform PreviousLayer O).
Local Abbreviation I := (@kInputDimensions PreviousLayer _).
Local Abbreviation P := (@kPadded PreviousLayer _).

(** X13: loading and then propagating compose: after [ReadParameters] has
    read the serialization of biases and weights, every kernel whose build
    serves the output dimension (1 or a multiple of 4 where the build
    dispatches on it, any dimension elsewhere) returns, for an input it is
    specified on, [bias[i] + sum of weight[i][j] * input[j]] of those biases
    and weights, whatever the layer held before. *)
Theorem load_then_propagate a (stream stream0 : istream) (l : Self) prev'
        (biases weights : list Z) (rest input : list byte) :
  dims_ok I O ->
  length (biases_ l) = O -> length (weights_ l) = O * P ->
  length biases = O -> Forall is_int32 biases ->
  length weights = O * P -> Forall is_int8 weights ->
  ReadParameters stream (previous_layer_ l) = (true, stream0, prev') ->
  good stream0 = true ->
  pending stream0 = serialize biases weights ++ rest ->
  (dispatched a = true -> O = 1 \/ O mod 4 = 0) ->
  length input = P -> (narrow_products a = true -> input_7bit input) ->
  exists (stream' : istream) (l' : Self),
    ReadParameters stream l = (true, stream', l') /\
    Propagate_kernel a l' input
    = Some (map (affine_sum I biases weights (summed_inputs a I) input) (seq 0 O)).
Proof.
  intros _ Hlb Hlw Hb Hb32 Hw Hw8 Hprev Hgood Hpend HO Hl H7.
  cbn [ReadParameters AffineTransform_Layer].
  unfold AffineTransform_ReadParameters. rewrite Hprev. cbn [negb].
  unfold serialize in Hpend. rewrite <- app_assoc in Hpend.
  rewrite (read_array_success 4 O biases stream0 (biases_ l) _
             ltac:(lia) Hb Hlb Hgood Hpend).
  erewrite (read_array_success 1 (O * kPadded) weights _ (weights_ l) rest
              ltac:(lia) Hw Hlw); [|reflexivity|reflexivity].
  cbn [fail failbit negb].
  rewrite (map_swrap_small (8 * Z.of_nat 4) biases) by (lia || exact Hb32).
  rewrite (map_swrap_small (8 * Z.of_nat 1) weights)
    by (lia || (eapply Forall_impl; [|exact Hw8]; unfold is_int8; simpl; intros; lia)).
  do 2 eexists. split; [reflexivity|].
  unfold Propagate_kernel. cbn [biases_ weights_].
  apply affine_value; try assumption.
  split; [unfold kPadded in Hl; lia|].
  intros Hn. apply List.Forall_firstn, H7, Hn.
Qed.
End LoadThenPropagate.

(** ** When the [maddubs] kernels are exact *)

Lemma map_saturate16_fits l :
  Forall (fun s => -32768 <= s <= 32767)%Z l -> map saturate16 l = l.
Proof.
  intros Hl. induction Hl as [|s l Hs _ IH]; [reflexivity|].
  cbn [map]. rewrite IH. f_equal. unfold saturate16. lia.
Qed.

Lemma saturating_sum_exact I biases weights input i :
  (i + 1) * kPaddedInputDimensions I <= length weights ->
  kPaddedInputDimensions I <= length input ->
  pairs_fit I weights input i ->
  saturating_sum I biases weights input i
  = affine_sum I biases weights (kPaddedInputDimensions I) input i.
Proof.
  intros Hw Hx Hfit. unfold saturating_sum, affine_sum, dot. cbv zeta.
  unfold pairs_fit in Hfit. rewrite map_saturate16_fits by exact Hfit.
  destruct (kPadded_multiple I) as (k & Hk & _).
  rewrite (sumZ_pairsum (16 * k)); [reflexivity|].
  unfold epu8. rewrite zipWith_length, length_map, !length_firstn, length_skipn.
  nia.
Qed.

Section Exactness.
Local Set Default Proof Using "All".
Context {PreviousLayer : Type} `{Layer PreviousLayer}.
Variable O : nat.
Local Abbreviation Self := (AffineTransform PreviousLayer O).
Local Abbreviation I := (@kInputDimensions PreviousLayer _).
Local Abbreviation P := (@kPadded PreviousLayer _).

(** X14: for an output dimension of 1 or a multiple of 4, the kernels built
    on [maddubs] are exact as long as no pair of adjacent products overflows
    16 bits: if for every output [i] and every [k] the sum
    [weight[i][2k] * input[2k] + weight[i][2k+1] * input[2k+1]] lies in
    [-32768, 32767], they store [bias[i] + sum over the padded row of
    weight[i][j] * input[j]], whatever the input bytes are. *)
Theorem maddubs_kernels_exact a (l : Self) input :
  well_formed l ->
  a = AVX512 false \/ a = AVX2 false \/ a = SSSE3 ->
  O = 1 \/ O mod 4 = 0 ->
  P <= length input ->
  (forall i, i < O -> pairs_fit I (weights_ l) input i) ->
  Propagate_kernel a l input
  = Some (map (affine_sum I (biases_ l) (weights_ l) P input) (seq 0 O)).
Proof.
  intros [Hbl Hb32 Hwl Hw8] Ha HO Hx Hfit. unfold Propagate_kernel.
  rewrite (affine_saturating I O (biases_ l) (weights_ l) a input Hwl Hbl Hw8 Ha HO Hx).
  f_equal. apply map_ext_in. intros i Hi. apply in_seq in Hi.
  apply saturating_sum_exact; [fold (@kPadded PreviousLayer _); rewrite Hwl; nia|exact Hx|].
  apply Hfit. lia.
Qed.
End Exactness.

(** ** Input positions that all weights mask *)

Lemma dispatch_rows O block single (x1 x2 : list byte) :
  (forall i, i + 4 <= O -> block i x1 = block i x2) ->
  (0 < O -> single x1 = single x2) ->
  option_map (flat_map (fun st : store => snd st x1)) (dispatch O block single)
  = option_map (flat_map (fun st : store => snd st x2)) (dispatch O block single).
Proof.
  intros Hblock Hsingle. unfold dispatch.
  destruct (O mod 4 =? 0) eqn:E4.
  - apply Nat.eqb_eq in E4. cbn [option_map]. f_equal.
    pose proof (Nat.div_mod_eq O 4) as Hdm. rewrite E4, Nat.add_0_r in Hdm.
    assert (Hall : forall k, In k (seq 0 (O / 4)) -> 4 * k + 4 <= O).
    { intros k Hk. apply in_seq in Hk. lia. }
    induction (seq 0 (O / 4)) as [|k l IH]; [reflexivity|].
    cbn [map flat_map snd]. rewrite Hblock by (apply Hall; left; reflexivity).
    rewrite IH by (intros; apply Hall; right; assumption). reflexivity.
  - destruct (O =? 1) eqn:E1; [|reflexivity].
    apply Nat.eqb_eq in E1. cbn [option_map flat_map snd]. rewrite Hsingle by lia.
    reflexivity.
Qed.

Lemma rowwise_rows O (row : nat -> list byte -> Z) (x1 x2 : list byte) :
  (forall i, i < O -> row i x1 = row i x2) ->
  option_map (flat_map (fun st : store => snd st x1)) (rowwise O row)
  = option_map (flat_map (fun st : store => snd st x2)) (rowwise O row).
Proof.
  intros Hrow. rewrite !affine_rowwise. f_equal. apply map_ext_in.
  intros i Hi. apply in_seq in Hi. apply Hrow. lia.
Qed.

Section Masked.
Local Set Default Proof Using "All".
Variables (I O : nat) (biases weights : list Z) (input1 input2 : list byte).
Let P := kPaddedInputDimensions I.
Let wb := weight_bytes weights.

Hypothesis Hweights : length weights = O * P.
Hypothesis Hinput1 : length input1 = P.
Hypothesis Hinput2 : length input2 = P.
Hypothesis Hmask :
  forall j, j < P ->
    nth j input1 Byte.x00 = nth j input2 Byte.x00 \/
    forall i, i < O -> nth (i * P + j) weights 0%Z = 0%Z.

Lemma masked_weight_byte i p :
  nth (i * P + p) weights 0%Z = 0%Z -> s8 (nth p (skipn (i * P) wb) Byte.x00) = 0%Z.
Proof.
  intros Hz. rewrite nth_skipn. unfold wb, weight_bytes.
  change Byte.x00 with (byte.of_Z 0). rewrite map_nth, Hz. reflexivity.
Qed.

Lemma masked_products (f : byte -> Z) i w j :
  i < O -> (j + 1) * w <= P ->
  zipWith Z.mul (map f (vload w input1 j)) (epi8 (vload w (skipn (i * P) wb) j))
  = zipWith Z.mul (map f (vload w input2 j)) (epi8 (vload w (skipn (i * P) wb) j)).
Proof.
  intros Hi Hj. unfold vload.
  assert (Hrow : P <= length (skipn (i * P) wb)).
  { unfold wb, weight_bytes. rewrite length_skipn, length_map, Hweights. nia. }
  assert (L1 : length (slice w j input1) = w)
    by (unfold slice; rewrite length_firstn, length_skipn; lia).
  assert (L2 : length (slice w j input2) = w)
    by (unfold slice; rewrite length_firstn, length_skipn; lia).
  assert (Lr : length (slice w j (skipn (i * P) wb)) = w)
    by (unfold slice; rewrite length_firstn, length_skipn; lia).
  apply (nth_ext _ _ 0%Z 0%Z).
  - unfold zipWith, epi8. rewrite !length_map, !length_combine, !length_map. lia.
  - intros k Hk.
    assert (Hkw : k < w).
    { unfold zipWith, epi8 in Hk.
      rewrite length_map, length_combine, !length_map in Hk. lia. }
    rewrite !(nth_zipWith Z.mul (f Byte.x00) (s8 Byte.x00))
      by (unfold epi8; rewrite length_map; lia).
    unfold epi8. rewrite !map_nth, !nth_slice by exact Hkw.
    destruct (Hmask (j * w + k) ltac:(nia)) as [Heq|Hz].
    + rewrite Heq. reflexivity.
    + rewrite (masked_weight_byte i (j * w + k)) by (apply Hz, Hi). lia.
Qed.

Lemma masked_products_unsigned i w j :
  i < O -> (j + 1) * w <= P ->
  zipWith Z.mul (epu8 (vload w input1 j)) (epi8 (vload w (skipn (i * P) wb) j))
  = zipWith Z.mul (epu8 (vload w input2 j)) (epi8 (vload w (skipn (i * P) wb) j)).
Proof. exact (masked_products u8 i w j). Qed.

Lemma masked_products_signed i w j :
  i < O -> (j + 1) * w <= P ->
  zipWith Z.mul (epi8 (vload w input1 j)) (epi8 (vload w (skipn (i * P) wb) j))
  = zipWith Z.mul (epi8 (vload w input2 j)) (epi8 (vload w (skipn (i * P) wb) j)).
Proof. exact (masked_products s8 i w j). Qed.

Lemma masked_dot_row step w i :
  products_only step -> i < O ->
  dot_row step w (P / w) input1 (skipn (i * P) wb)
  = dot_row step w (P / w) input2 (skipn (i * P) wb).
Proof.
  intros Hstep Hi. unfold dot_row. apply for_ext. intros j sum Hj.
  apply Hstep. apply masked_products_unsigned; [exact Hi|]. apply chunk_within, Hj.
Qed.

Lemma masked_dot_rows4 step w i :
  products_only step -> i + 4 <= O ->
  dot_rows4 step w (P / w) input1
            (skipn ((i + 0) * P) wb) (skipn ((i + 1) * P) wb)
            (skipn ((i + 2) * P) wb) (skipn ((i + 3) * P) wb)
  = dot_rows4 step w (P / w) input2
              (skipn ((i + 0) * P) wb) (skipn ((i + 1) * P) wb)
              (skipn ((i + 2) * P) wb) (skipn ((i + 3) * P) wb).
Proof.
  intros Hstep Hi. rewrite !dot_rows4_rows.
  rewrite !(masked_dot_row step w) by (assumption || lia). reflexivity.
Qed.

Lemma masked_avx512 v :
  affine I O biases weights (AVX512 v) input1
  = affine I O biases weights (AVX512 v) input2.
Proof.
  unfold affine. cbn [kernel]. apply dispatch_rows.
  - intros i Hi. unfold avx512_block. fold P. fold wb.
    change (kSimdWidth (AVX512 v) * 2) with 64. change (kSimdWidth (AVX512 v)) with 32.
    destruct (P mod 64 =? 0).
    + rewrite (masked_dot_rows4 (m512_add_dpbusd_epi32 v) 64 i)
        by (exact Hi || apply m512_products_only). reflexivity.
    + rewrite (masked_dot_rows4 (m256_add_dpbusd_epi32 v) 32 i)
        by (exact Hi || apply m256_products_only). reflexivity.
  - intros HO. unfold avx512_single. fold P. fold wb.
    change (kSimdWidth (AVX512 v) * 2) with 64. change (kSimdWidth (AVX512 v)) with 32.
    change wb with (skipn (0 * P) wb).
    destruct (P mod 64 =? 0).
    + rewrite (masked_dot_row (m512_add_dpbusd_epi32 v) 64 0)
        by (exact HO || apply m512_products_only). reflexivity.
    + rewrite (masked_dot_row (m256_add_dpbusd_epi32 v) 32 0)
        by (exact HO || apply m256_products_only). reflexivity.
Qed.

Lemma masked_avx2 v :
  affine I O biases weights (AVX2 v) input1
  = affine I O biases weights (AVX2 v) input2.
Proof.
  unfold affine. cbn [kernel]. apply dispatch_rows.
  - intros i Hi. unfold avx2_block. fold P. fold wb.
    change (kSimdWidth (AVX2 v)) with 32.
    rewrite (masked_dot_rows4 (m256_add_dpbusd_epi32 v) 32 i)
      by (exact Hi || apply m256_products_only). reflexivity.
  - intros HO. unfold avx2_single. fold P. fold wb.
    change (kSimdWidth (AVX2 v)) with 32. change wb with (skipn (0 * P) wb).
    rewrite (masked_dot_row (m256_add_dpbusd_epi32 v) 32 0)
      by (exact HO || apply m256_products_only). reflexivity.
Qed.

Lemma masked_ssse3 :
  affine I O biases weights SSSE3 input1 = affine I O biases weights SSSE3 input2.
Proof.
  unfold affine. cbn [kernel]. apply dispatch_rows.
  - intros i Hi. unfold ssse3_block. fold P. fold wb.
    change (kSimdWidth SSSE3) with 16.
    rewrite (masked_dot_rows4 m128_add_dpbusd_epi32 16 i)
      by (exact Hi || apply m128_products_only). reflexivity.
  - intros HO. unfold ssse3_single. fold P. fold wb.
    change (kSimdWidth SSSE3) with 16. change wb with (skipn (0 * P) wb).
    rewrite (masked_dot_row m128_add_dpbusd_epi32 16 0)
      by (exact HO || apply m128_products_only). reflexivity.
Qed.

Lemma masked_neon :
  affine I O biases weights NEON input1 = affine I O biases weights NEON input2.
Proof.
  unfold affine. cbn [kernel]. apply rowwise_rows. intros i Hi.
  unfold neon_row. fold P. fold wb. change (kSimdWidth NEON) with 16.
  cbv zeta. same_loop. intros j sum Hj.
  assert (Hj0 : (j * 2 + 1) * 8 <= P) by (pose proof (Nat.Div0.mul_div_le P 16); nia).
  assert (Hj1 : (j * 2 + 1 + 1) * 8 <= P) by (pose proof (Nat.Div0.mul_div_le P 16); nia).
  unfold vmull_s8, vmlal_s8, int8x8.
  rewrite (masked_products_signed i 8 (j * 2) Hi Hj0).
  rewrite (masked_products_signed i 8 (j * 2 + 1) Hi Hj1).
  reflexivity.
Qed.

Hypothesis Hbiases : length biases = O.
Hypothesis Hint8 : Forall is_int8 weights.
Hypothesis Hint32 : Forall is_int32 biases.

Lemma masked_dot n i :
  n <= P -> i < O -> dot n (i * P) weights input1 = dot n (i * P) weights input2.
Proof.
  intros Hn Hi. unfold dot. f_equal.
  assert (Lw : length (firstn n (skipn (i * P) weights)) = n)
    by (rewrite length_firstn, length_skipn, Hweights; nia).
  apply (nth_ext _ _ 0%Z 0%Z).
  - unfold zipWith, epu8. rewrite !length_map, !length_combine, !length_map,
      !length_firstn. lia.
  - intros k Hk.
    assert (Hkn : k < n).
    { unfold zipWith in Hk. rewrite length_map, length_combine in Hk. lia. }
    rewrite !(nth_zipWith Z.mul 0%Z (u8 Byte.x00))
      by (rewrite ?Lw; unfold epu8; rewrite ?length_map, ?length_firstn; lia).
    unfold epu8. rewrite !map_nth, !List.nth_firstn, nth_skipn by exact Hkn.
    destruct (Hmask k ltac:(lia)) as [Heq|Hz].
    + rewrite Heq. reflexivity.
    + rewrite (Hz i Hi). lia.
Qed.

Lemma masked_exact a :
  dispatched a = false -> narrow_products a = false ->
  affine I O biases weights a input1 = affine I O biases weights a input2.
Proof.
  intros Hd Hn.
  rewrite (affine_value I O biases weights a input1 Hweights Hbiases Hint8 Hint32)
    by (congruence || (split; [fold P; lia|congruence])).
  rewrite (affine_value I O biases weights a input2 Hweights Hbiases Hint8 Hint32)
    by (congruence || (split; [fold P; lia|congruence])).
  f_equal. apply map_ext_in. intros i Hi. apply in_seq in Hi.
  unfold affine_sum. fold P. f_equal. f_equal.
  apply masked_dot; [apply summed_inputs_le|lia].
Qed.

Lemma affine_masked a :
  affine I O biases weights a input1 = affine I O biases weights a input2.
Proof.
  destruct a as [v|v| | | | |].
  - apply masked_avx512.
  - apply masked_avx2.
  - apply masked_ssse3.
  - apply masked_exact; reflexivity.
  - apply masked_exact; reflexivity.
  - apply masked_neon.
  - apply masked_exact; reflexivity.
Qed.
End Masked.

(** X15: an input position that every row masks with a zero weight never
    influences the output: two inputs that differ only at positions whose
    weights are zero in all rows give the same output in every kernel, for
    all byte values (padding positions with zero weights are one case). *)
Theorem masked_positions_ignored {PreviousLayer : Type} `{Layer PreviousLayer} (O : nat)
        a (l : AffineTransform PreviousLayer O) input1 input2 :
  well_formed l ->
  length input1 = kPadded -> length input2 = kPadded ->
  (forall j, j < kPadded ->
     nth j input1 Byte.x00 = nth j input2 Byte.x00 \/
     forall i, i < O -> nth (i * kPadded + j) (weights_ l) 0%Z = 0%Z) ->
  Propagate_kernel a l input1 = Propagate_kernel a l input2.
Proof.
  intros [Hbl Hb32 Hwl Hw8] Hl1 Hl2 Hmask. unfold Propagate_kernel.
  apply (affine_masked kInputDimensions O (biases_ l) (weights_ l) input1 input2);
    assumption.
Qed.
(** ** The further properties on examples *)

Lemma hadd_sums_lanes_witness :
  m512_hadd (pack32 (map Z.of_nat (seq 1 16))) 7 = 143%Z /\
  m256_hadd (pack32 (map Z.of_nat (seq 1 8))) 7 = 43%Z /\
  m128_hadd (pack32 [1; 2; 3; -4]%Z) 7 = 9%Z.
Proof.
  split; [|split].
  - exact (proj1 (hadd_sums_lanes (pack32 (map Z.of_nat (seq 1 16))) 7)).
  - exact (proj1 (proj2 (hadd_sums_lanes (pack32 (map Z.of_nat (seq 1 8))) 7)) eq_refl).
  - exact (proj2 (proj2 (hadd_sums_lanes (pack32 [1; 2; 3; -4]%Z) 7)) eq_refl).
Defined.

Lemma haddx4_sums_lanes_witness :
  epi32 (m128_haddx4 (pack32 [1; 2; 3; 4]%Z) (pack32 [10; 20; 30; 40]%Z)
                     (pack32 [-1; -2; -3; -4]%Z) (pack32 [0; 0; 0; 2147483647]%Z)
                     (pack32 [5; 6; 7; 1]%Z))
  = [15; 106; -3; -2147483648]%Z.
Proof.
  exact (proj2 (proj2 (haddx4_sums_lanes 16
           (pack32 [1; 2; 3; 4]%Z) (pack32 [10; 20; 30; 40]%Z)
           (pack32 [-1; -2; -3; -4]%Z) (pack32 [0; 0; 0; 2147483647]%Z)
           (pack32 [5; 6; 7; 1]%Z) eq_refl eq_refl eq_refl eq_refl eq_refl)) eq_refl).
Defined.

Lemma chunk_a_7bit : input_7bit chunk_a.
Proof. unfold input_7bit. concrete_forall. Qed.

Lemma add_dpbusd_emulation_witness :
  m128_add_dpbusd_epi32 (pack32 [1; 2; 3; 4]%Z) chunk_a chunk_b
  = dpbusd_epi32 (pack32 [1; 2; 3; 4]%Z) chunk_a chunk_b.
Proof.
  exact (proj2 (proj2 (add_dpbusd_emulation (pack32 [1; 2; 3; 4]%Z) chunk_a chunk_b
                         chunk_a_7bit)) eq_refl eq_refl).
Defined.

Lemma add_dpbusd_accumulates_witness :
  length (m128_add_dpbusd_epi32 (pack32 [1; 2; 3; 4]%Z) chunk_a chunk_b) = 16 /\
  uint32 (sumZ (lanes32 (m128_add_dpbusd_epi32 (pack32 [1; 2; 3; 4]%Z) chunk_a chunk_b)))
  = uint32 (sumZ (lanes32 (pack32 [1; 2; 3; 4]%Z)) + dotb chunk_a chunk_b).
Proof.
  exact (proj2 (proj2 (add_dpbusd_accumulates false)) (pack32 [1; 2; 3; 4]%Z)
               chunk_a chunk_b eq_refl eq_refl eq_refl chunk_a_7bit).
Defined.

Lemma ReadParameters_truncated_witness :
  fst (fst (ReadParameters short_stream blank_layer)) = false.
Proof.
  refine (ReadParameters_truncated 1 short_stream short_stream blank_layer (source 8)
            eq_refl _ _).
  - lia.
  - right. vm_compute. lia.
Defined.

Lemma ReadParameters_decodes_witness :
  exists stream' l',
    ReadParameters longer_stream blank_layer = (true, stream', l') /\
    good stream' = true /\
    pending stream' = [Byte.xaa; Byte.xbb] /\
    biases_ l' = [10%Z] /\
    weights_ l' = repeat 1%Z 8 ++ repeat 0%Z 24 /\
    serialize (biases_ l') (weights_ l') = firstn 36 (pending longer_stream) /\
    well_formed l'.
Proof.
  destruct (ReadParameters_decodes 1 longer_stream longer_stream blank_layer (source 8))
    as (stream' & l' & Hr & Hg & Hp & _ & Hb & Hw & Hs & Hwf).
  - concrete_dims.
  - reflexivity.
  - reflexivity.
  - reflexivity.
  - reflexivity.
  - vm_compute. lia.
  - exists stream', l'. split; [exact Hr|]. split; [exact Hg|].
    split; [exact Hp|]. split; [exact Hb|]. split; [exact Hw|].
    split; [exact Hs|exact Hwf].
Defined.

Lemma GetHashValue_distinguishes_witness :
  GetHashValue (AffineTransform (Source 8) 1) <> GetHashValue (AffineTransform (Source 9) 1) /\
  GetHashValue (AffineTransform (Source 8) 1) <> GetHashValue (AffineTransform (Source 8) 2).
Proof.
  split.
  - refine (proj1 (GetHashValue_distinguishes (Prev1 := Source 8) (Prev2 := Source 9)
                     1 1 _ _ _ _) eq_refl _);
      try (vm_compute; split; [discriminate|reflexivity]);
      try (vm_compute; reflexivity).
    vm_compute. discriminate.
  - refine (proj2 (GetHashValue_distinguishes (Prev1 := Source 8) (Prev2 := Source 8)
                     1 2 _ _ _ _) eq_refl _);
      try (vm_compute; split; [discriminate|reflexivity]);
      try (vm_compute; reflexivity).
    discriminate.
Defined.

Lemma Propagate_kernel_reads_witness :
  Propagate_kernel Generic dense_layer scenario_input
  = Propagate_kernel Generic dense_layer scenario_input_garbage.
Proof.
  exact (Propagate_kernel_reads 1 Generic dense_layer scenario_input
           scenario_input_garbage eq_refl).
Defined.

Lemma maddubs_kernels_value_witness :
  Propagate_kernel SSSE3 wide_layer wide_input = Some [524272%Z].
Proof.
  refine (maddubs_kernels_value 1 SSSE3 wide_layer wide_input
            wide_layer_well_formed _ _ _).
  - right. right. reflexivity.
  - left. reflexivity.
  - vm_compute. lia.
Defined.

Lemma vector_width_irrelevant_witness :
  Propagate_kernel (AVX512 true) wide_layer wide_input
  = Propagate_kernel (AVX2 true) wide_layer wide_input /\
  Propagate_kernel (AVX512 false) wide_layer wide_input
  = Propagate_kernel (AVX2 false) wide_layer wide_input /\
  Propagate_kernel (AVX2 false) wide_layer wide_input
  = Propagate_kernel SSSE3 wide_layer wide_input.
Proof.
  refine (vector_width_irrelevant 1 wide_layer wide_input wide_layer_well_formed _ _).
  - left. reflexivity.
  - vm_compute. lia.
Defined.

Lemma wide_layer_above_min : Forall (fun w => (-127 <= w)%Z) (weights_ wide_layer).
Proof. concrete_forall. Qed.

Lemma neon_kernel_value_witness :
  Propagate_kernel NEON wide_layer wide_input = Some [(-4064)%Z].
Proof.
  refine (neon_kernel_value 1 wide_layer wide_input wide_layer_well_formed
            wide_layer_above_min _).
  vm_compute. lia.
Defined.

Lemma block_layer_row1_well_formed : well_formed block_layer_row1.
Proof. concrete_layer. Qed.

Lemma block_input_7bit : input_7bit block_input.
Proof. unfold input_7bit. concrete_forall. Qed.

Lemma output_depends_on_own_row_witness :
  option_map (fun out => nth 1 out 0%Z)
             (Propagate_kernel (AVX2 false) block_layer block_input)
  = option_map (fun out => nth 1 out 0%Z)
               (Propagate_kernel (AVX2 false) block_layer_row1 block_input).
Proof.
  refine (output_depends_on_own_row 4 (AVX2 false) block_layer block_layer_row1
            block_input 1 block_layer_well_formed block_layer_row1_well_formed
            _ eq_refl _ _ eq_refl eq_refl).
  - intros _. right. reflexivity.
  - intros _. exact block_input_7bit.
  - lia.
Defined.

Lemma load_then_propagate_witness :
  exists stream' l',
    ReadParameters scenario_stream blank_layer = (true, stream', l') /\
    Propagate_kernel SSSE3 l' scenario_input = Some [46%Z].
Proof.
  refine (load_then_propagate 1 SSSE3 scenario_stream scenario_stream blank_layer
            (source 8) [10%Z] (repeat 1%Z 8 ++ repeat 0%Z 24) [] scenario_input
            _ eq_refl eq_refl eq_refl _ eq_refl _ eq_refl eq_refl _ _ eq_refl _).
  - concrete_dims.
  - concrete_forall.
  - concrete_forall.
  - vm_compute. reflexivity.
  - intros _. left. reflexivity.
  - intros _. exact scenario_input_7bit.
Defined.

Lemma dense_pairs_fit i :
  i < 1 -> pairs_fit 8 (weights_ dense_layer) scenario_input_garbage i.
Proof.
  intros Hi. assert (i = 0) by lia. subst i. unfold pairs_fit. cbv zeta.
  concrete_forall.
Qed.

Lemma maddubs_kernels_exact_witness :
  Propagate_kernel SSSE3 dense_layer scenario_input_garbage = Some [6166%Z].
Proof.
  refine (maddubs_kernels_exact 1 SSSE3 dense_layer scenario_input_garbage
            dense_layer_well_formed _ _ _ dense_pairs_fit).
  - right. right. reflexivity.
  - left. reflexivity.
  - vm_compute. lia.
Defined.

Lemma masked_layer_well_formed : well_formed masked_layer.
Proof. concrete_layer. Qed.

Lemma masked_input_differs_where_masked j :
  j < 32 ->
  nth j scenario_input Byte.x00 = nth j masked_input Byte.x00 \/
  forall i, i < 1 -> nth (i * 32 + j) (weights_ masked_layer) 0%Z = 0%Z.
Proof.
  intros Hj.
  do 32 (destruct j as [|j];
         [first [left; reflexivity
                |right; intros i Hi; assert (i = 0) by lia; subst i; reflexivity]|]).
  lia.
Qed.

Lemma masked_positions_ignored_witness :
  Propagate_kernel SSSE3 masked_layer scenario_input
  = Propagate_kernel SSSE3 masked_layer masked_input.
Proof.
  exact (masked_positions_ignored 1 SSSE3 masked_layer scenario_input masked_input
           masked_layer_well_formed eq_refl eq_refl masked_input_differs_where_masked).
Defined.
